(** * qasetool: title normalisation, tree diff and ordered apply

    A shallow embedding of [qasetool/string.py] and [qasetool/tree.py].

    - Python [str] values are lists of characters ([list ascii], written
      with string literals through [str]); indices are [Z], with Python's
      negative indexing, slice clamping and [IndexError].
    - Exceptions are the [Raise] constructor of [result].
    - A tree of [anytree] nodes is a store of attribute records indexed by
      object identity together with the parent/children hierarchy that
      [NodeMixin] maintains; [dict]s are insertion-ordered association
      lists. *)

From Stdlib Require Import ZArith Ascii String List Bool Lia.
From stdpp Require Import base option list gmap strings.

Local Open Scope Z_scope.
Local Open Scope list_scope.
Set Warnings "-register-all".

(** ** Exceptions *)

Inductive exn : Type :=
| IndexError
| ValueError (msg : string)
| AttributeError
| KeyError
| BadRequestException (msg : string)
| ServiceError (msg : string).

Inductive result (A : Type) : Type :=
| Ok (a : A)
| Raise (e : exn).
Arguments Ok {A} a.
Arguments Raise {A} e.

#[global] Instance result_ret : MRet result := fun A a => Ok a.
#[global] Instance result_bind : MBind result := fun A B f m =>
  match m with
  | Ok a => f a
  | Raise e => Raise e
  end.

Definition is_ok {A} (r : result A) : bool :=
  match r with Ok _ => true | Raise _ => false end.

(** ** Python string primitives *)

Module PyStr.

Abbreviation pystr := (list ascii) (only parsing).

Definition str (s : string) : pystr := list_ascii_of_string s.

Definition len (s : pystr) : Z := Z.of_nat (length s).

(** [s[i]]: a negative index counts from the end; out of range raises. *)
Definition index (s : pystr) (i : Z) : result ascii :=
  let j := if i <? 0 then i + len s else i in
  if (0 <=? j) && (j <? len s)
  then match s !! Z.to_nat j with
       | Some c => Ok c
       | None => Raise IndexError
       end
  else Raise IndexError.

(** Slice bounds are clamped to [0, len s]. *)
Definition clamp (n i : Z) : Z :=
  if i <? 0 then Z.max 0 (i + n) else Z.min i n.

(** [s[a:b]] *)
Definition slice (s : pystr) (a b : Z) : pystr :=
  let lo := clamp (len s) a in
  let hi := clamp (len s) b in
  firstn (Z.to_nat (hi - lo)) (skipn (Z.to_nat lo) s).

(** [s[a:]] *)
Definition slice_from (s : pystr) (a : Z) : pystr :=
  skipn (Z.to_nat (clamp (len s) a)) s.

(** [s[:b]] *)
Definition slice_to (s : pystr) (b : Z) : pystr := slice s 0 b.

Definition ascii_eqb (a b : ascii) : bool := Ascii.eqb a b.

Fixpoint is_prefix (sub s : pystr) : bool :=
  match sub, s with
  | [], _ => true
  | _ :: _, [] => false
  | a :: sub', b :: s' => ascii_eqb a b && is_prefix sub' s'
  end.

(** Lowest match of [sub] in [s], whose first character has index [i]. *)
Fixpoint find_aux (sub s : pystr) (i : Z) : Z :=
  if is_prefix sub s then i
  else match s with
       | [] => -1
       | _ :: s' => find_aux sub s' (i + 1)
       end.

(** Highest match of [sub] in [s], whose first character has index [i]. *)
Fixpoint rfind_aux (sub s : pystr) (i : Z) : Z :=
  match s with
  | [] => if is_prefix sub [] then i else -1
  | _ :: s' =>
      let r := rfind_aux sub s' (i + 1) in
      if r =? -1 then (if is_prefix sub s then i else -1) else r
  end.

(** [s.find(sub, start)] *)
Definition find_from (s sub : pystr) (start : Z) : Z :=
  let lo := clamp (len s) start in
  find_aux sub (skipn (Z.to_nat lo) s) lo.

(** [s.find(sub)] *)
Definition find (s sub : pystr) : Z := find_from s sub 0.

(** [s.rfind(sub, start, stop)] *)
Definition rfind_in (s sub : pystr) (start stop : Z) : Z :=
  rfind_aux sub (slice s start stop) (clamp (len s) start).

(** [s.rfind(sub)] *)
Definition rfind (s sub : pystr) : Z := rfind_in s sub 0 (len s).

(** [s.count(c)] for a one-character [c]. *)
Fixpoint count (s : pystr) (c : ascii) : Z :=
  match s with
  | [] => 0
  | a :: s' => (if ascii_eqb a c then 1 else 0) + count s' c
  end.

Definition space : ascii := " "%char.
Definition dquote : ascii := "034"%char.
Definition dq : list ascii := [dquote].

Fixpoint lstrip (s : pystr) : pystr :=
  match s with
  | a :: s' => if ascii_eqb a space then lstrip s' else s
  | [] => []
  end.

(** [s.strip(' ')] *)
Definition strip (s : pystr) : pystr := rev (lstrip (rev (lstrip s))).

(** [c.isspace()] on code points below 256. *)
Definition isspace (c : ascii) : bool :=
  let n := N_of_ascii c in
  ((9 <=? n) && (n <=? 13) || (28 <=? n) && (n <=? 32)
   || (n =? 133) || (n =? 160))%N.

(** [s.split()]: the maximal runs of non-whitespace characters.
    [cur] is the run being read, reversed. *)
Fixpoint split_aux (s cur : pystr) : list pystr :=
  match s with
  | [] => match cur with [] => [] | _ => [rev cur] end
  | c :: s' =>
      if isspace c
      then match cur with
           | [] => split_aux s' []
           | _ => rev cur :: split_aux s' []
           end
      else split_aux s' (c :: cur)
  end.

Definition split (s : pystr) : list pystr := split_aux s [].

(** [" ".join(ws)] *)
Fixpoint join (ws : list pystr) : pystr :=
  match ws with
  | [] => []
  | [w] => w
  | w :: ws' => w ++ space :: join ws'
  end.

End PyStr.

(** ** [qasetool/string.py] *)

Module TitleString.
Import PyStr.

Definition lt_sign : ascii := "<"%char.
Definition gt_sign : ascii := ">"%char.

Definition is_balanced (string : pystr) (symbol : ascii) : bool :=
  (count string symbol) mod 2 =? 0.

Definition _get_var_boundary_positions (string : pystr) (symbol : ascii)
  : Z * Z :=
  let var_start := find string [symbol; lt_sign] in
  let var_end := rfind string [gt_sign; symbol] in
  let var_end := if negb (var_end =? -1) then var_end + 1 else var_end in
  (var_start, var_end).

Definition _handle_variables (string : pystr) (symbol : ascii)
  (balanced : bool) : result pystr :=
  let start := 0 in
  let end_ := len string - 1 in
  let symbol_start := find string [symbol] in
  let symbol_end := rfind string [symbol] in
  let '(var_start, var_end) := _get_var_boundary_positions string symbol in
  if (var_start =? symbol_start) && (var_end =? symbol_end)
  then Ok string
  else
    c1 ← (if (var_start =? symbol_start) && (symbol_start =? start)
          then (e ← index string end_; Ok (ascii_eqb e symbol))
          else Ok false);
    if (c1 : bool) then Ok (slice_to string end_)
    else
      c2 ← (if (var_end =? symbol_end) && (symbol_end =? end_)
            then (s ← index string start; Ok (ascii_eqb s symbol))
            else Ok false);
      if (c2 : bool) then Ok (slice_from string (start + 1))
      else
        c3 ← (if balanced
              then (s ← index string start;
                    e ← index string end_;
                    Ok (ascii_eqb s e && ascii_eqb e symbol))
              else Ok false);
        if (c3 : bool) then Ok (slice string (start + 1) end_)
        else Ok string.

Definition _strip_title (string : pystr) (symbol : ascii) : result pystr :=
  let start := 0 in
  let end_ := len string - 1 in
  s0 ← index string start;
  border ← (if ascii_eqb s0 symbol then Ok true
            else (e ← index string end_; Ok (ascii_eqb e symbol)));
  if negb border then Ok string
  else
    let balanced := is_balanced string symbol in
    string ← _handle_variables string symbol balanced;
    (* variable handling might have fixed balance, hence recalculating *)
    let end_ := len string - 1 in
    let balanced := is_balanced string symbol in
    string ←
      (if negb balanced && (count string symbol =? 1) then
         s ← index string start;
         if ascii_eqb s symbol then Ok (slice_from string (start + 1))
         else
           e ← index string end_;
           if ascii_eqb e symbol then Ok (slice_to string end_)
           else Ok string
       else if negb balanced && (count string symbol =? 3) then
         let left_distance := find_from string [symbol] (start + 1) - start in
         let right_distance := end_ - rfind_in string [symbol] start end_ in
         if left_distance >? right_distance
         then Ok (slice_from string (start + 1))
         else Ok (slice_to string end_)
       else if negb balanced && (count string symbol >? 3) then
         let '(var_start, var_end) :=
           _get_var_boundary_positions string symbol in
         c ← (if negb (var_start =? start) && negb (var_end =? end_)
              then (s ← index string start;
                    e ← index string end_;
                    Ok (ascii_eqb s e && ascii_eqb e symbol))
              else Ok false);
         if (c : bool) then Ok (slice string (start + 1) end_)
         else Ok string
       else Ok string);
    Ok (strip string).

(** [for symbol in symbols: string = _strip_title(string, symbol)] *)
Fixpoint strip_symbols (string : pystr) (symbols : list ascii)
  : result pystr :=
  match symbols with
  | [] => Ok string
  | symbol :: rest =>
      string ← _strip_title string symbol;
      strip_symbols string rest
  end.

Definition strip_title (string : pystr) (symbols : list ascii)
  : result pystr :=
  string ← strip_symbols string symbols;
  Ok (join (split string)).

End TitleString.

(** ** Python [dict]: insertion-ordered, one entry per key *)

Abbreviation dict K V := (list (K * V)) (only parsing).

Section dict.
Context {K V : Type} `{EqDecision K}.


(** [d.get(k, None)] *)
Fixpoint dict_get (d : dict K V) (k : K) : option V :=
  match d with
  | [] => None
  | (k', v) :: d' => if decide (k' = k) then Some v else dict_get d' k
  end.

(** [d[k] = v]: an existing entry keeps its position. *)
Fixpoint dict_set (d : dict K V) (k : K) (v : V) : dict K V :=
  match d with
  | [] => [(k, v)]
  | (k', v') :: d' =>
      if decide (k' = k) then (k, v) :: d' else (k', v') :: dict_set d' k v
  end.

Fixpoint dict_del (d : dict K V) (k : K) : dict K V :=
  match d with
  | [] => []
  | (k', v') :: d' =>
      if decide (k' = k) then d' else (k', v') :: dict_del d' k
  end.

(** [d.pop(k)] *)
Definition dict_pop (d : dict K V) (k : K) : result (dict K V) :=
  match dict_get d k with
  | Some _ => Ok (dict_del d k)
  | None => Raise KeyError
  end.
End dict.

(** ** [qasetool/tree.py]: nodes *)

Module CaseTree.
Import PyStr.

Inductive Entity := REPOSITORY | SUITE | CASE.
Inductive Action := NONE | CREATE | UPDATE | DELETE.

#[global] Instance Entity_eq_dec : EqDecision Entity.
Proof. solve_decision. Defined.
#[global] Instance Action_eq_dec : EqDecision Action.
Proof. solve_decision. Defined.

(** A remote identifier as the service hands it out: an [int] or [None]. *)
Abbreviation ident := (option Z) (only parsing).

(** Truth value of an identifier: [None] and [0] are false. *)
Definition truthy (i : ident) : bool :=
  match i with
  | Some z => negb (z =? 0)
  | None => false
  end.

(** The attributes of a [LocalCaseNode] or [RemoteCaseNode].  [pk] is
    [None] while the object has no such attribute (a local node before the
    diff), [Some None] when it holds Python's [None]. *)
Record Node := mkNode {
  entity : Entity;
  filepath : pystr;
  name : pystr;
  action : Action;
  pk : option ident;
  custom_fields : option (list (Z * pystr));
  custom_field : dict Z pystr;
  key : pystr;
  data : dict pystr pystr
}.

Definition set_action (a : Action) (n : Node) : Node :=
  mkNode (entity n) (filepath n) (name n) a (pk n) (custom_fields n)
         (custom_field n) (key n) (data n).
Definition set_pk (i : ident) (n : Node) : Node :=
  mkNode (entity n) (filepath n) (name n) (action n) (Some i)
         (custom_fields n) (custom_field n) (key n) (data n).
Definition set_custom_fields (x : option (list (Z * pystr))) (n : Node)
  : Node :=
  mkNode (entity n) (filepath n) (name n) (action n) (pk n) x
         (custom_field n) (key n) (data n).
Definition set_custom_field (x : dict Z pystr) (n : Node) : Node :=
  mkNode (entity n) (filepath n) (name n) (action n) (pk n)
         (custom_fields n) x (key n) (data n).

(** [node.pk], which raises on an object without that attribute. *)
Definition get_pk (n : Node) : result ident :=
  match pk n with
  | Some i => Ok i
  | None => Raise AttributeError
  end.

(** [getattr(node, 'pk', None)] *)
Definition getattr_pk (n : Node) : ident :=
  match pk n with
  | Some i => i
  | None => None
  end.

(** The module [config] is not among the sources; the two settings the
    node and diff code read are taken as parameters. *)
Record Config := mkConfig {
  STRIP_TITLES : bool;
  QASE_CUSTOM_FIELD_DEFAULTS : dict Z pystr
}.

(** Paths are kept as their normalised text, [str(Path(p))]. *)
Definition dot : pystr := str ".".

(** [path == Path(".")] *)
Definition is_dot (p : pystr) : bool := bool_decide (p = dot).

(** [Path.name]: the last component; empty for [Path(".")]. *)
Definition path_name (p : pystr) : pystr :=
  if is_dot p then [] else slice_from p (rfind p (str "/") + 1).

(** [Path.stem]: the last component without its last suffix. *)
Definition path_stem (p : pystr) : pystr :=
  let nm := path_name p in
  let i := rfind nm (str ".") in
  if (0 <? i) && (i <? len nm - 1) then slice_to nm i else nm.

(** [parent / name], for [name] a relative path without [.] parts. *)
Definition path_join (p nm : pystr) : pystr :=
  if is_dot p then nm else p ++ str "/" ++ nm.

(** [s.replace(sub, '')] for a non-empty [sub]; [skip] counts the
    characters of a match still to drop. *)
Fixpoint remove_all (sub s : pystr) (skip : nat) : pystr :=
  match s with
  | [] => []
  | c :: s' =>
      match skip with
      | S k => remove_all sub s' k
      | O => if is_prefix sub s
             then remove_all sub s' (length sub - 1)
             else c :: remove_all sub s' O
      end
  end.

Definition quote_symbols : list ascii := str "'" ++ dq.

(** [LocalCaseNode._set_key] *)
Definition local_key (fp : pystr) (e : Entity) (nm : pystr) : pystr :=
  let base := remove_all (str ".feature") fp O in
  match e with
  | CASE => base ++ str "::" ++ nm
  | _ => base
  end.

(** [LocalCaseNode.__init__], the attributes it sets.  Linking to
    [parent] is [attach] below.  A suite path that is [.] makes the node
    the repository root whatever [entity] was asked for. *)
Definition LocalCaseNode (cfg : Config) (fp nm : pystr) (e : Entity)
  (a : Action) (dat : dict pystr pystr) : result Node :=
  '(e, nm) ←
    (if is_dot fp then Ok (REPOSITORY, str "Repository")
     else match e with
          | SUITE => Ok (e, path_stem fp)
          | CASE =>
              match nm with
              | [] => Raise (ValueError
                               "Cannot create Test Case node without name")
              | _ =>
                  if STRIP_TITLES cfg
                  then nm' ← TitleString.strip_title nm quote_symbols;
                       Ok (e, nm')
                  else Ok (e, nm)
              end
          | REPOSITORY => Raise AttributeError
          end);
  Ok (mkNode e fp nm a None (Some []) [] (local_key fp e nm) dat).

(** The [custom_fields] setter: defaults first, then the listed values. *)
Definition custom_field_of (cfg : Config) (x : option (list (Z * pystr)))
  : dict Z pystr :=
  fold_left (fun d iv => dict_set d (fst iv) (snd iv))
            (default [] x) (QASE_CUSTOM_FIELD_DEFAULTS cfg).

(** [RemoteCaseNode._set_remote_filepath]; [par] is the parent's
    attributes when a parent was given. *)
Definition remote_filepath (e : Entity) (nm : pystr) (par : option Node)
  : pystr :=
  match e, par with
  | REPOSITORY, _ => dot
  | _, None => dot
  | SUITE, Some p => path_join (filepath p) nm
  | CASE, Some p => filepath p
  end.

(** [RemoteCaseNode._set_key] *)
Definition remote_key (fp : pystr) (e : Entity) (nm : pystr) : pystr :=
  match e with
  | CASE => fp ++ str "::" ++ nm
  | _ => fp
  end.

(** [RemoteCaseNode.__init__] *)
Definition RemoteCaseNode (cfg : Config) (i : ident) (e : Entity)
  (a : Action) (nm : pystr) (par : option Node)
  (cfs : option (list (Z * pystr))) : Node :=
  let fp := remote_filepath e nm par in
  mkNode e fp nm a (Some i) cfs (custom_field_of cfg cfs)
         (remote_key fp e nm) [].

(** ** [qasetool/tree.py]: the hierarchy and the tree container *)

(** Object identity of a node. *)
Abbreviation nid := nat (only parsing).

(** The hierarchy [anytree.NodeMixin] keeps: each node owns the ordered
    list of its children, and a node's parent is the node that lists it. *)
Inductive Shape := Sh (n : nid) (kids : list Shape).

Definition shape_root (s : Shape) : nid := match s with Sh n _ => n end.
Definition shape_kids (s : Shape) : list Shape :=
  match s with Sh _ ks => ks end.

(** [anytree.PreOrderIter]: a node, then each child's subtree in order. *)
Fixpoint PreOrderIter (s : Shape) : list nid :=
  match s with
  | Sh n ks => n :: flat_map PreOrderIter ks
  end.

Fixpoint shape_size (s : Shape) : nat :=
  match s with
  | Sh _ ks => S (list_sum (map shape_size ks))
  end.

(** The loop of [anytree.LevelOrderGroupIter]: yield the current level,
    then go on with all its children.  [fuel] bounds the number of
    levels. *)
Fixpoint level_groups (fuel : nat) (children : list Shape)
  : list (list nid) :=
  match fuel, children with
  | _, [] => []
  | O, _ :: _ => []
  | S fuel', _ :: _ =>
      map shape_root children
        :: level_groups fuel' (flat_map shape_kids children)
  end.

(** A tree has no more levels than nodes. *)
Definition LevelOrderGroupIter (s : Shape) : list (list nid) :=
  level_groups (shape_size s) [s].

(** [group_nodes_by_level] *)
Definition group_nodes_by_level (root : Shape) : list (list nid) :=
  LevelOrderGroupIter root.

(** [node.parent] *)
Fixpoint parent_of (node : nid) (s : Shape) : option nid :=
  match s with
  | Sh n ks =>
      if existsb (fun k => bool_decide (shape_root k = node)) ks
      then Some n
      else (fix first (l : list Shape) : option nid :=
              match l with
              | [] => None
              | k :: l' =>
                  match parent_of node k with
                  | Some p => Some p
                  | None => first l'
                  end
              end) ks
  end.

(** [child.parent = parent] for a [child] that is in no tree yet: it
    becomes the last child of [parent]. *)
Fixpoint attach (parent : nid) (child : Shape) (s : Shape) : Shape :=
  match s with
  | Sh n ks =>
      if decide (n = parent) then Sh n (ks ++ [child])
      else Sh n (map (attach parent child) ks)
  end.

(** [node.parent = None]: the node leaves the tree with what is under
    it.  On the root, which has no parent, nothing changes. *)
Fixpoint detach (node : nid) (s : Shape) : Shape :=
  match s with
  | Sh n ks =>
      Sh n ((fix rest (l : list Shape) : list Shape :=
               match l with
               | [] => []
               | k :: l' =>
                   if bool_decide (shape_root k = node) then rest l'
                   else detach node k :: rest l'
               end) ks)
  end.

(** [class Tree]: the hierarchy under [root], the attributes of every
    node object, and the two indices. *)
Record Tree := mkTree {
  hier : Shape;
  store : nid → Node;
  id_map : dict ident nid;
  key_map : dict pystr nid
}.

Definition root (t : Tree) : nid := shape_root (hier t).

(** Assignment to attributes of one node object. *)
Definition upd (st : nid → Node) (node : nid) (f : Node → Node)
  : nid → Node :=
  fun m => if decide (m = node) then f (st m) else st m.

Definition upd_node (t : Tree) (node : nid) (f : Node → Node) : Tree :=
  mkTree (hier t) (upd (store t) node f) (id_map t) (key_map t).

(** [Tree.__init__] *)
Definition Tree_init (st : nid → Node) (h : Shape) : Tree :=
  let r := st (shape_root h) in
  mkTree h st
         (match pk r with
          | Some i => [(i, shape_root h)]
          | None => []
          end)
         [(key r, shape_root h)].

Definition get_node_by_suite_id (t : Tree) (suite_id : ident)
  : option nid := dict_get (id_map t) suite_id.

Definition get_node_by_key (t : Tree) (k : pystr) : option nid :=
  dict_get (key_map t) k.

(** [Tree.add_node] *)
Definition add_node (t : Tree) (node : nid) : Tree :=
  let nd := store t node in
  let km := dict_set (key_map t) (key nd) node in
  let im := if truthy (getattr_pk nd)
            then dict_set (id_map t) (getattr_pk nd) node
            else id_map t in
  mkTree (hier t) (store t) im km.

(** [Tree.delete_node].  What was done before an exception stays done,
    so the tree is returned in both cases. *)
Definition delete_node (t : Tree) (node : nid) : Tree * result unit :=
  let nd := store t node in
  match dict_pop (key_map t) (key nd) with
  | Raise e => (t, Raise e)
  | Ok km =>
      let t := mkTree (hier t) (store t) (id_map t) km in
      match get_pk nd with
      | Raise e => (t, Raise e)
      | Ok i =>
          match dict_pop (id_map t) i with
          | Raise e => (t, Raise e)
          | Ok im =>
              (mkTree (detach node (hier t)) (store t) im (key_map t),
               Ok ())
          end
      end
  end.

(** An identity no live object of the tree has. *)
Definition live (t : Tree) : list nid :=
  PreOrderIter (hier t) ++ map snd (key_map t) ++ map snd (id_map t).

Definition fresh (t : Tree) : nid := S (max_list (live t)).

(** A new node object with attributes [nd], linked under [parent] when
    one is given. *)
Definition new_node (t : Tree) (nd : Node) (parent : option nid)
  : Tree * nid :=
  let node := fresh t in
  let h := match parent with
           | Some p => attach p (Sh node []) (hier t)
           | None => hier t
           end in
  (mkTree h (upd (store t) node (fun _ => nd)) (id_map t) (key_map t),
   node).

Definition set_key_map (t : Tree) (km : dict pystr nid) : Tree :=
  mkTree (hier t) (store t) (id_map t) km.
Definition set_id_map (t : Tree) (im : dict ident nid) : Tree :=
  mkTree (hier t) (store t) im (key_map t).

(** [Tree.add_local_suite] *)
Definition add_local_suite (cfg : Config) (t : Tree) (parent : option nid)
  (fp : pystr) : result (Tree * nid) :=
  nd ← LocalCaseNode cfg fp [] SUITE NONE [];
  let '(t, node) := new_node t nd parent in
  Ok (set_key_map t (dict_set (key_map t) (key nd) node), node).

(** [Tree.add_local_case] *)
Definition add_local_case (cfg : Config) (t : Tree) (parent : option nid)
  (fp nm : pystr) : result (Tree * nid) :=
  nd ← LocalCaseNode cfg fp nm CASE NONE [];
  let '(t, node) := new_node t nd parent in
  Ok (set_key_map t (dict_set (key_map t) (key nd) node), node).

(** [Tree.add_remote_suite], for a suite record [(id, title, parent_id)] *)
Definition add_remote_suite (cfg : Config) (t : Tree)
  (suite_id : ident) (title : pystr) (parent_id : ident) : Tree :=
  let parent := dict_get (id_map t) parent_id in
  let nd := RemoteCaseNode cfg suite_id SUITE NONE title
                           (store t <$> parent) None in
  let '(t, node) := new_node t nd parent in
  let t := set_id_map t (dict_set (id_map t) suite_id node) in
  set_key_map t (dict_set (key_map t) (key nd) node).

(** [Tree.add_remote_case], for a case record
    [(id, title, suite_id, custom_fields)] *)
Definition add_remote_case (cfg : Config) (t : Tree)
  (case_id : ident) (title : pystr) (suite_id : ident)
  (cfs : option (list (Z * pystr))) : Tree :=
  let parent := dict_get (id_map t) suite_id in
  let nd := RemoteCaseNode cfg case_id CASE NONE title
                           (store t <$> parent) cfs in
  let '(t, node) := new_node t nd parent in
  set_key_map t (dict_set (key_map t) (key nd) node).

(** ** [qasetool/tree.py]: the two diffs *)

(** A [for] loop whose body may raise. *)
Fixpoint for_result {A St : Type} (l : list A) (body : St → A → result St)
  (s : St) : result St :=
  match l with
  | [] => Ok s
  | a :: l' => s' ← body s a; for_result l' body s'
  end.

(** One entry of a flat diff: [(action, node, pk)]. *)
Definition Operation := (Action * nid * ident)%type.

(** Body of the first loop of [flat_diff_trees]; the state is
    [(to_update, to_create)]. *)
Definition flat_local (local remote : Tree)
  (acc : list Operation * list Operation) (item : pystr * nid)
  : result (list Operation * list Operation) :=
  let '(k, node_local) := item in
  if is_dot (filepath (store local node_local)) then Ok acc
  else match dict_get (key_map remote) k with
       | Some node_remote =>
           i ← get_pk (store remote node_remote);
           Ok (fst acc ++ [(UPDATE, node_local, i)], snd acc)
       | None => Ok (fst acc, snd acc ++ [(CREATE, node_local, None)])
       end.

(** Body of its second loop; the state is [to_delete]. *)
Definition flat_remote (local remote : Tree) (acc : list Operation)
  (item : pystr * nid) : result (list Operation) :=
  let '(k, node_remote) := item in
  if is_dot (filepath (store remote node_remote)) then Ok acc
  else match dict_get (key_map local) k with
       | Some _ => Ok acc
       | None =>
           (* key exists remotely but doesn't exist locally, meaning we
              deleted this node *)
           i ← get_pk (store remote node_remote);
           Ok (acc ++ [(DELETE, node_remote, i)])
       end.

Definition flat_diff_trees (local remote : Tree) : result (list Operation) :=
  '(to_update, to_create) ←
    for_result (key_map local) (flat_local local remote) ([], []);
  to_delete ← for_result (key_map remote) (flat_remote local remote) [];
  Ok (to_update ++ to_create ++ to_delete).

(** Body of the first loop of [diff_trees], for one item of
    [merged.key_map]. *)
Definition diff_match (cfg : Config) (remote : Tree) (merged : Tree)
  (item : pystr * nid) : result Tree :=
  let '(k, node_merged) := item in
  match dict_get (key_map remote) k with
  | Some node_remote =>
      let r := store remote node_remote in
      i ← get_pk r;
      let merged := upd_node merged node_merged (set_pk i) in
      (* Qase doesn't let us update test cases without specifying value
         for each custom field, hence we retrieve them from remote tree *)
      let merged :=
        upd_node merged node_merged (set_custom_fields (custom_fields r)) in
      let merged :=
        upd_node merged node_merged (set_custom_field (custom_field r)) in
      if is_dot (filepath (store merged node_merged))
      then Ok (upd_node merged node_merged (set_action NONE))
      else Ok (upd_node merged node_merged (set_action UPDATE))
  | None =>
      let merged :=
        upd_node merged node_merged
                 (set_custom_field (QASE_CUSTOM_FIELD_DEFAULTS cfg)) in
      Ok (upd_node merged node_merged (set_action CREATE))
  end.

(** Body of its second loop, for one node of the remote tree.  The copy
    of the remote node is a new object without children. *)
Definition diff_missing (remote : Tree) (merged : Tree) (node_remote : nid)
  : result Tree :=
  let r := store remote node_remote in
  match get_node_by_key merged (key r) with
  | Some _ => Ok merged  (* node already exists, skipping *)
  | None =>
      (* finding where to attach node we're copying from remote *)
      match parent_of node_remote (hier remote) with
      | None => Raise AttributeError
      | Some remote_parent =>
          let node_merged_parent :=
            get_node_by_key merged (key (store remote remote_parent)) in
          let '(merged, node_merged) :=
            new_node merged (set_action DELETE r) node_merged_parent in
          Ok (add_node merged node_merged)
      end
  end.

(** [diff_trees]; the deep copy of [local] is the value [local] itself. *)
Definition diff_trees (cfg : Config) (local remote : Tree) : result Tree :=
  let merged := local in
  merged ← for_result (key_map merged) (diff_match cfg remote) merged;
  for_result (PreOrderIter (hier remote)) (diff_missing remote) merged.

(** ** [qasetool/tree.py]: applying a merged tree *)

(** The write calls of the service ([config.qase.suites] and
    [config.qase.cases]). *)
Inductive Call :=
| SuitesCreate (title : pystr) (parent_id : ident)
| SuitesUpdate (i : ident) (title : pystr) (parent_id : ident)
| SuitesDelete (i : ident)
| CasesCreate (title : pystr) (suite_id : ident)
              (cf : dict Z pystr) (dat : dict pystr pystr)
| CasesUpdate (i : ident) (title : pystr) (suite_id : ident)
              (cf : dict Z pystr) (dat : dict pystr pystr)
| CasesDelete (i : ident).

(** What a run does to the outside: a line printed for [node] in a dry
    run, or a call made for [node] and how the service answered. *)
Inductive Event :=
| Printed (node : nid)
| Called (node : nid) (c : Call) (r : result Z).

(** The service answers a call with the identifier of the entity or
    with an exception; the answer may depend on the calls made so far. *)
Definition Service := list Call → Call → result Z.

Definition calls_of (log : list Event) : list Call :=
  flat_map (fun e => match e with
                     | Called _ c _ => [c]
                     | Printed _ => []
                     end) log.

Record World := mkWorld {
  w_tree : Tree;
  w_log : list Event
}.

(** Statements that change the tree, talk to the service, and may
    raise; what was done before an exception stays done. *)
Definition M (A : Type) := World → World * result A.

Definition retM {A} (a : A) : M A := fun w => (w, Ok a).
Definition bindM {A B} (m : M A) (k : A → M B) : M B :=
  fun w => match m w with
           | (w', Ok a) => k a w'
           | (w', Raise e) => (w', Raise e)
           end.
Definition raiseM {A} (e : exn) : M A := fun w => (w, Raise e).
Definition liftM {A} (r : result A) : M A := fun w => (w, r).
Definition get_tree : M Tree := fun w => (w, Ok (w_tree w)).
Definition set_tree (t : Tree) : M unit :=
  fun w => (mkWorld t (w_log w), Ok ()).
Definition emit (e : Event) : M unit :=
  fun w => (mkWorld (w_tree w) (w_log w ++ [e]), Ok ()).

(** [try: m except Exception as e: h(e)] *)
Definition catchM {A} (m : M A) (h : exn → M A) : M A :=
  fun w => match m w with
           | (w', Ok a) => (w', Ok a)
           | (w', Raise e) => h e w'
           end.

Notation "x ←M m ; k" := (bindM m (fun x => k))
  (at level 20, m at level 100, k at level 200, only parsing,
   right associativity).

Fixpoint for_each {A : Type} (l : list A) (body : A → M unit) : M unit :=
  match l with
  | [] => retM ()
  | a :: l' => _ ←M body a; for_each l' body
  end.

(** One call of the write service for [node]. *)
Definition call (svc : Service) (node : nid) (c : Call) : M Z :=
  fun w =>
    let r := svc (calls_of (w_log w)) c in
    (mkWorld (w_tree w) (w_log w ++ [Called node c r]), r).

(** [node.parent.pk] *)
Definition parent_pk (t : Tree) (node : nid) : result ident :=
  match parent_of node (hier t) with
  | None => Raise AttributeError
  | Some p => get_pk (store t p)
  end.

Definition assign_pk (node : nid) (i : ident) : M unit :=
  t ←M get_tree; set_tree (upd_node t node (set_pk i)).

Definition do_delete_node (node : nid) : M unit :=
  fun w => let '(t, r) := delete_node (w_tree w) node in
           (mkWorld t (w_log w), r).

(** [Tree.perform_action_on_suite] *)
Definition perform_action_on_suite (svc : Service) (node : nid) : M unit :=
  t ←M get_tree;
  let nd := store t node in
  match action nd with
  | CREATE =>
      parent ←M liftM (parent_pk t node);
      i ←M call svc node (SuitesCreate (name nd) parent);
      assign_pk node (Some i)
  | UPDATE =>
      i0 ←M liftM (get_pk nd);
      parent ←M liftM (parent_pk t node);
      i ←M call svc node (SuitesUpdate i0 (name nd) parent);
      assign_pk node (Some i)
  | DELETE =>
      i0 ←M liftM (get_pk nd);
      _ ←M call svc node (SuitesDelete i0);
      do_delete_node node
  | NONE => retM ()
  end.

(** [Tree.perform_action_on_case] *)
Definition perform_action_on_case (svc : Service) (node : nid) : M unit :=
  t ←M get_tree;
  let nd := store t node in
  match action nd with
  | CREATE =>
      parent ←M liftM (parent_pk t node);
      i ←M call svc node
             (CasesCreate (name nd) parent (custom_field nd) (data nd));
      assign_pk node (Some i)
  | UPDATE =>
      i0 ←M liftM (get_pk nd);
      parent ←M liftM (parent_pk t node);
      i ←M call svc node
             (CasesUpdate i0 (name nd) parent (custom_field nd) (data nd));
      assign_pk node (Some i)
  | DELETE =>
      i0 ←M liftM (get_pk nd);
      _ ←M call svc node (CasesDelete i0);
      do_delete_node node
  | NONE => retM ()
  end.

(** ['There are no changes' in str(err)] *)
Definition no_changes (msg : string) : bool :=
  negb (find (str msg) (str "There are no changes") =? -1).

(** [Tree.perform_action] *)
Definition perform_action (svc : Service) (root_suite_id : ident)
  (dry_run : bool) (node : nid) : M unit :=
  catchM
    (if dry_run then emit (Printed node)
     else
       t ←M get_tree;
       let nd := store t node in
       if (bool_decide (entity nd = REPOSITORY)
           || bool_decide (entity nd = SUITE))
          && is_dot (filepath nd)
       then
         (* We assume it's impossible for Entity.CASE to be the root
            node *)
         assign_pk node root_suite_id
       else match entity nd with
            | SUITE => perform_action_on_suite svc node
            | CASE => perform_action_on_case svc node
            | REPOSITORY => retM ()
            end)
    (fun err =>
       match err with
       | BadRequestException msg =>
           if no_changes msg then retM () else raiseM err
       | _ => raiseM err
       end).

(** [Tree.push].  The first pass leaves the hierarchy as it is, so the
    nodes it visits are those of the pre-order at its start.  The second
    pass makes the list of levels before it starts. *)
Definition push (svc : Service) (root_suite_id : ident) (dry_run : bool)
  : M unit :=
  t ←M get_tree;
  (* For CREATE and UPDATE actions we traverse tree from top to bottom *)
  _ ←M for_each (PreOrderIter (hier t)) (fun node =>
         t ←M get_tree;
         match action (store t node) with
         | NONE => retM ()
         | CREATE | UPDATE =>
             perform_action svc root_suite_id dry_run node
         | DELETE => retM ()
         end);
  (* for DELETE, we traverse tree from bottom (deepmost node) to top,
     thus guaranteeing that parent will not be deleted prior to a child *)
  t ←M get_tree;
  for_each (rev (group_nodes_by_level (hier t))) (fun level =>
    for_each level (fun node =>
      t ←M get_tree;
      match action (store t node) with
      | DELETE => perform_action svc root_suite_id dry_run node
      | _ => retM ()
      end)).

(** [delete_tree_remotely], which [Tree.delete_remotely] calls on the
    root.  It only reads the tree. *)
Definition delete_tree_remotely (svc : Service) : M unit :=
  t ←M get_tree;
  for_each (rev (group_nodes_by_level (hier t))) (fun level =>
    for_each level (fun node =>
      t ←M get_tree;
      i ←M liftM (get_pk (store t node));
      root_pk ←M liftM (get_pk (store t (root t)));
      if bool_decide (i = root_pk)
      then
        (* we don't want to delete root node *)
        retM ()
      else match entity (store t node) with
           | CASE => _ ←M call svc node (CasesDelete i); retM ()
           | SUITE => _ ←M call svc node (SuitesDelete i); retM ()
           | REPOSITORY => retM ()
           end)).

End CaseTree.

(** ** [qasetool/api.py]: reading all pages *)

Module Api.
Import PyStr CaseTree.

(** What [get_all] of the service returns for one page. *)
Record Response (A : Type) := mkResponse {
  count : Z;
  entities : list A
}.
Arguments mkResponse {A} _ _.
Arguments count {A} _.
Arguments entities {A} _.

(** [config.qase.suites.get_all] or [config.qase.cases.get_all] with the
    project code: the answer to a request for [offset], [limit] and
    [filters]; it may depend on how many requests were made before. *)
Definition Reader (F A : Type) :=
  nat → Z → Z → option F → result (Response A).

(** The [while True] loop of [get_all_suites] and [get_all_cases], with
    [made] requests made so far.  [None] when it is still running after
    [fuel] requests. *)
Fixpoint get_all_loop {F A : Type} (fuel : nat) (get_all : Reader F A)
  (limit : Z) (filters : option F) (made : nat) (offset : Z)
  (acc : list A) : option (result (list A)) :=
  match fuel with
  | O => None
  | S fuel' =>
      match get_all made offset limit filters with
      | Raise e => Some (Raise e)
      | Ok response =>
          if count response =? 0 then Some (Ok acc)
          else get_all_loop fuel' get_all limit filters (S made)
                            (offset + limit) (acc ++ entities response)
      end
  end.

(** [get_all_suites] *)
Definition get_all_suites {F A : Type} (fuel : nat)
  (suites_get_all : Reader F A) (limit : Z) (filters : option F)
  : option (result (list A)) :=
  get_all_loop fuel suites_get_all limit filters 0 0 [].

(** [get_all_cases] *)
Definition get_all_cases {F A : Type} (fuel : nat)
  (cases_get_all : Reader F A) (limit : Z) (filters : option F)
  : option (result (list A)) :=
  get_all_loop fuel cases_get_all limit filters 0 0 [].

End Api.

(** ** [qasetool/__init__.py]: building the remote tree *)

Module Build.
Import PyStr CaseTree.

(** A suite and a case as the service lists them. *)
Record Suite := mkSuite {
  s_id : ident;
  s_title : pystr;
  s_parent_id : ident
}.

Record Case := mkCase {
  c_id : ident;
  c_title : pystr;
  c_suite_id : ident;
  c_custom_fields : option (list (Z * pystr))
}.

(** [Tree(root_node)] for a first node object. *)
Definition Tree_of (root_node : Node) : Tree :=
  Tree_init (fun _ => root_node) (Sh 0%nat []).

(** The body of the loop over the suites in [build_remote_case_tree],
    for the suite listed at position [j].  [tree] is [None] as long as
    the source's [tree] and [root_node] are; [all_cases j] is what
    [get_all_cases] does for this suite. *)
Definition build_step (cfg : Config) (root_suite_id : ident)
  (all_cases : nat → result (list Case)) (tree : option Tree)
  (item : nat * Suite) : result (option Tree) :=
  let '(j, suite) := item in
  let skip :=
    truthy root_suite_id
    && match s_parent_id suite with
       | None =>
           (* omitting top-level suites that aren't our target *)
           negb (bool_decide (s_id suite = root_suite_id))
       | Some _ =>
           (* omitting leaf suites whose parent is not present in our
              id_map, i.e. from a branch we don't need *)
           match tree with
           | Some t =>
               negb (bool_decide
                       (is_Some (get_node_by_suite_id t
                                   (s_parent_id suite))))
           | None => true
           end
       end in
  if skip then Ok tree
  else
    tree ←
      match tree with
      | None =>
          if bool_decide (s_id suite = root_suite_id)
          then Ok (Tree_of (RemoteCaseNode cfg (s_id suite) SUITE NONE
                              (s_title suite) None None))
          else Raise AttributeError
      | Some t =>
          Ok (add_remote_suite cfg t (s_id suite) (s_title suite)
                               (s_parent_id suite))
      end;
    cases ← all_cases j;
    Ok (Some (fold_left
                (fun t case =>
                   add_remote_case cfg t (c_id case) (c_title case)
                                   (c_suite_id case) (c_custom_fields case))
                cases tree)).

(** [build_remote_case_tree], given what [get_all_suites()] does and
    what [get_all_cases] does for each suite. *)
Definition build_remote_case_tree (cfg : Config)
  (all_suites : result (list Suite))
  (all_cases : nat → result (list Case)) (root_suite_id : ident)
  : result (option Tree) :=
  let tree :=
    if truthy root_suite_id then None
    else Some (Tree_of (RemoteCaseNode cfg None REPOSITORY NONE
                          (str "Repository") None None)) in
  suites ← all_suites;
  for_result (imap pair suites) (build_step cfg root_suite_id all_cases) tree.

(** A relative path as the list of its components; [path_str] is its
    text, [str(path)]. *)
Definition path_str (comps : list pystr) : pystr :=
  fold_left path_join comps dot.

(** [[d for d in reversed(list(rel_filepath.parents)) if d != Path(".")]]:
    the directories above the file, outermost first. *)
Definition parent_dirs (rel_filepath : list pystr) : list (list pystr) :=
  (fun k => take k rel_filepath) <$> seq 1 (length rel_filepath - 1).

(** What [gherkin_as_nodes] reads from a feature file: the name and the
    data of each scenario, or the exception of the parser (outside) or
    of the reading of one scenario (inside). *)
Abbreviation Scenarios :=
  (result (list (result (pystr * dict pystr pystr)))) (only parsing).

(** The body of the loop in [build_local_case_tree_branch], for one
    pair [(prev, current)]; [str(None)] is the text [None]. *)
Definition branch_step (cfg : Config) (rel_filepath : list pystr)
  (scenarios : Scenarios) (tree : Tree)
  (pc : option (list pystr) * list pystr) : result Tree :=
  let '(prev, current) := pc in
  match get_node_by_key tree (path_str current) with
  | Some _ => Ok tree
  | None =>
      let prev_str := match prev with
                      | Some p => path_str p
                      | None => str "None"
                      end in
      let parent := default (root tree) (get_node_by_key tree prev_str) in
      '(tree, node) ← add_local_suite cfg tree (Some parent)
                                      (path_str current);
      if bool_decide (current = rel_filepath)
      then
        found ← scenarios;
        for_result found
          (fun tree scenario =>
             '(nm, dat) ← scenario;
             (* gherkin_scenario_as_node *)
             case ← LocalCaseNode cfg (filepath (store tree node)) nm
                                  CASE NONE dat;
             let '(tree, case) := new_node tree case (Some node) in
             Ok (add_node tree case))
          tree
      else Ok tree
  end.

(** [build_local_case_tree_branch] *)
Definition build_local_case_tree_branch (cfg : Config) (tree : Tree)
  (rel_filepath : list pystr) (scenarios : Scenarios) : result Tree :=
  let dirs := parent_dirs rel_filepath in
  for_result (zip (None :: (Some <$> dirs)) (dirs ++ [rel_filepath]))
             (branch_step cfg rel_filepath scenarios) tree.

(** [build_local_case_tree], for the feature files that
    [find_feature_files] yields. *)
Definition build_local_case_tree (cfg : Config)
  (files : list (list pystr * Scenarios)) : result Tree :=
  root_node ← LocalCaseNode cfg dot [] SUITE NONE [];
  for_result files
    (fun tree file => build_local_case_tree_branch cfg tree file.1 file.2)
    (Tree_of root_node).

End Build.

(** ** Notions used to state the properties *)

Module TitleSpec.
Import PyStr.

(** The symbol sits on the first or on the last character. *)
Definition on_border (s : pystr) (c : ascii) : Prop :=
  head s = Some c ∨ last s = Some c.

(** [i] is the first position after the start that holds [c]. *)
Definition first_interior (s : pystr) (c : ascii) (i : nat) : Prop :=
  (1 ≤ i)%nat ∧ s !! i = Some c
  ∧ ∀ k : nat, (1 ≤ k < i)%nat → s !! k ≠ Some c.

(** [j] is the last position before the end that holds [c]. *)
Definition last_interior (s : pystr) (c : ascii) (j : nat) : Prop :=
  (j + 1 < length s)%nat ∧ s !! j = Some c
  ∧ ∀ k : nat, (j < k ∧ k + 1 < length s)%nat → s !! k ≠ Some c.

End TitleSpec.

Module TitleTests.
Import PyStr.

(** The cases of [tests/test_string.py] (all but the one with a
    character outside ASCII), as [(inp, expected)]. *)
Definition test_strip_title_cases : list (list ascii * list ascii) :=
  [ (str "Add New Team",
     str "Add New Team");
    (str "Filter " ++ dq ++ str "Status-Active" ++ dq,
     str "Filter " ++ dq ++ str "Status-Active" ++ dq);
    (str "'Search non-existent team'",
     str "Search non-existent team");
    (dq ++ str "Member Directory Information" ++ dq,
     str "Member Directory Information");
    (str "'Remove '<fieldName>' field from display via Fields to Display control'",
     str "Remove '<fieldName>' field from display via Fields to Display control");
    (str "'Add record via record modal with '<fieldName>' field'",
     str "Add record via record modal with '<fieldName>' field");
    (str "Add '<fieldType>' field content in cell and press 'Enter' key",
     str "Add '<fieldType>' field content in cell and press 'Enter' key");
    (str "'Edit record with '<fieldType>' field via Inline edit'",
     str "Edit record with '<fieldType>' field via Inline edit");
    (str "'Add field '<fieldType>' with default settings from '+' column button in Grid view'",
     str "Add field '<fieldType>' with default settings from '+' column button in Grid view");
    (str "'Select '<fieldType>' field to display via Fields to Display control'",
     str "Select '<fieldType>' field to display via Fields to Display control");
    (str "'<fieldType>' field convert to '<convertedFieldType>'",
     str "'<fieldType>' field convert to '<convertedFieldType>'");
    (str "'<fieldType>' field convert to '<convertedFieldType>': check empty value",
     str "'<fieldType>' field convert to '<convertedFieldType>': check empty value");
    (str "' Multiple sort: delete sort control'",
     str "Multiple sort: delete sort control");
    (str "'Exit without Saving?' confirmation popup for the " ++ dq ++ str "Text" ++ dq ++ str " field - Exit without changing'",
     str "'Exit without Saving?' confirmation popup for the " ++ dq ++ str "Text" ++ dq ++ str " field - Exit without changing");
    (str "'Exit without Saving? confirmation popup for the " ++ dq ++ str "Text" ++ dq ++ str " field - 'Exit without changing'",
     str "Exit without Saving? confirmation popup for the " ++ dq ++ str "Text" ++ dq ++ str " field - 'Exit without changing'");
    (str "'<fieldType>' field convert to '<convertedFieldType>': check existing value (+settings)'",
     str "'<fieldType>' field convert to '<convertedFieldType>': check existing value (+settings)");
    (str "'<fieldType>' field Defaults option enabled: check existing empty value in Edit record window'",
     str "'<fieldType>' field Defaults option enabled: check existing empty value in Edit record window");
    (str "'Card size:  check using 'plus' / 'minus' buttons in Card size toolbar in Kanban'",
     str "Card size: check using 'plus' / 'minus' buttons in Card size toolbar in Kanban");
    (str "Edit field '<fieldName>' name to '<editedFieldName>'",
     str "Edit field '<fieldName>' name to '<editedFieldName>'");
    (str "'Edit field '<fieldName>' name to '<editedFieldName>'",
     str "Edit field '<fieldName>' name to '<editedFieldName>'");
    (str "'Validate deletion of '<fieldType>' field when it's applied in View controls - Sort by'",
     str "Validate deletion of '<fieldType>' field when it's applied in View controls - Sort by");
    (dq ++ str "Text" ++ dq ++ str " field Require entries to be unique option enabled: add unique value in Edit record window'",
     dq ++ str "Text" ++ dq ++ str " field Require entries to be unique option enabled: add unique value in Edit record window");
    (str "'<fieldType>' field Defaults option enabled : remove with 'Delete' key existing default value in Grid and disable Field Defaults option'",
     str "'<fieldType>' field Defaults option enabled : remove with 'Delete' key existing default value in Grid and disable Field Defaults option");
    (str "'<fieldType>' field Defaults option enabled : remove with 'Delete' key existing default value in Grid and disable Field Defaults option",
     str "'<fieldType>' field Defaults option enabled : remove with 'Delete' key existing default value in Grid and disable Field Defaults option") ].

End TitleTests.

Module TreeSpec.
Import PyStr CaseTree.

(** The nodes of a tree: those of the hierarchy under its root. *)
Definition nodes (t : Tree) : list nid := PreOrderIter (hier t).

Definition key_of (t : Tree) (n : nid) : list ascii := key (store t n).

(** Each entry of the key index holds a node under that node's key. *)
Definition keys_indexed (t : Tree) : Prop :=
  Forall (fun kn => key_of t kn.2 = kn.1) (key_map t).

(** A dict has one entry per key. *)
Definition keys_unique (t : Tree) : Prop := NoDup (key_map t).*1.

(** The nodes of the key index are nodes of the tree. *)
Definition index_in_tree (t : Tree) : Prop :=
  Forall (fun kn => kn.2 ∈ nodes t) (key_map t).

(** Every node of the tree is in the key index, under its key. *)
Definition tree_indexed (t : Tree) : Prop :=
  Forall (fun n => get_node_by_key t (key_of t n) = Some n) (nodes t).

(** The objects in the key index have the attribute [pk], as every
    [RemoteCaseNode] has. *)
Definition has_pks (t : Tree) : Prop :=
  Forall (fun kn => is_Some (pk (store t kn.2))) (key_map t).

(** No object occurs twice in the tree and no two nodes share a key. *)
Definition distinct_keys (t : Tree) : Prop :=
  NoDup (key_of t <$> nodes t).

(** The key of the remote root is in the local key index (both roots
    have the key [.]). *)
Definition root_found (local remote : Tree) : Prop :=
  is_Some (get_node_by_key local (key_of remote (root remote))).

(** The two trees hold the same keys. *)
Definition same_keys (local remote : Tree) : Prop :=
  Forall (fun kn => is_Some (get_node_by_key remote kn.1)) (key_map local)
  ∧ Forall (fun n => is_Some (get_node_by_key local (key_of remote n)))
           (nodes remote).

(** The root, and no other node, has the path [.]. *)
Definition only_root_dot (t : Tree) : Prop :=
  Forall (fun n => is_dot (filepath (store t n)) = bool_decide (n = root t))
         (nodes t).

(** What the first loop of [diff_trees] leaves on the node filed under
    key [k] whose attributes were [nd]. *)
Definition matched (cfg : Config) (remote : Tree) (k : list ascii)
  (nd : Node) : Node :=
  match get_node_by_key remote k with
  | Some r =>
      let rn := store remote r in
      mkNode (entity nd) (filepath nd) (name nd)
             (if is_dot (filepath nd) then NONE else UPDATE)
             (Some (getattr_pk rn)) (custom_fields rn) (custom_field rn)
             (key nd) (data nd)
  | None =>
      mkNode (entity nd) (filepath nd) (name nd) CREATE (pk nd)
             (custom_fields nd) (QASE_CUSTOM_FIELD_DEFAULTS cfg)
             (key nd) (data nd)
  end.

(** The first loop of [diff_trees]. *)
Definition diff_first (cfg : Config) (local remote : Tree) : result Tree :=
  for_result (key_map local) (diff_match cfg remote) local.

End TreeSpec.

(** ** The scenario of the specification

    Local: suite A with case X, suite B with case Y.  Remote: suite A
    with case X, suite C with case Z, and a case W directly under the
    root suite. *)

Module Scenario.
Import PyStr CaseTree.

Definition cfg : Config := mkConfig false [(1, str "low")].

Definition from_ok (r : result Tree) (d : Tree) : Tree :=
  match r with Ok t => t | Raise _ => d end.

(** [Tree(root_node)] for a first node object with attributes [nd]. *)
Definition new_tree (nd : Node) : Tree := Tree_init (fun _ => nd) (Sh 0%nat []).

Definition remote_root : Tree :=
  new_tree (RemoteCaseNode cfg (Some 100) SUITE NONE (str "Root") None None).

Definition build_local (files : list (list ascii * list ascii))
  : result Tree :=
  r ← LocalCaseNode cfg dot [] SUITE NONE [];
  for_result files (fun t fc =>
    '(t, suite) ← add_local_suite cfg t (Some (root t)) fc.1;
    '(t, _) ← add_local_case cfg t (Some suite) fc.1 fc.2;
    Ok t) (new_tree r).

Definition local_tree : Tree :=
  from_ok (build_local [(str "A.feature", str "X");
                        (str "B.feature", str "Y")]) remote_root.

Definition remote_tree : Tree :=
  let t := remote_root in
  let t := add_remote_suite cfg t (Some 1) (str "A") (Some 100) in
  let t := add_remote_case cfg t (Some 11) (str "X") (Some 1)
                           (Some [(1, str "high")]) in
  let t := add_remote_suite cfg t (Some 2) (str "C") (Some 100) in
  let t := add_remote_case cfg t (Some 12) (str "Z") (Some 2) None in
  add_remote_case cfg t (Some 13) (str "W") (Some 100) None.

(** A local and a remote tree with the same structure and keys. *)
Definition local_same : Tree :=
  from_ok (build_local [(str "A.feature", str "X")]) remote_root.

Definition remote_same : Tree :=
  let t := remote_root in
  let t := add_remote_suite cfg t (Some 1) (str "A") (Some 100) in
  add_remote_case cfg t (Some 11) (str "X") (Some 1) None.

(** A remote tree whose only entity is a case W directly in the root
    suite, and a local tree with no feature file. *)
Definition local_empty : Tree := from_ok (build_local []) remote_root.

Definition remote_root_case : Tree :=
  add_remote_case cfg remote_root (Some 13) (str "W") (Some 100) None.

(** A service that accepts every call and numbers the entities. *)
Definition accept_all : Service :=
  fun past _ => Ok (1000 + Z.of_nat (length past)).

End Scenario.

Module HierSpec.
Import PyStr CaseTree TreeSpec.

(** The search through the children that [parent_of] makes. *)
Definition first_parent (node : nid) (l : list Shape) : option nid :=
  (fix first (l : list Shape) : option nid :=
     match l with
     | [] => None
     | k :: l' =>
         match parent_of node k with
         | Some p => Some p
         | None => first l'
         end
     end) l.

Definition is_kid (node : nid) (ks : list Shape) : bool :=
  existsb (fun k => bool_decide (shape_root k = node)) ks.

(** [m'] keeps what [m] has: its index entries, the attributes of its
    objects, its nodes and who their parent is. *)
Definition extends (m m' : Tree) : Prop :=
  (∀ k n, get_node_by_key m k = Some n → get_node_by_key m' k = Some n)
  ∧ (∀ n, n ∈ nodes m ∨ n ∈ (key_map m).*2 → store m' n = store m n)
  ∧ (∀ n, n ∈ nodes m → n ∈ nodes m')
  ∧ (∀ n, n ∈ (key_map m).*2 → n ∈ (key_map m').*2)
  ∧ (∀ y q, y ∈ nodes m → parent_of y (hier m) = Some q →
            parent_of y (hier m') = Some q).

(** In [l], an occurrence of [a] comes before an occurrence of [b]. *)
Definition before {A : Type} (l : list A) (a b : A) : Prop :=
  ∃ l1 l2 l3, l = l1 ++ a :: l2 ++ b :: l3.

End HierSpec.

Module ApplySpec.
Import PyStr CaseTree TreeSpec.

(** An exception that [perform_action] lets through: anything but a
    [BadRequestException] that says there are no changes. *)
Definition fatal (e : exn) : bool :=
  match e with
  | BadRequestException msg => negb (no_changes msg)
  | _ => true
  end.

(** The node an event is about. *)
Definition event_node (e : Event) : nid :=
  match e with
  | Printed n => n
  | Called n _ _ => n
  end.

(** The parent identifier a create or update call carries. *)
Definition call_parent (c : Call) : option (option Z) :=
  match c with
  | SuitesCreate _ p | SuitesUpdate _ _ p => Some p
  | CasesCreate _ p _ _ | CasesUpdate _ _ p _ _ => Some p
  | SuitesDelete _ | CasesDelete _ => None
  end.

(** A shape and all the shapes under it. *)
Fixpoint subshapes (s : Shape) : list Shape :=
  match s with
  | Sh n ks => Sh n ks :: flat_map subshapes ks
  end.

(** The body of the first loop of [push]. *)
Definition push_top_down (svc : Service) (root_suite_id : option Z)
  (dry_run : bool) (node : nid) : M unit :=
  t ←M get_tree;
  match action (store t node) with
  | NONE => retM ()
  | CREATE | UPDATE => perform_action svc root_suite_id dry_run node
  | DELETE => retM ()
  end.

(** The body of its second loop. *)
Definition push_bottom_up (svc : Service) (root_suite_id : option Z)
  (dry_run : bool) (node : nid) : M unit :=
  t ←M get_tree;
  match action (store t node) with
  | DELETE => perform_action svc root_suite_id dry_run node
  | _ => retM ()
  end.

(** A service that finds nothing to change in suite 1 and accepts
    everything else. *)
Definition no_change_for_suite_1 : Service :=
  fun past c =>
    match c with
    | SuitesUpdate (Some 1) _ _ =>
        Raise (BadRequestException "There are no changes")
    | _ => Ok (1000 + Z.of_nat (length past))
    end.

(** A service that is down from the second call on. *)
Definition down_after_one : Service :=
  fun past c =>
    match past with
    | [] => Ok 1000
    | _ => Raise (ServiceError "503")
    end.

(** What handling one node does: it leaves the action of every node
    and the attributes of every other node as they are, and the
    hierarchy too unless the node is deleted; and it makes no call,
    prints one line, or makes one call.  [out] says what becomes of an
    exception of the service. *)
Definition acted (svc : Service) (out : exn → result unit) (node : nid)
  (w w1 : World) (r : result unit) : Prop :=
  (∀ y, action (store (w_tree w1) y) = action (store (w_tree w) y))
  ∧ (∀ y, y ≠ node → store (w_tree w1) y = store (w_tree w) y)
  ∧ (action (store (w_tree w) node) ≠ DELETE →
     hier (w_tree w1) = hier (w_tree w))
  ∧ ((w_log w1 = w_log w ∧ (r = Ok () ∨ r = Raise AttributeError))
     ∨ (w_log w1 = w_log w ++ [Printed node] ∧ r = Ok ()
        ∧ w_tree w1 = w_tree w)
     ∨ ∃ c, let ans := svc (calls_of (w_log w)) c in
         w_log w1 = w_log w ++ [Called node c ans]
         ∧ (∀ e, ans = Raise e → w_tree w1 = w_tree w ∧ r = out e)
         ∧ (∀ i, ans = Ok i →
                 r = Ok () ∨ r = Raise KeyError ∨ r = Raise AttributeError)
         ∧ (action (store (w_tree w) node) ≠ DELETE →
            (∃ pp, parent_pk (w_tree w) node = Ok pp
                   ∧ call_parent c = Some pp)
            ∧ ∀ i, ans = Ok i →
                   pk (store (w_tree w1) node) = Some (Some i)
                   ∧ r = Ok ())).

(** What [perform_action] makes of an exception. *)
Definition surfaced (e : exn) : result unit :=
  if fatal e then Raise e else Ok ().

(** How a run from [w] to [w'] with result [r] deals with failed calls:
    the log only grows; a call that fails with a fatal exception is the
    last event and its exception is the result; and an exception that
    comes out is [AttributeError] or [KeyError] of the tool itself, or
    the fatal exception of the last call. *)
Definition halts_at_failure (w w' : World) (r : result unit) : Prop :=
  ∃ evs, w_log w' = w_log w ++ evs
    ∧ (∀ i n c e, evs !! i = Some (Called n c (Raise e)) →
                  fatal e = true → r = Raise e ∧ length evs = S i)
    ∧ (∀ e, r = Raise e →
            e = AttributeError ∨ e = KeyError
            ∨ (fatal e = true
               ∧ ∃ n c, last evs = Some (Called n c (Raise e)))).

(** The merged tree of the scenario, with nothing logged yet. *)
Definition merged_world : World :=
  mkWorld (Scenario.from_ok
             (diff_trees Scenario.cfg Scenario.local_tree
                         Scenario.remote_tree)
             Scenario.local_tree) [].

End ApplySpec.

(** ** Vocabulary for the facts on keys *)

Module KeySpec.

(** The character that separates a file name from its extension. *)
Definition dot_char : ascii := "."%char.

End KeySpec.

(** ** Vocabulary for dry runs and for deleting a whole tree *)

Module PlanSpec.
Import PyStr CaseTree.

(** The node is marked for a create or an update. *)
Definition writes (t : Tree) (node : nid) : bool :=
  match action (store t node) with
  | CREATE | UPDATE => true
  | NONE | DELETE => false
  end.

(** The node is marked for a delete. *)
Definition deletes (t : Tree) (node : nid) : bool :=
  match action (store t node) with
  | DELETE => true
  | _ => false
  end.

(** The nodes from the deepest level up to the root. *)
Definition bottom_up (t : Tree) : list nid :=
  concat (rev (group_nodes_by_level (hier t))).

(** The nodes a run of [push] handles, in its order. *)
Definition push_plan (t : Tree) : list nid :=
  List.filter (writes t) (PreOrderIter (hier t))
  ++ List.filter (deletes t) (bottom_up t).

(** The body of the loop of [delete_tree_remotely]. *)
Definition delete_step (svc : Service) (node : nid) : M unit :=
  t ←M get_tree;
  i ←M liftM (get_pk (store t node));
  root_pk ←M liftM (get_pk (store t (root t)));
  if bool_decide (i = root_pk) then retM ()
  else match entity (store t node) with
       | CASE => _ ←M call svc node (CasesDelete i); retM ()
       | SUITE => _ ←M call svc node (SuitesDelete i); retM ()
       | REPOSITORY => retM ()
       end.

(** The nodes [delete_tree_remotely] passes over: those with the
    identifier of the root, and a repository node. *)
Definition spared (t : Tree) (node : nid) : bool :=
  bool_decide (pk (store t node) = pk (store t (root t)))
  || bool_decide (entity (store t node) = REPOSITORY).

(** The delete call for an entity with identifier [i]. *)
Definition delete_of (e : Entity) (i : option Z) : Call :=
  match e with
  | CASE => CasesDelete i
  | _ => SuitesDelete i
  end.

(** A run over the nodes [l] that only deletes: the tree is as before;
    every event is the delete call of a node that is not spared, with
    the node's identifier; a run that ends well has made the calls of
    all such nodes of [l], in the order of [l]; a call that fails is
    the last event and its exception is the result; and an exception
    that comes out is that of the last call, or [AttributeError] for a
    node without identifier. *)
Definition deletes_in_order (l : list nid) (w w' : World)
  (r : result unit) : Prop :=
  let t := w_tree w in
  w_tree w' = t
  ∧ ∃ evs, w_log w' = w_log w ++ evs
    ∧ (∀ ev, ev ∈ evs →
         ∃ n i a, ev = Called n (delete_of (entity (store t n)) i) a
                  ∧ pk (store t n) = Some i ∧ spared t n = false)
    ∧ (r = Ok () →
       ApplySpec.event_node <$> evs
       = List.filter (fun n => negb (spared t n)) l)
    ∧ (∀ j n c e, evs !! j = Some (Called n c (Raise e)) →
                  r = Raise e ∧ length evs = S j)
    ∧ (∀ e, r = Raise e →
            e = AttributeError
            ∨ ∃ n c, last evs = Some (Called n c (Raise e))).

End PlanSpec.

(** * Properties *)

(** ** The repository's own tests of [strip_title] *)

Module TitleTestsRun.
Import PyStr TitleString TitleTests.

Example test_strip_title :
  Forall (fun io => strip_title io.1 CaseTree.quote_symbols = Ok io.2)
         test_strip_title_cases.
Proof. repeat constructor. Qed.

End TitleTestsRun.
(** ** Title normalisation *)

Module TitleFacts.
Import PyStr TitleString TitleSpec.

Lemma strip_symbols_app (s : pystr) (a b : list ascii) :
  strip_symbols s (a ++ b) = s' ← strip_symbols s a; strip_symbols s' b.
Proof.
  revert s. induction a as [|c a IH]; intros s; simpl; [done|].
  destruct (_strip_title s c) as [s1|e]; simpl; [apply IH | done].
Qed.

(** C10: once the working string is empty, the next symbol pass reads
    the character at position 0 of an empty string, and [strip_title]
    raises [IndexError] instead of returning the empty string.  With no
    pass done so far this is [strip_title] of the empty string itself. *)
Theorem strip_title_empty_raises (string : pystr) (done_ : list ascii)
  (symbol : ascii) (rest : list ascii)
  (Hempty : strip_symbols string done_ = Ok []) :
  strip_title string (done_ ++ symbol :: rest) = Raise IndexError.
Proof.
  unfold strip_title. rewrite strip_symbols_app, Hempty. reflexivity.
Qed.

Lemma strip_title_empty_raises_witness :
  strip_symbols (str "'") (str "'") = Ok []
  ∧ strip_title (str "'") (str "'" ++ dquote :: []) = Raise IndexError
  ∧ strip_title [] ([] ++ "'"%char :: dq) = Raise IndexError.
Proof.
  split; [reflexivity|]. split.
  - apply (strip_title_empty_raises (str "'") (str "'")). reflexivity.
  - apply (strip_title_empty_raises [] []). reflexivity.
Defined.

End TitleFacts.
Module TitleThree.
Import PyStr TitleString TitleSpec.

Lemma is_prefix_single (c : ascii) (s : pystr) :
  is_prefix [c] s = bool_decide (head s = Some c).
Proof.
  destruct s as [|b s]; simpl; [done|].
  unfold ascii_eqb. rewrite andb_true_r.
  destruct (Ascii.eqb_spec c b) as [->|Hne].
  - by rewrite bool_decide_eq_true_2.
  - rewrite bool_decide_eq_false_2; [done|]. intros [= ->]. done.
Qed.

Lemma find_aux_single (c : ascii) (s : pystr) (i0 : Z) (k : nat) :
  s !! k = Some c →
  (∀ m : nat, (m < k)%nat → s !! m ≠ Some c) →
  find_aux [c] s i0 = i0 + Z.of_nat k.
Proof.
  revert i0 k. induction s as [|b s IH]; intros i0 k Hk Hmin; [done|].
  cbn [find_aux]. rewrite is_prefix_single. simpl head.
  destruct k as [|k].
  - simpl in Hk. rewrite bool_decide_eq_true_2 by done. lia.
  - rewrite bool_decide_eq_false_2.
    + rewrite (IH (i0 + 1) k); [lia|done|].
      intros m Hm. apply (Hmin (S m)). lia.
    + intros Hb. apply (Hmin 0%nat); [lia|done].
Qed.

Lemma rfind_aux_none (c : ascii) (s : pystr) (i0 : Z) :
  (∀ m : nat, s !! m ≠ Some c) → rfind_aux [c] s i0 = -1.
Proof.
  revert i0. induction s as [|b s IH]; intros i0 Hno; [done|].
  cbn [rfind_aux]. rewrite IH.
  - simpl (_ =? _). cbn match. rewrite is_prefix_single. simpl head.
    rewrite bool_decide_eq_false_2; [done|]. apply (Hno 0%nat).
  - intros m. apply (Hno (S m)).
Qed.

Lemma rfind_aux_single (c : ascii) (s : pystr) (i0 : Z) (j : nat) :
  0 ≤ i0 →
  s !! j = Some c →
  (∀ m : nat, (j < m)%nat → s !! m ≠ Some c) →
  rfind_aux [c] s i0 = i0 + Z.of_nat j.
Proof.
  revert i0 j. induction s as [|b s IH]; intros i0 j Hi Hj Hmax; [done|].
  cbn [rfind_aux]. destruct j as [|j].
  - rewrite rfind_aux_none.
    + simpl (_ =? _). cbn match. rewrite is_prefix_single. simpl head.
      simpl in Hj. rewrite bool_decide_eq_true_2 by done. lia.
    + intros m. apply (Hmax (S m)). lia.
  - rewrite (IH (i0 + 1) j); [|lia|done|].
    + destruct (Z.eqb_spec (i0 + 1 + Z.of_nat j) (-1)); lia.
    + intros m Hm. apply (Hmax (S m)). lia.
Qed.

Lemma count_nonneg (s : pystr) (c : ascii) : 0 ≤ count s c.
Proof. induction s as [|b s IH]; simpl; [lia|]. destruct (ascii_eqb b c); lia. Qed.

Lemma count_le_length (s : pystr) (c : ascii) : count s c ≤ len s.
Proof.
  unfold len. induction s as [|b s IH]; simpl length; simpl count; [lia|].
  destruct (ascii_eqb b c); lia.
Qed.

Lemma slice_from_1 (s : pystr) : slice_from s 1 = tail s.
Proof.
  destruct s as [|b s]; [done|].
  unfold slice_from.
  assert (Z.to_nat (clamp (len (b :: s)) 1) = 1%nat) as ->; [|done].
  unfold clamp, len. simpl length.
  destruct (Z.ltb_spec 1 0); lia.
Qed.

Lemma slice_to_last (s : pystr) : slice_to s (len s - 1) = removelast s.
Proof.
  rewrite removelast_firstn_len.
  destruct s as [|b s]; [done|].
  unfold slice_to, slice.
  assert (Z.to_nat (clamp (len (b :: s)) 0) = 0%nat) as Hlo.
  { unfold clamp, len. simpl length. destruct (Z.ltb_spec 0 0); lia. }
  assert (clamp (len (b :: s)) (len (b :: s) - 1) = len (b :: s) - 1) as ->.
  { unfold clamp, len. simpl length.
    destruct (Z.ltb_spec (Z.of_nat (S (length s)) - 1) 0); lia. }
  rewrite Hlo. simpl skipn. f_equal.
  unfold clamp, len in *. simpl length in *.
  destruct (Z.ltb_spec 0 0); lia.
Qed.

Lemma index_head (s : pystr) (c : ascii) :
  head s = Some c → index s 0 = Ok c.
Proof. destruct s; [done|]. intros [= ->]. done. Qed.

Lemma index_last (s : pystr) (c : ascii) :
  last s = Some c → index s (len s - 1) = Ok c.
Proof.
  intros Hl. unfold index, len.
  assert (length s ≠ 0%nat) as Hne by (destruct s; done).
  destruct (Z.ltb_spec (Z.of_nat (length s) - 1) 0); [lia|].
  destruct (Z.leb_spec 0 (Z.of_nat (length s) - 1)); [|lia].
  destruct (Z.ltb_spec (Z.of_nat (length s) - 1) (Z.of_nat (length s)));
    [|lia].
  rewrite last_lookup in Hl.
  replace (Z.to_nat (Z.of_nat (length s) - 1)) with (pred (length s))
    by lia.
  cbn [andb]. by rewrite Hl.
Qed.

Lemma border_passes (string : pystr) (symbol : ascii) :
  on_border string symbol →
  ∃ s0, index string 0 = Ok s0
        ∧ (if ascii_eqb s0 symbol then Ok true
           else (e ← index string (len string - 1);
                 Ok (ascii_eqb e symbol))) = Ok true.
Proof.
  intros Hb.
  destruct string as [|b s]; [by destruct Hb|].
  exists b. split; [done|].
  unfold ascii_eqb at 1. destruct (Ascii.eqb_spec b symbol); [done|].
  destruct Hb as [[= ?]|Hl]; [done|].
  rewrite (index_last _ _ Hl). simpl.
  unfold ascii_eqb. by rewrite Ascii.eqb_refl.
Qed.

Lemma find_first_interior (s : pystr) (c : ascii) (i : nat) :
  first_interior s c i → find_from s [c] 1 = Z.of_nat i.
Proof.
  intros (Hi & Hc & Hmin).
  destruct s as [|b s]; [done|].
  unfold find_from.
  assert (clamp (len (b :: s)) 1 = 1) as ->.
  { unfold clamp, len. simpl length. destruct (Z.ltb_spec 1 0); lia. }
  destruct i as [|i]; [lia|].
  change (skipn (Z.to_nat 1) (b :: s)) with s.
  rewrite (find_aux_single c s 1 i); [lia|done|].
  intros m Hm. apply (Hmin (S m)). lia.
Qed.

Lemma rfind_last_interior (s : pystr) (c : ascii) (j : nat) :
  last_interior s c j → rfind_in s [c] 0 (len s - 1) = Z.of_nat j.
Proof.
  intros (Hj & Hc & Hmax).
  unfold rfind_in. fold (slice_to s (len s - 1)). rewrite slice_to_last.
  assert (clamp (len s) 0 = 0) as ->.
  { unfold clamp, len. destruct (Z.ltb_spec 0 0); lia. }
  rewrite removelast_firstn_len.
  rewrite (rfind_aux_single c _ 0 j); [lia|lia| |].
  - change firstn with (@take ascii). rewrite lookup_take_lt by lia. done.
  - intros m Hm. change firstn with (@take ascii).
    destruct (decide (m < pred (length s))%nat).
    + rewrite lookup_take_lt by lia. apply Hmax. lia.
    + rewrite lookup_take_ge by lia. done.
Qed.

(** C7: when the string carries the symbol on a border and, after
    variable handling, holds it exactly three times, [_strip_title]
    compares the distance [i] from the start to the first interior
    occurrence with the distance from the last interior occurrence [j] to
    the end; it drops the first character when the left distance is the
    larger one and the last character otherwise, so the pair of symbols
    that are close together stays.  The result is then stripped of
    spaces. *)
Theorem strip_title_three_occurrences (string s' : pystr) (symbol : ascii)
  (i j : nat)
  (Hborder : on_border string symbol)
  (Hvars : _handle_variables string symbol (is_balanced string symbol)
           = Ok s')
  (Hthree : count s' symbol = 3)
  (Hfirst : first_interior s' symbol i)
  (Hlast : last_interior s' symbol j) :
  _strip_title string symbol =
    Ok (strip (if decide (length s' - 1 - j < i)%nat
               then tail s' else removelast s')).
Proof.
  destruct (border_passes _ _ Hborder) as (s0 & Hs0 & Hb).
  unfold _strip_title. rewrite Hs0. cbn [mbind result_bind].
  rewrite Hb. cbn [mbind result_bind negb].
  rewrite Hvars. cbn [mbind result_bind].
  unfold is_balanced. rewrite Hthree.
  change (negb (3 `mod` 2 =? 0) && (3 =? 1)) with false.
  change (negb (3 `mod` 2 =? 0) && (3 =? 3)) with true.
  cbv iota.
  change (0 + 1) with 1.
  rewrite (find_first_interior _ _ _ Hfirst).
  rewrite (rfind_last_interior _ _ _ Hlast).
  rewrite slice_from_1, slice_to_last.
  destruct Hlast as (Hj & _).
  unfold len.
  destruct (decide (length s' - 1 - j < i)%nat) as [Hgt|Hle].
  - destruct (Z.gtb_spec (Z.of_nat i - 0)
                (Z.of_nat (length s') - 1 - Z.of_nat j)); [done|lia].
  - destruct (Z.gtb_spec (Z.of_nat i - 0)
                (Z.of_nat (length s') - 1 - Z.of_nat j)); [lia|done].
Qed.

Lemma strip_title_three_occurrences_witness :
  _strip_title (str "'ab' cdefg'") "'"%char = Ok (str "'ab' cdefg")
  ∧ _strip_title (str "'abcde 'fg'") "'"%char = Ok (str "abcde 'fg'").
Proof.
  split.
  - apply (strip_title_three_occurrences (str "'ab' cdefg'") (str "'ab' cdefg'")
             "'"%char 3 3).
    + by left.
    + reflexivity.
    + reflexivity.
    + split; [lia|]. split; [reflexivity|].
      intros k Hk. assert (k = 1 ∨ k = 2)%nat as [-> | ->] by lia; done.
    + split; [simpl; lia|]. split; [reflexivity|].
      intros k [Hk1 Hk2]. simpl in Hk2.
      do 10 (destruct k as [|k]; [first [lia|done]|]). lia.
  - apply (strip_title_three_occurrences (str "'abcde 'fg'") (str "'abcde 'fg'")
             "'"%char 7 7).
    + by left.
    + reflexivity.
    + reflexivity.
    + split; [lia|]. split; [reflexivity|].
      intros k Hk.
      do 7 (destruct k as [|k]; [first [lia|done]|]). lia.
    + split; [simpl; lia|]. split; [reflexivity|].
      intros k [Hk1 Hk2]. simpl in Hk2.
      do 10 (destruct k as [|k]; [first [lia|done]|]). lia.
Defined.

End TitleThree.

(** ** Dictionaries *)

Section DictFacts.
Context {K V : Type} `{EqDecision K}.
Implicit Types (d : list (K * V)) (k : K) (v : V).

Lemma dict_get_set_eq d k v : dict_get (dict_set d k v) k = Some v.
Proof.
  induction d as [|[k' v'] d IH]; simpl.
  - by rewrite decide_True.
  - destruct (decide (k' = k)) as [->|Hne]; simpl.
    + by rewrite decide_True.
    + by rewrite decide_False.
Qed.

Lemma dict_get_set_ne d k k' v :
  k ≠ k' → dict_get (dict_set d k v) k' = dict_get d k'.
Proof.
  intros Hne. induction d as [|[k0 v0] d IH]; simpl.
  - by rewrite decide_False.
  - destruct (decide (k0 = k)) as [->|Hne0]; simpl.
    + by rewrite !decide_False.
    + destruct (decide (k0 = k')); [done|apply IH].
Qed.

Lemma dict_set_fresh d k v :
  dict_get d k = None → dict_set d k v = d ++ [(k, v)].
Proof.
  induction d as [|[k0 v0] d IH]; simpl; [done|].
  destruct (decide (k0 = k)); [done|]. intros Hd. by rewrite IH.
Qed.

Lemma dict_get_Some_elem d k v : dict_get d k = Some v → (k, v) ∈ d.
Proof.
  induction d as [|[k0 v0] d IH]; simpl; [done|].
  destruct (decide (k0 = k)) as [->|].
  - intros [= ->]. left.
  - intros Hd. right. by apply IH.
Qed.

Lemma dict_get_None_notin d k : dict_get d k = None ↔ k ∉ d.*1.
Proof.
  induction d as [|[k0 v0] d IH]; simpl.
  - split; [intros _; apply not_elem_of_nil|done].
  - destruct (decide (k0 = k)) as [->|Hne].
    + split; [done|]. intros Hn. exfalso. apply Hn. left.
    + rewrite IH. rewrite not_elem_of_cons. simpl. split; [by intros ?|by intros [_ ?]].
Qed.

Lemma dict_get_elem d k v :
  NoDup d.*1 → (k, v) ∈ d → dict_get d k = Some v.
Proof.
  induction d as [|[k0 v0] d IH]; simpl; intros Hnd Hin.
  - by apply elem_of_nil in Hin.
  - apply NoDup_cons in Hnd as [Hk0 Hnd].
    apply elem_of_cons in Hin as [[= <- <-]|Hin].
    + by rewrite decide_True.
    + rewrite decide_False; [by apply IH|].
      intros ->. apply Hk0. apply list_elem_of_fmap. by exists (k, v).
Qed.

End DictFacts.

(** ** The tree container *)

Module ContainerFacts.
Import PyStr CaseTree.

(** C8: [add_node] puts the node into the key index under its key
    whatever the node is, and into the identifier index exactly when its
    identifier is known, that is when the object has a [pk] that is
    neither [None] nor [0]: then [id_map] maps that [pk] to the node, and
    otherwise [id_map] is left as it was.  No entry under another key or
    identifier changes, and when the key is new (the caller's duty) the
    entry is added at the end of the key index. *)
Theorem add_node_indexes (t : Tree) (node : nid) :
  let nd := store t node in
  let t' := add_node t node in
  get_node_by_key t' (key nd) = Some node
  ∧ (∀ k, k ≠ key nd → get_node_by_key t' k = get_node_by_key t k)
  ∧ (get_node_by_key t (key nd) = None →
     key_map t' = key_map t ++ [(key nd, node)])
  ∧ (truthy (getattr_pk nd) = true →
     get_node_by_suite_id t' (getattr_pk nd) = Some node
     ∧ ∀ i, i ≠ getattr_pk nd →
            get_node_by_suite_id t' i = get_node_by_suite_id t i)
  ∧ (truthy (getattr_pk nd) = false → id_map t' = id_map t)
  ∧ hier t' = hier t ∧ store t' = store t.
Proof.
  intros nd t'. unfold t', add_node, get_node_by_key, get_node_by_suite_id.
  fold nd. simpl.
  split; [apply dict_get_set_eq|].
  split; [intros k Hk; by apply dict_get_set_ne|].
  split; [apply dict_set_fresh|].
  destruct (truthy (getattr_pk nd)).
  - split; [|done]. intros _.
    split; [apply dict_get_set_eq|intros i Hi; by apply dict_get_set_ne].
  - split; [done|]. split; [done|]. done.
Qed.

End ContainerFacts.

(** ** Node construction *)

Module NodeFacts.
Import PyStr CaseTree.

Lemma LocalCaseNode_empty_name (cfg : Config) (fp : list ascii)
  (a : Action) (dat : list (list ascii * list ascii)) :
  fp ≠ dot →
  LocalCaseNode cfg fp [] CASE a dat
  = Raise (ValueError "Cannot create Test Case node without name").
Proof.
  intros Hfp. unfold LocalCaseNode, is_dot.
  by rewrite bool_decide_eq_false_2.
Qed.

Lemma LocalCaseNode_name_unstripped (cfg : Config) (fp nm : list ascii)
  (a : Action) (dat : list (list ascii * list ascii)) (nd : Node) :
  STRIP_TITLES cfg = false →
  LocalCaseNode cfg fp nm CASE a dat = Ok nd →
  entity nd = CASE → name nd ≠ [].
Proof.
  intros Hs. unfold LocalCaseNode. rewrite Hs.
  destruct (is_dot fp); simpl.
  - intros [= <-]. done.
  - destruct nm; simpl; [done|]. intros [= <-]. done.
Qed.

(** C9 at the input [LocalCaseNode(filepath='a.feature', name='""',
    entity=Entity.CASE)] with [config.STRIP_TITLES] on: the name passes
    the emptiness test, is then stripped of its two quotes, and the
    constructor returns a case node whose name is empty. *)
Theorem LocalCaseNode_name_emptied_by_strip :
  ∃ nd, LocalCaseNode (mkConfig true []) (str "a.feature") (dq ++ dq)
                      CASE NONE [] = Ok nd
        ∧ entity nd = CASE ∧ name nd = [] ∧ key nd = str "a::".
Proof. eexists. split; [reflexivity|]. done. Qed.

End NodeFacts.
(** ** The merged-tree diff *)

Module DiffFacts.
Import PyStr CaseTree TreeSpec HierSpec.

Lemma for_result_app {A St : Type} (l1 l2 : list A)
  (body : St → A → result St) (s : St) :
  for_result (l1 ++ l2) body s
  = s' ← for_result l1 body s; for_result l2 body s'.
Proof.
  revert s. induction l1 as [|a l1 IH]; intros s; simpl; [done|].
  destruct (body s a); simpl; [apply IH|done].
Qed.

Lemma store_upd_eq (t : Tree) (n : nid) (f : Node → Node) :
  store (upd_node t n f) n = f (store t n).
Proof. unfold upd_node, upd. simpl. by rewrite decide_True. Qed.

Lemma store_upd_ne (t : Tree) (n x : nid) (f : Node → Node) :
  x ≠ n → store (upd_node t n f) x = store t x.
Proof. intros Hne. unfold upd_node, upd. simpl. by rewrite decide_False. Qed.

(** *** The first loop *)

Lemma diff_match_spec (cfg : Config) (remote m : Tree) (k : list ascii)
  (n : nid) :
  (∀ r, get_node_by_key remote k = Some r → is_Some (pk (store remote r))) →
  ∃ m', diff_match cfg remote m (k, n) = Ok m'
        ∧ hier m' = hier m ∧ key_map m' = key_map m
        ∧ id_map m' = id_map m
        ∧ store m' n = matched cfg remote k (store m n)
        ∧ ∀ x, x ≠ n → store m' x = store m x.
Proof.
  intros Hpk. unfold diff_match, matched, get_node_by_key in *.
  destruct (dict_get (key_map remote) k) as [r|].
  - destruct (Hpk r eq_refl) as [i Hi].
    unfold get_pk, getattr_pk. rewrite Hi. cbn [mbind result_bind].
    rewrite !store_upd_eq. cbn [filepath set_pk set_custom_fields set_custom_field].
    destruct (is_dot (filepath (store m n))); eexists;
      (split; [reflexivity|]); repeat split;
      try (rewrite !store_upd_eq; done);
      intros x Hx; by rewrite !store_upd_ne.
  - eexists. split; [reflexivity|]. repeat split.
    + by rewrite !store_upd_eq.
    + intros x Hx. by rewrite !store_upd_ne.
Qed.

Lemma matched_loop (cfg : Config) (remote : Tree)
  (l : list (list ascii * nid)) (m : Tree) :
  NoDup l.*2 →
  (∀ k r, get_node_by_key remote k = Some r → is_Some (pk (store remote r))) →
  ∃ m', for_result l (diff_match cfg remote) m = Ok m'
        ∧ hier m' = hier m ∧ key_map m' = key_map m
        ∧ id_map m' = id_map m
        ∧ (∀ k n, (k, n) ∈ l → store m' n = matched cfg remote k (store m n))
        ∧ ∀ x, x ∉ l.*2 → store m' x = store m x.
Proof.
  intros Hnd Hpk. revert m Hnd.
  induction l as [|[k n] l IH]; intros m Hnd.
  - exists m. do 4 (split; [done|]). split; [|done].
    intros k n Hin. by apply elem_of_nil in Hin.
  - rewrite fmap_cons in Hnd. apply NoDup_cons in Hnd as [Hn Hnd].
    destruct (diff_match_spec cfg remote m k n (Hpk k))
      as (m1 & Hm1 & Hh & Hk & Hi & Hs & Ho).
    destruct (IH m1 Hnd) as (m' & Hm' & Hh' & Hk' & Hi' & Hs' & Ho').
    exists m'. cbn [for_result]. rewrite Hm1. cbn [mbind result_bind].
    split; [done|]. split; [congruence|]. split; [congruence|].
    split; [congruence|]. split.
    + intros k0 n0 Hin. apply elem_of_cons in Hin as [[= -> ->]|Hin].
      * rewrite Ho' by done. done.
      * rewrite (Hs' _ _ Hin). rewrite Ho; [done|].
        intros ->. apply Hn. apply list_elem_of_fmap. by exists (k0, n).
    + intros x Hx. rewrite fmap_cons in Hx. apply not_elem_of_cons in Hx as [Hx1 Hx2].
      rewrite Ho' by done. by apply Ho.
Qed.

Lemma indexed_nodup (t : Tree) :
  keys_indexed t → keys_unique t → NoDup (key_map t).*2.
Proof.
  unfold keys_indexed, keys_unique. intros Hidx.
  induction (key_map t) as [|[k n] l IH]; [constructor|].
  apply Forall_cons in Hidx as [Hk Hidx]. simpl in Hk.
  rewrite !fmap_cons. intros Hnd. apply NoDup_cons in Hnd as [Hnk Hnd].
  apply NoDup_cons. split; [|by apply IH].
  simpl. intros Hin. apply list_elem_of_fmap in Hin as ([k' n'] & Heq & Hin).
  simpl in Heq. subst n'. apply Hnk. simpl.
  apply list_elem_of_fmap. exists (k', n). split; [|done].
  simpl. rewrite Forall_forall in Hidx. specialize (Hidx _ Hin). simpl in Hidx.
  congruence.
Qed.

Lemma has_pks_lookup (t : Tree) (k : list ascii) (r : nid) :
  has_pks t → get_node_by_key t k = Some r → is_Some (pk (store t r)).
Proof.
  unfold has_pks, get_node_by_key. intros Hp Hk.
  apply dict_get_Some_elem in Hk. rewrite Forall_forall in Hp.
  apply (Hp _ Hk).
Qed.

Lemma diff_first_spec (cfg : Config) (local remote : Tree) :
  keys_indexed local → keys_unique local → has_pks remote →
  ∃ m1, diff_first cfg local remote = Ok m1
        ∧ hier m1 = hier local ∧ key_map m1 = key_map local
        ∧ id_map m1 = id_map local
        ∧ (∀ k n, get_node_by_key local k = Some n →
                  store m1 n = matched cfg remote k (store local n))
        ∧ ∀ x, x ∉ (key_map local).*2 → store m1 x = store local x.
Proof.
  intros Hidx Huniq Hpk.
  destruct (matched_loop cfg remote (key_map local) local
              (indexed_nodup _ Hidx Huniq)
              (fun k r => has_pks_lookup remote k r Hpk))
    as (m1 & Hm1 & Hh & Hk & Hi & Hs & Ho).
  exists m1. repeat split; try done.
  intros k n Hkn. apply Hs. by apply dict_get_Some_elem.
Qed.

(** *** The hierarchy *)

Lemma Shape_ind' (P : Shape → Prop) :
  (∀ n ks, Forall P ks → P (Sh n ks)) → ∀ s, P s.
Proof.
  intros H. fix IH 1. intros [n ks]. apply H.
  induction ks as [|k ks IHks]; constructor; [apply IH|apply IHks].
Qed.

Lemma root_in_preorder (s : Shape) : shape_root s ∈ PreOrderIter s.
Proof. destruct s. simpl. left. Qed.

Lemma elem_of_flat_map {A B : Type} (f : A → list B) (l : list A) (b : B) :
  b ∈ flat_map f l ↔ ∃ a, a ∈ l ∧ b ∈ f a.
Proof.
  rewrite list_elem_of_In, in_flat_map.
  split; intros (a & Ha & Hb); exists a; by rewrite ?list_elem_of_In in *.
Qed.

Lemma attach_root (p : nid) (c s : Shape) :
  shape_root (attach p c s) = shape_root s.
Proof. destruct s as [n ks]. simpl. by destruct (decide (n = p)). Qed.

Lemma attach_keeps (p : nid) (c : Shape) (s : Shape) (n : nid) :
  n ∈ PreOrderIter s → n ∈ PreOrderIter (attach p c s).
Proof.
  revert n. induction s as [m ks IH] using Shape_ind'. intros n Hn.
  simpl in *. destruct (decide (m = p)) as [->|Hne]; simpl.
  - apply elem_of_cons in Hn as [->|Hn]; [left|right].
    rewrite flat_map_app. apply elem_of_app. by left.
  - apply elem_of_cons in Hn as [->|Hn]; [left|right].
    apply elem_of_flat_map in Hn as (k & Hk & Hn).
    apply elem_of_flat_map. exists (attach p c k). split.
    + apply list_elem_of_fmap. by exists k.
    + rewrite Forall_forall in IH. by apply IH.
Qed.

Lemma attach_adds (p : nid) (c : Shape) (s : Shape) :
  p ∈ PreOrderIter s → shape_root c ∈ PreOrderIter (attach p c s).
Proof.
  induction s as [m ks IH] using Shape_ind'. intros Hp.
  simpl in *. destruct (decide (m = p)) as [->|Hne]; simpl.
  - right. rewrite flat_map_app. apply elem_of_app. right.
    simpl. rewrite app_nil_r. apply root_in_preorder.
  - apply elem_of_cons in Hp as [->|Hp]; [done|]. right.
    apply elem_of_flat_map in Hp as (k & Hk & Hp).
    apply elem_of_flat_map. exists (attach p c k). split.
    + apply list_elem_of_fmap. by exists k.
    + rewrite Forall_forall in IH. by apply IH.
Qed.

Lemma parent_of_eq (node n : nid) (ks : list Shape) :
  parent_of node (Sh n ks)
  = if is_kid node ks then Some n else first_parent node ks.
Proof. reflexivity. Qed.

Lemma first_parent_cons (node : nid) (k : Shape) (l : list Shape) :
  first_parent node (k :: l)
  = match parent_of node k with
    | Some p => Some p
    | None => first_parent node l
    end.
Proof. reflexivity. Qed.

Lemma is_kid_true (node : nid) (ks : list Shape) :
  is_kid node ks = true ↔ node ∈ shape_root <$> ks.
Proof.
  unfold is_kid. rewrite existsb_exists. rewrite list_elem_of_fmap.
  split.
  - intros (k & Hk & Hr). exists k. apply bool_decide_eq_true in Hr.
    split; [done|]. by apply list_elem_of_In.
  - intros (k & Hr & Hk). exists k. split; [by apply list_elem_of_In|].
    by apply bool_decide_eq_true.
Qed.

Lemma kid_root_in (ks : list Shape) (n : nid) :
  n ∈ shape_root <$> ks → n ∈ flat_map PreOrderIter ks.
Proof.
  intros Hn. apply list_elem_of_fmap in Hn as (k & -> & Hk).
  apply elem_of_flat_map. exists k. split; [done|apply root_in_preorder].
Qed.

Lemma first_parent_Some (node : nid) (ks : list Shape) (q : nid) :
  first_parent node ks = Some q →
  ∃ k, k ∈ ks ∧ parent_of node k = Some q.
Proof.
  induction ks as [|k ks IH]; [done|].
  rewrite first_parent_cons.
  destruct (parent_of node k) as [p|] eqn:Hp.
  - intros [= ->]. exists k. split; [left|done].
  - intros Hq. destruct (IH Hq) as (k' & Hk' & Hq').
    exists k'. split; [by right|done].
Qed.

Lemma parent_of_in (s : Shape) (node q : nid) :
  parent_of node s = Some q →
  q ∈ PreOrderIter s ∧ node ∈ PreOrderIter s.
Proof.
  revert node q. induction s as [n ks IH] using Shape_ind'.
  intros node q. rewrite parent_of_eq.
  destruct (is_kid node ks) eqn:Hkid.
  - intros [= <-]. simpl. split; [left|right].
    apply kid_root_in. by apply is_kid_true.
  - intros Hq. apply first_parent_Some in Hq as (k & Hk & Hq).
    rewrite Forall_forall in IH. destruct (IH k Hk _ _ Hq) as [H1 H2].
    simpl. split; right; apply elem_of_flat_map; by exists k.
Qed.

Lemma parent_of_not_in (s : Shape) (node : nid) :
  node ∉ PreOrderIter s → parent_of node s = None.
Proof.
  intros Hn. destruct (parent_of node s) as [q|] eqn:Hq; [|done].
  apply parent_of_in in Hq as [_ ?]. done.
Qed.

Lemma first_parent_None (node : nid) (ks : list Shape) :
  node ∉ flat_map PreOrderIter ks → first_parent node ks = None.
Proof.
  induction ks as [|k ks IH]; [done|]. intros Hn.
  rewrite first_parent_cons. simpl in Hn.
  apply not_elem_of_app in Hn as [Hk Hks].
  rewrite (parent_of_not_in _ _ Hk). by apply IH.
Qed.

Lemma parent_of_attach_new (p x : nid) (s : Shape) :
  x ∉ PreOrderIter s → p ∈ PreOrderIter s →
  parent_of x (attach p (Sh x []) s) = Some p.
Proof.
  induction s as [n ks IH] using Shape_ind'. intros Hx Hp.
  cbn [attach]. destruct (decide (n = p)) as [->|Hne].
  - rewrite parent_of_eq.
    assert (is_kid x (ks ++ [Sh x []]) = true) as ->; [|done].
    apply is_kid_true. rewrite fmap_app. apply elem_of_app. right.
    simpl. left.
  - rewrite parent_of_eq. simpl in Hx, Hp.
    apply not_elem_of_cons in Hx as [Hxn Hx].
    apply elem_of_cons in Hp as [->|Hp]; [done|].
    assert (is_kid x (map (attach p (Sh x [])) ks) = false) as ->.
    { apply not_true_iff_false. rewrite is_kid_true.
      intros Hin. apply list_elem_of_fmap in Hin as (k' & Hr & Hk').
      apply list_elem_of_fmap in Hk' as (k & -> & Hk).
      rewrite attach_root in Hr. apply Hx. apply kid_root_in.
      apply list_elem_of_fmap. by exists k. }
    clear Hxn. induction ks as [|k ks IHks]; [by apply elem_of_nil in Hp|].
    apply Forall_cons in IH as [IHk IH].
    simpl in Hx. apply not_elem_of_app in Hx as [Hxk Hxks].
    cbn [map]. rewrite first_parent_cons.
    destruct (decide (p ∈ PreOrderIter k)) as [Hpk|Hpk].
    + by rewrite (IHk Hxk Hpk).
    + simpl in Hp. apply elem_of_app in Hp as [Hp|Hp]; [done|].
      destruct (parent_of x (attach p (Sh x []) k)) as [q|] eqn:Hq.
      * (* the new node can only be under [p] *)
        exfalso. clear IHks IH IHk Hp Hxks.
        revert q Hq. induction k as [m js IHj] using Shape_ind'.
        intros q. cbn [attach]. simpl in Hpk.
        apply not_elem_of_cons in Hpk as [Hmp Hpk].
        rewrite decide_False by done. rewrite parent_of_eq.
        simpl in Hxk. apply not_elem_of_cons in Hxk as [_ Hxk].
        assert (is_kid x (map (attach p (Sh x [])) js) = false) as ->.
        { apply not_true_iff_false. rewrite is_kid_true.
          intros Hin. apply list_elem_of_fmap in Hin as (k' & Hr & Hk').
          apply list_elem_of_fmap in Hk' as (k0 & -> & Hk0).
          rewrite attach_root in Hr. apply Hxk. apply kid_root_in.
          apply list_elem_of_fmap. by exists k0. }
        intros Hq. apply first_parent_Some in Hq as (k' & Hk' & Hq).
        apply list_elem_of_fmap in Hk' as (k0 & -> & Hk0).
        rewrite Forall_forall in IHj. apply (IHj k0 Hk0) with q; [| |done].
        -- intros Hin. apply Hxk. apply elem_of_flat_map. by exists k0.
        -- intros Hin. apply Hpk. apply elem_of_flat_map. by exists k0.
      * by apply IHks.
Qed.

Lemma parent_of_attach_old (p x y : nid) (s : Shape) :
  y ≠ x → parent_of y (attach p (Sh x []) s) = parent_of y s.
Proof.
  intros Hy. induction s as [n ks IH] using Shape_ind'.
  cbn [attach]. destruct (decide (n = p)) as [->|Hne].
  - rewrite !parent_of_eq.
    assert (is_kid y (ks ++ [Sh x []]) = is_kid y ks) as ->.
    { unfold is_kid. rewrite existsb_app. simpl.
      rewrite bool_decide_eq_false_2 by done. by rewrite !orb_false_r. }
    destruct (is_kid y ks); [done|].
    clear IH. induction ks as [|k ks IHks]; [done|].
    cbn [app]. rewrite !first_parent_cons. by rewrite IHks.
  - rewrite !parent_of_eq.
    assert (is_kid y (map (attach p (Sh x [])) ks) = is_kid y ks) as ->.
    { unfold is_kid. clear IH. induction ks as [|k ks IHks]; [done|].
      simpl. rewrite attach_root. by rewrite IHks. }
    destruct (is_kid y ks); [done|].
    induction ks as [|k ks IHks]; [done|].
    apply Forall_cons in IH as [IHk IH].
    cbn [map]. rewrite !first_parent_cons. rewrite IHk. by rewrite IHks.
Qed.

Lemma first_parent_is_Some (node : nid) (ks : list Shape) (k : Shape) :
  k ∈ ks → is_Some (parent_of node k) → is_Some (first_parent node ks).
Proof.
  induction ks as [|k0 ks IH]; intros Hk Hp; [by apply elem_of_nil in Hk|].
  rewrite first_parent_cons.
  destruct (parent_of node k0) as [q|] eqn:Hq; [by eexists|].
  apply elem_of_cons in Hk as [->|Hk].
  - rewrite Hq in Hp. by destruct Hp.
  - by apply IH.
Qed.

Lemma parent_of_is_Some (s : Shape) (node : nid) :
  node ∈ PreOrderIter s → node ≠ shape_root s →
  is_Some (parent_of node s).
Proof.
  induction s as [n ks IH] using Shape_ind'. intros Hn Hne.
  simpl in Hn, Hne.
  apply elem_of_cons in Hn as [->|Hn]; [done|].
  rewrite parent_of_eq. destruct (is_kid node ks) eqn:Hkid; [by eexists|].
  apply elem_of_flat_map in Hn as (k & Hk & Hn).
  apply (first_parent_is_Some _ _ k Hk).
  rewrite Forall_forall in IH. apply (IH k Hk Hn).
  intros ->. apply not_true_iff_false in Hkid. apply Hkid.
  apply is_kid_true. apply list_elem_of_fmap. by exists k.
Qed.

Lemma before_app_l {A : Type} (l0 l : list A) (a b : A) :
  before l a b → before (l0 ++ l) a b.
Proof.
  intros (l1 & l2 & l3 & ->). exists (l0 ++ l1), l2, l3.
  by rewrite <- app_assoc.
Qed.

Lemma before_app_r {A : Type} (l l0 : list A) (a b : A) :
  before l a b → before (l ++ l0) a b.
Proof.
  intros (l1 & l2 & l3 & ->). exists l1, l2, (l3 ++ l0).
  rewrite <- !app_assoc. simpl. by rewrite <- !app_assoc.
Qed.

Lemma before_cons {A : Type} (l : list A) (a b c : A) :
  before l a b → before (c :: l) a b.
Proof. apply (before_app_l [c]). Qed.

(** A parent comes before its child in the pre-order. *)
Lemma parent_before (s : Shape) (node q : nid) :
  parent_of node s = Some q → before (PreOrderIter s) q node.
Proof.
  revert node q. induction s as [n ks IH] using Shape_ind'.
  intros node q. rewrite parent_of_eq.
  destruct (is_kid node ks) eqn:Hkid.
  - intros [= <-]. apply is_kid_true, kid_root_in in Hkid.
    apply list_elem_of_split in Hkid as (l2 & l3 & Hsplit).
    exists [], l2, l3. simpl. by rewrite Hsplit.
  - intros Hq. apply first_parent_Some in Hq as (k & Hk & Hq).
    rewrite Forall_forall in IH. specialize (IH k Hk _ _ Hq).
    apply list_elem_of_split in Hk as (ks1 & ks2 & ->).
    simpl. apply before_cons. rewrite flat_map_app. apply before_app_l.
    simpl. by apply before_app_r.
Qed.

Lemma nodup_split_unique {A : Type} (l1 l2 l1' l2' : list A) (a : A) :
  NoDup (l1 ++ a :: l2) → l1 ++ a :: l2 = l1' ++ a :: l2' → l1 = l1'.
Proof.
  revert l1'. induction l1 as [|b l1 IH]; intros l1' Hnd Heq.
  - destruct l1' as [|b' l1']; [done|].
    simpl in *. injection Heq as <- Heq. apply NoDup_cons in Hnd as [Hn _].
    exfalso. apply Hn. rewrite Heq. apply elem_of_app. right. left.
  - destruct l1' as [|b' l1'].
    + simpl in *. injection Heq as -> Heq. apply NoDup_cons in Hnd as [Hn _].
      exfalso. apply Hn. apply elem_of_app. right. left.
    + simpl in *. injection Heq as <- Heq. apply NoDup_cons in Hnd as [_ Hnd].
      f_equal. by apply IH.
Qed.

Lemma before_in_prefix {A : Type} (done_ rest : list A) (a b : A) :
  NoDup (done_ ++ b :: rest) → before (done_ ++ b :: rest) a b →
  a ∈ done_.
Proof.
  intros Hnd (l1 & l2 & l3 & Heq).
  assert (done_ = l1 ++ a :: l2) as ->.
  { apply (nodup_split_unique _ rest _ l3 b Hnd).
    rewrite Heq. by rewrite <- app_assoc. }
  apply elem_of_app. right. left.
Qed.

(** *** The second loop *)

Lemma fresh_not_live (m : Tree) : fresh m ∉ live m.
Proof.
  unfold fresh. intros Hin. apply max_list_elem_of_le in Hin. lia.
Qed.

Lemma fresh_not_node (m : Tree) : fresh m ∉ nodes m.
Proof.
  intros Hin. apply (fresh_not_live m). unfold live.
  apply elem_of_app. by left.
Qed.

Lemma fresh_not_indexed (m : Tree) : fresh m ∉ (key_map m).*2.
Proof.
  intros Hin. apply (fresh_not_live m). unfold live.
  apply elem_of_app. right. apply elem_of_app. by left.
Qed.

Lemma dict_get_app_Some {K V : Type} `{EqDecision K}
  (d e : list (K * V)) (k : K) (v : V) :
  dict_get d k = Some v → dict_get (d ++ e) k = Some v.
Proof.
  induction d as [|[k0 v0] d IH]; simpl; [done|].
  destruct (decide (k0 = k)); [done|apply IH].
Qed.

Lemma dict_get_app_None {K V : Type} `{EqDecision K}
  (d e : list (K * V)) (k : K) :
  dict_get d k = None → dict_get (d ++ e) k = dict_get e k.
Proof.
  induction d as [|[k0 v0] d IH]; simpl; [done|].
  destruct (decide (k0 = k)); [done|apply IH].
Qed.

Lemma diff_missing_skip (remote m : Tree) (r n : nid) :
  get_node_by_key m (key_of remote r) = Some n →
  diff_missing remote m r = Ok m.
Proof. unfold diff_missing, key_of. by intros ->. Qed.

Lemma diff_missing_copy (remote m : Tree) (r rp : nid) :
  get_node_by_key m (key_of remote r) = None →
  parent_of r (hier remote) = Some rp →
  ∃ m', diff_missing remote m r = Ok m'
        ∧ hier m' = match get_node_by_key m (key_of remote rp) with
                    | Some p => attach p (Sh (fresh m) []) (hier m)
                    | None => hier m
                    end
        ∧ store m' (fresh m) = set_action DELETE (store remote r)
        ∧ (∀ y, y ≠ fresh m → store m' y = store m y)
        ∧ key_map m' = key_map m ++ [(key_of remote r, fresh m)].
Proof.
  intros Hk Hp. unfold diff_missing, key_of in *. rewrite Hk, Hp.
  unfold new_node. eexists. split; [reflexivity|].
  unfold add_node. cbn [hier store key_map].
  assert (∀ f, upd (store m) (fresh m) f (fresh m) = f (store m (fresh m)))
    as Hupd by (intros f; unfold upd; by rewrite decide_True).
  rewrite !Hupd.
  split; [done|]. split; [done|]. split.
  - intros y Hy. unfold upd. by rewrite decide_False.
  - cbn [key set_action]. apply dict_set_fresh. apply Hk.
Qed.

Lemma extends_refl (m : Tree) : extends m m.
Proof. unfold extends. naive_solver. Qed.

Lemma extends_trans (m1 m2 m3 : Tree) :
  extends m1 m2 → extends m2 m3 → extends m1 m3.
Proof.
  intros (A1 & A2 & A3 & A4 & A5) (B1 & B2 & B3 & B4 & B5).
  split; [|split; [|split; [|split]]].
  - intros k n Hk. by apply B1, A1.
  - intros n Hn. rewrite <- (A2 n Hn). apply B2.
    destruct Hn as [Hn|Hn]; [left; by apply A3|right; by apply A4].
  - intros n Hn. by apply B3, A3.
  - intros n Hn. by apply B4, A4.
  - intros y q Hy Hq. apply B5; [by apply A3|by apply A5].
Qed.

Lemma diff_missing_extends (remote m m' : Tree) (r : nid) :
  diff_missing remote m r = Ok m' → extends m m'.
Proof.
  intros Hstep.
  destruct (get_node_by_key m (key_of remote r)) as [n|] eqn:Hk.
  - rewrite (diff_missing_skip _ _ _ _ Hk) in Hstep.
    injection Hstep as <-. apply extends_refl.
  - destruct (parent_of r (hier remote)) as [rp|] eqn:Hp.
    2:{ unfold diff_missing, key_of in *. by rewrite Hk, Hp in Hstep. }
    destruct (diff_missing_copy remote m r rp Hk Hp)
      as (m2 & Hm2 & Hh & Hx & Ho & Hkm).
    rewrite Hm2 in Hstep. injection Hstep as <-.
    assert (∀ n, n ∈ nodes m → n ∈ nodes m2) as Hnodes.
    { intros n Hn. unfold nodes. rewrite Hh.
      destruct (get_node_by_key m (key_of remote rp)); [|done].
      by apply attach_keeps. }
    split; [|split; [|split; [|split]]].
    + intros k n Hkn. unfold get_node_by_key in *. rewrite Hkm.
      by apply dict_get_app_Some.
    + intros n Hn. apply Ho. intros ->.
      destruct Hn as [Hn|Hn];
        [by apply (fresh_not_node m)|by apply (fresh_not_indexed m)].
    + done.
    + intros n Hn. rewrite Hkm, fmap_app. apply elem_of_app. by left.
    + intros y q Hy Hq. rewrite Hh.
      destruct (get_node_by_key m (key_of remote rp)); [|done].
      rewrite parent_of_attach_old; [done|].
      intros ->. by apply (fresh_not_node m).
Qed.

Lemma second_loop_extends (remote : Tree) (l : list nid) (m m' : Tree) :
  for_result l (diff_missing remote) m = Ok m' → extends m m'.
Proof.
  revert m. induction l as [|r l IH]; intros m; cbn [for_result].
  - intros [= <-]. apply extends_refl.
  - destruct (diff_missing remote m r) as [m2|] eqn:Hstep; [|done].
    cbn [mbind result_bind]. intros Hrest.
    apply (extends_trans _ m2); [by apply (diff_missing_extends remote _ _ r)|].
    by apply IH.
Qed.

Lemma first_loop_runs (cfg : Config) (remote : Tree)
  (l : list (list ascii * nid)) (m : Tree) :
  has_pks remote →
  ∃ m', for_result l (diff_match cfg remote) m = Ok m'
        ∧ hier m' = hier m ∧ key_map m' = key_map m.
Proof.
  intros Hpk. revert m. induction l as [|[k n] l IH]; intros m.
  - by exists m.
  - destruct (diff_match_spec cfg remote m k n
                (fun r => has_pks_lookup remote k r Hpk))
      as (m1 & Hm1 & Hh & Hk & _).
    destruct (IH m1) as (m' & Hm' & Hh' & Hk').
    exists m'. cbn [for_result]. rewrite Hm1. cbn [mbind result_bind].
    split; [done|]. split; congruence.
Qed.

Lemma is_Some_get_app {V : Type} (d : list (list ascii * V))
  (k0 k : list ascii) (v : V) :
  is_Some (dict_get (d ++ [(k0, v)]) k)
  ↔ is_Some (dict_get d k) ∨ k = k0.
Proof.
  destruct (dict_get d k) as [w|] eqn:Hd.
  - rewrite (dict_get_app_Some _ _ _ _ Hd). split; [by left|by eexists].
  - rewrite (dict_get_app_None _ _ _ Hd). simpl.
    destruct (decide (k0 = k)) as [->|Hne].
    + split; [by right|by eexists].
    + split; [by intros [? ?]|]. intros [[? ?] | ->]; done.
Qed.

(** The state of the second loop after the nodes [done_] of the remote
    pre-order: the keys of the merged index are the local keys and the
    keys of the nodes visited, and every indexed node is in the tree. *)
Lemma second_loop_prefix (local remote m1 : Tree) :
  hier m1 = hier local → key_map m1 = key_map local →
  index_in_tree local → root_found local remote → distinct_keys remote →
  ∀ done_ rest, nodes remote = done_ ++ rest →
    ∃ m, for_result done_ (diff_missing remote) m1 = Ok m
         ∧ (∀ k, is_Some (get_node_by_key m k)
                 ↔ is_Some (get_node_by_key local k)
                   ∨ ∃ d, d ∈ done_ ∧ k = key_of remote d)
         ∧ (∀ k n, get_node_by_key m k = Some n → n ∈ nodes m).
Proof.
  intros Hh Hkm Hin Hroot Hkeys.
  assert (NoDup (nodes remote)) as Hnd by (by apply NoDup_fmap_1 in Hkeys).
  induction done_ as [|r done_ IH] using rev_ind; intros rest Hsplit.
  - exists m1. split; [done|]. split.
    + intros k. unfold get_node_by_key. rewrite Hkm.
      split; [by left|]. intros [?|(d & Hd & _)]; [done|].
      by apply elem_of_nil in Hd.
    + intros k n Hk. unfold get_node_by_key, nodes in *.
      rewrite Hkm in Hk. rewrite Hh. apply dict_get_Some_elem in Hk.
      unfold index_in_tree in Hin. rewrite Forall_forall in Hin.
      apply (Hin _ Hk).
  - rewrite <- app_assoc in Hsplit. simpl in Hsplit.
    destruct (IH _ Hsplit) as (m & Hm & Ha & Hb).
    rewrite for_result_app, Hm. cbn [mbind result_bind for_result].
    destruct (get_node_by_key m (key_of remote r)) as [n|] eqn:Hk.
    + rewrite (diff_missing_skip _ _ _ _ Hk). cbn [mbind result_bind].
      exists m. split; [done|]. split; [|done].
      intros k. rewrite Ha. split.
      * intros [?|(d & Hd & ->)]; [by left|right].
        exists d. split; [|done]. apply elem_of_app. by left.
      * intros [?|(d & Hd & ->)]; [by left|].
        apply elem_of_app in Hd as [Hd|Hd]; [right; by exists d|].
        apply list_elem_of_singleton in Hd as ->.
        apply Ha. by eexists.
    + assert (r ≠ shape_root (hier remote)) as Hnr.
      { intros ->. destruct Hroot as [n Hn].
        assert (is_Some (get_node_by_key m (key_of remote (root remote))))
          as [? ?] by (apply Ha; left; by eexists).
        unfold root in *. congruence. }
      assert (r ∈ nodes remote) as Hr.
      { rewrite Hsplit. apply elem_of_app. right. left. }
      destruct (parent_of_is_Some _ _ Hr Hnr) as [rp Hrp].
      assert (rp ∈ done_) as Hdone.
      { apply (before_in_prefix done_ rest rp r).
        - by rewrite <- Hsplit.
        - rewrite <- Hsplit. by apply parent_before. }
      assert (is_Some (get_node_by_key m (key_of remote rp))) as [p Hp].
      { apply Ha. right. by exists rp. }
      destruct (diff_missing_copy remote m r rp Hk Hrp)
        as (m' & Hm' & Hh' & Hx & Ho & Hkm').
      rewrite Hp in Hh'.
      rewrite Hm'. cbn [mbind result_bind]. exists m'.
      split; [done|]. split.
      * intros k. unfold get_node_by_key at 1. rewrite Hkm'.
        rewrite is_Some_get_app. fold (get_node_by_key m k). rewrite Ha.
        split.
        -- intros [[?|(d & Hd & ->)] | ->]; [by left|right..].
           ++ exists d. split; [|done]. apply elem_of_app. by left.
           ++ exists r. split; [|done]. apply elem_of_app. right. left.
        -- intros [?|(d & Hd & ->)]; [left; by left|].
           apply elem_of_app in Hd as [Hd|Hd].
           ++ left. right. by exists d.
           ++ apply list_elem_of_singleton in Hd as ->. by right.
      * intros k n. unfold get_node_by_key at 1. rewrite Hkm'.
        destruct (dict_get (key_map m) k) as [w|] eqn:Hd.
        -- rewrite (dict_get_app_Some _ _ _ _ Hd). intros [= <-].
           unfold nodes. rewrite Hh'. apply attach_keeps. by apply (Hb k).
        -- rewrite (dict_get_app_None _ _ _ Hd). simpl.
           destruct (decide (key_of remote r = k)); [|done].
           intros [= <-]. unfold nodes. rewrite Hh'.
           apply (attach_adds p (Sh (fresh m) [])). by apply (Hb _ _ Hp).
Qed.

Lemma second_loop_runs (remote : Tree) (l : list nid) (m : Tree) :
  is_Some (get_node_by_key m (key_of remote (root remote))) →
  Forall (fun r => r ∈ nodes remote) l →
  ∃ m', for_result l (diff_missing remote) m = Ok m'.
Proof.
  revert m. induction l as [|r l IH]; intros m Hroot Hl.
  - by exists m.
  - apply Forall_cons in Hl as [Hr Hl]. cbn [for_result].
    assert (∃ m2, diff_missing remote m r = Ok m2) as [m2 Hm2].
    { destruct (get_node_by_key m (key_of remote r)) as [n|] eqn:Hk.
      - exists m. by apply (diff_missing_skip _ _ _ n).
      - assert (r ≠ shape_root (hier remote)) as Hnr.
        { intros ->. destruct Hroot as [? ?]. unfold root in *. congruence. }
        destruct (parent_of_is_Some _ _ Hr Hnr) as [rp Hrp].
        destruct (diff_missing_copy remote m r rp Hk Hrp) as (m2 & ? & _).
        by exists m2. }
    rewrite Hm2. cbn [mbind result_bind]. apply IH; [|done].
    destruct Hroot as [n Hn]. exists n.
    by apply (diff_missing_extends _ _ _ _ Hm2).
Qed.

Lemma second_loop_all_present (remote : Tree) (l : list nid) (m : Tree) :
  Forall (fun r => is_Some (get_node_by_key m (key_of remote r))) l →
  for_result l (diff_missing remote) m = Ok m.
Proof.
  induction l as [|r l IH]; intros Hl; [done|].
  apply Forall_cons in Hl as [[n Hr] Hl]. cbn [for_result].
  rewrite (diff_missing_skip _ _ _ _ Hr). cbn [mbind result_bind].
  by apply IH.
Qed.

Lemma indexed_elem (t : Tree) (k : list ascii) (n : nid) :
  get_node_by_key t k = Some n → n ∈ (key_map t).*2.
Proof.
  intros Hk. apply dict_get_Some_elem in Hk.
  apply list_elem_of_fmap. by exists (k, n).
Qed.

(** C1: on a local tree whose key index has one entry per key, each
    under the node's own key, and a remote tree whose root key the local
    tree has too, [diff_trees] returns a merged tree in which every
    local node is there with its own entity, path, name, key and data
    (the merged tree starts as a copy of the local one), and
    - a node whose key is in the remote key index has the identifier,
      the custom-field list and the custom-field map of that remote node
      and action Update, or None when its path is [.], the root's;
    - a node whose key is not there has action Create and the
      configured default map as its custom-field map. *)
Theorem diff_trees_marks_local (cfg : Config) (local remote : Tree)
  (Hidx : keys_indexed local) (Huniq : keys_unique local)
  (Hpk : has_pks remote) (Hroot : root_found local remote) :
  ∃ merged, diff_trees cfg local remote = Ok merged
    ∧ ∀ k n, get_node_by_key local k = Some n →
        let was := store local n in
        let now := store merged n in
        (entity now = entity was ∧ filepath now = filepath was
         ∧ name now = name was ∧ key now = key was ∧ data now = data was)
        ∧ match get_node_by_key remote k with
          | Some r =>
              pk now = pk (store remote r)
              ∧ custom_fields now = custom_fields (store remote r)
              ∧ custom_field now = custom_field (store remote r)
              ∧ action now = (if is_dot (filepath was) then NONE else UPDATE)
          | None =>
              action now = CREATE
              ∧ custom_field now = QASE_CUSTOM_FIELD_DEFAULTS cfg
          end.
Proof.
  destruct (diff_first_spec cfg local remote Hidx Huniq Hpk)
    as (m1 & Hm1 & Hh & Hk & Hi & Hs & Ho).
  destruct (second_loop_runs remote (nodes remote) m1) as [merged Hm].
  { unfold get_node_by_key. rewrite Hk. apply Hroot. }
  { by apply Forall_forall. }
  exists merged. split.
  { unfold diff_trees. unfold diff_first in Hm1. rewrite Hm1. apply Hm. }
  intros k n Hkn was now.
  assert (now = matched cfg remote k was) as ->.
  { unfold now, was. rewrite <- (Hs _ _ Hkn).
    apply (second_loop_extends _ _ _ _ Hm). right.
    rewrite Hk. by apply (indexed_elem _ k). }
  unfold matched.
  destruct (get_node_by_key remote k) as [r|] eqn:Hr; simpl; [|done].
  split; [done|]. split; [|done].
  destruct (has_pks_lookup _ _ _ Hpk Hr) as [i Hi'].
  unfold getattr_pk. by rewrite Hi'.
Qed.

Ltac by_compute :=
  unfold keys_indexed, keys_unique, index_in_tree, tree_indexed, has_pks,
    distinct_keys, root_found, same_keys, only_root_dot;
  repeat split; apply (bool_decide_unpack _); vm_compute; exact I.

Lemma diff_trees_marks_local_witness :
  ∃ merged,
    diff_trees Scenario.cfg Scenario.local_tree Scenario.remote_tree
    = Ok merged
    ∧ action (store merged 0%nat) = NONE
    ∧ action (store merged 1%nat) = UPDATE
    ∧ pk (store merged 2%nat) = Some (Some 11)
    ∧ custom_field (store merged 2%nat) = [(1, str "high")]
    ∧ action (store merged 4%nat) = CREATE
    ∧ custom_field (store merged 4%nat) = [(1, str "low")].
Proof.
  destruct (diff_trees_marks_local Scenario.cfg Scenario.local_tree
              Scenario.remote_tree)
    as (merged & Hm & Hall); [by_compute..|].
  exists merged. split; [done|].
  pose proof (Hall dot 0%nat eq_refl) as (_ & _ & _ & _ & H0).
  pose proof (Hall (str "A") 1%nat eq_refl) as (_ & _ & _ & _ & H1).
  pose proof (Hall (str "A::X") 2%nat eq_refl) as (_ & H2 & _ & H2' & _).
  pose proof (Hall (str "B::Y") 4%nat eq_refl) as (_ & H4 & H4').
  repeat split; assumption.
Defined.

Lemma nodup_fmap_inj {A B : Type} (f : A → B) (l : list A) (x y : A) :
  NoDup (f <$> l) → x ∈ l → y ∈ l → f x = f y → x = y.
Proof.
  induction l as [|a l IH]; intros Hnd Hx Hy Hf; [by apply elem_of_nil in Hx|].
  rewrite fmap_cons in Hnd. apply NoDup_cons in Hnd as [Ha Hnd].
  apply elem_of_cons in Hx as [->|Hx]; apply elem_of_cons in Hy as [->|Hy].
  - done.
  - exfalso. apply Ha. rewrite Hf. apply list_elem_of_fmap. by exists y.
  - exfalso. apply Ha. rewrite <- Hf. apply list_elem_of_fmap. by exists x.
  - by apply IH.
Qed.

(** C2: take a local tree whose indexed nodes are in the tree, and a
    remote tree whose nodes have pairwise different keys and whose root
    key the local tree has.  Then [diff_trees] returns a merged tree,
    and for every node [r] of the remote tree whose key the local tree
    does not have, when the traversal reaches [r] (after the nodes
    [done_] before it in the pre-order, in state [m]):
    - the parent [rp] of [r] has been visited, and its counterpart [p]
      is already in the key index and in the tree;
    - the step adds one new object [x], without children, as the last
      child of [p];
    - in the merged tree [x] is filed under the key of [r], has the
      attributes of [r] with action Delete, and has parent [p], the
      node filed under the key of [rp]. *)
Theorem diff_trees_copies_missing (cfg : Config) (local remote : Tree)
  (Hin : index_in_tree local) (Hpk : has_pks remote)
  (Hroot : root_found local remote) (Hkeys : distinct_keys remote) :
  ∃ m1 merged,
    diff_first cfg local remote = Ok m1
    ∧ diff_trees cfg local remote = Ok merged
    ∧ ∀ done_ r rest,
        nodes remote = (done_ ++ r :: rest) →
        get_node_by_key local (key_of remote r) = None →
        ∃ m m' rp p x,
          for_result done_ (diff_missing remote) m1 = Ok m
          ∧ parent_of r (hier remote) = Some rp ∧ rp ∈ done_
          ∧ get_node_by_key m (key_of remote rp) = Some p
          ∧ p ∈ nodes m ∧ (x ∉ nodes m)
          ∧ diff_missing remote m r = Ok m'
          ∧ hier m' = attach p (Sh x []) (hier m)
          ∧ get_node_by_key merged (key_of remote r) = Some x
          ∧ store merged x = set_action DELETE (store remote r)
          ∧ get_node_by_key merged (key_of remote rp) = Some p
          ∧ parent_of x (hier merged) = Some p.
Proof.
  destruct (first_loop_runs cfg remote (key_map local) local Hpk)
    as (m1 & Hm1 & Hh & Hk).
  destruct (second_loop_prefix local remote m1 Hh Hk Hin Hroot Hkeys
              (nodes remote) []) as (merged & Hm & _).
  { by rewrite app_nil_r. }
  exists m1, merged. split; [done|]. split.
  { unfold diff_trees. by rewrite Hm1. }
  intros done_ r rest Hsplit Hmiss.
  assert (NoDup (nodes remote)) as Hnd by (by apply NoDup_fmap_1 in Hkeys).
  destruct (second_loop_prefix local remote m1 Hh Hk Hin Hroot Hkeys
              done_ (r :: rest) Hsplit) as (m & Hdone & Ha & Hb).
  (* the key of [r] is not in the index yet *)
  assert (get_node_by_key m (key_of remote r) = None) as Hnone.
  { destruct (get_node_by_key m (key_of remote r)) as [n|] eqn:Hn; [|done].
    exfalso. assert (is_Some (get_node_by_key m (key_of remote r))) as Hs
      by (by eexists).
    apply Ha in Hs as [[? ?]|(d & Hd & Hkd)]; [congruence|].
    assert (d ∈ nodes remote) as Hdn.
    { rewrite Hsplit. apply elem_of_app. by left. }
    assert (r ∈ nodes remote) as Hrn.
    { rewrite Hsplit. apply elem_of_app. right. left. }
    unfold distinct_keys in Hkeys.
    assert (r = d) as ->.
    { by apply (nodup_fmap_inj (key_of remote) (nodes remote)). }
    rewrite Hsplit in Hnd. apply NoDup_app in Hnd as (_ & Hnd & _).
    apply (Hnd d Hd). left. }
  assert (r ≠ shape_root (hier remote)) as Hnr.
  { intros ->. destruct Hroot as [n Hn]. unfold root in *. congruence. }
  assert (r ∈ nodes remote) as Hr.
  { rewrite Hsplit. apply elem_of_app. right. left. }
  destruct (parent_of_is_Some _ _ Hr Hnr) as [rp Hrp].
  assert (rp ∈ done_) as Hrpd.
  { apply (before_in_prefix done_ rest rp r).
    - by rewrite <- Hsplit.
    - rewrite <- Hsplit. by apply parent_before. }
  assert (is_Some (get_node_by_key m (key_of remote rp))) as [p Hp].
  { apply Ha. right. by exists rp. }
  destruct (diff_missing_copy remote m r rp Hnone Hrp)
    as (m' & Hm' & Hh' & Hx & Ho & Hkm').
  rewrite Hp in Hh'.
  (* the rest of the loop keeps what this step did *)
  assert (for_result rest (diff_missing remote) m' = Ok merged) as Hrest.
  { rewrite Hsplit in Hm. rewrite for_result_app, Hdone in Hm.
    cbn [mbind result_bind for_result] in Hm. by rewrite Hm' in Hm. }
  apply second_loop_extends in Hrest as (E1 & E2 & E3 & E4 & E5).
  assert (p ∈ nodes m) as Hpn by (by apply (Hb _ _ Hp)).
  assert (fresh m ∈ nodes m') as Hxn.
  { unfold nodes. rewrite Hh'. by apply (attach_adds p (Sh (fresh m) [])). }
  exists m, m', rp, p, (fresh m).
  split; [done|]. split; [done|]. split; [done|]. split; [done|].
  split; [done|]. split; [apply fresh_not_node|]. split; [done|].
  split; [done|]. split.
  { apply E1. unfold get_node_by_key. rewrite Hkm'.
    rewrite (dict_get_app_None _ _ _ Hnone). simpl. by rewrite decide_True. }
  split.
  { rewrite E2 by (by left). done. }
  split.
  { apply E1. unfold get_node_by_key in *. rewrite Hkm'.
    by apply dict_get_app_Some. }
  apply E5; [done|]. rewrite Hh'.
  apply parent_of_attach_new; [apply fresh_not_node|done].
Qed.

Lemma diff_trees_copies_missing_witness :
  ∃ merged,
    diff_trees Scenario.cfg Scenario.local_tree Scenario.remote_tree
    = Ok merged
    ∧ ∃ x p,
        get_node_by_key merged (str "C::Z") = Some x
        ∧ store merged x
          = set_action DELETE (store Scenario.remote_tree 4%nat)
        ∧ get_node_by_key merged (str "C") = Some p
        ∧ parent_of x (hier merged) = Some p.
Proof.
  destruct (diff_trees_copies_missing Scenario.cfg Scenario.local_tree
              Scenario.remote_tree)
    as (m1 & merged & _ & Hm & Hall); [by_compute..|].
  exists merged. split; [done|].
  destruct (Hall [0; 1; 2; 3]%nat 4%nat [5%nat] eq_refl eq_refl)
    as (m & m' & rp & p & x & _ & Hrp & _ & _ & _ & _ & _ & _
        & Hx & Hs & Hp & Hpar).
  injection Hrp as <-.
  exists x, p. repeat split; assumption.
Defined.

(** C6: when the local and the remote tree hold the same keys (every
    node of either is in its key index, and the indices have the same
    keys), [diff_trees] returns the local hierarchy unchanged, with
    action None on the root and Update on every other node; so no node
    has action Create or Delete. *)
Theorem diff_trees_same_keys (cfg : Config) (local remote : Tree)
  (Hidx : keys_indexed local) (Huniq : keys_unique local)
  (Hall : tree_indexed local) (Hdot : only_root_dot local)
  (Hpk : has_pks remote) (Hsame : same_keys local remote) :
  ∃ merged, diff_trees cfg local remote = Ok merged
    ∧ hier merged = hier local
    ∧ action (store merged (root merged)) = NONE
    ∧ (∀ n, n ∈ nodes merged → n ≠ root merged →
            action (store merged n) = UPDATE)
    ∧ ∀ n, n ∈ nodes merged →
           action (store merged n) ≠ CREATE
           ∧ action (store merged n) ≠ DELETE.
Proof.
  destruct Hsame as [Hlr Hrl].
  destruct (diff_first_spec cfg local remote Hidx Huniq Hpk)
    as (m1 & Hm1 & Hh & Hk & Hi & Hs & Ho).
  assert (diff_trees cfg local remote = Ok m1) as Hm.
  { unfold diff_trees. unfold diff_first in Hm1. rewrite Hm1.
    cbn [mbind result_bind]. apply second_loop_all_present.
    unfold get_node_by_key in *. by rewrite Hk. }
  assert (∀ n, n ∈ nodes local →
            action (store m1 n)
            = if bool_decide (n = root local) then NONE else UPDATE) as Hact.
  { intros n Hn.
    unfold tree_indexed, only_root_dot in *. rewrite Forall_forall in Hall, Hdot.
    specialize (Hall _ Hn). specialize (Hdot _ Hn).
    rewrite (Hs _ _ Hall). unfold matched.
    rewrite Forall_forall in Hlr.
    destruct (Hlr (key_of local n, n) (dict_get_Some_elem _ _ _ Hall))
      as [r Hr].
    simpl in Hr. rewrite Hr. simpl. by rewrite Hdot. }
  exists m1. split; [done|]. split; [done|].
  unfold nodes, root. rewrite Hh. fold (nodes local) (root local).
  split; [|split].
  - rewrite Hact by apply root_in_preorder. by rewrite bool_decide_eq_true_2.
  - intros n Hn Hne. rewrite (Hact n Hn). by rewrite bool_decide_eq_false_2.
  - intros n Hn. rewrite (Hact n Hn). by destruct (bool_decide (n = root local)).
Qed.

Lemma diff_trees_same_keys_witness :
  ∃ merged,
    diff_trees Scenario.cfg Scenario.local_same Scenario.remote_same
    = Ok merged
    ∧ nodes merged = [0; 1; 2]%nat
    ∧ action (store merged 0%nat) = NONE
    ∧ action (store merged 1%nat) = UPDATE
    ∧ action (store merged 2%nat) = UPDATE.
Proof.
  destruct (diff_trees_same_keys Scenario.cfg Scenario.local_same
              Scenario.remote_same)
    as (merged & Hm & Hh & H0 & Hup & _); [by_compute..|].
  exists merged. split; [done|].
  assert (nodes merged = [0; 1; 2]%nat) as Hn by (unfold nodes; by rewrite Hh).
  split; [done|].
  assert (root merged = 0%nat) as Hr by (unfold root; by rewrite Hh).
  rewrite Hr in *. split; [done|].
  split; apply Hup; rewrite ?Hn; [|done| |done].
  - right. left.
  - right. right. left.
Defined.

(** C3 at the input: a local tree with no feature file, and a remote
    tree whose root suite holds the case W directly.  The remote case
    gets the path of its parent, [.], so [flat_diff_trees] takes it for
    the root and lists nothing, while [diff_trees] files its copy under
    [.::W], below the root, with action Delete. *)
Theorem flat_diff_misses_root_level_case :
  filepath (store Scenario.remote_root_case 1%nat) = dot
  ∧ flat_diff_trees Scenario.local_empty Scenario.remote_root_case = Ok []
  ∧ ∃ merged x,
      diff_trees Scenario.cfg Scenario.local_empty
                 Scenario.remote_root_case = Ok merged
      ∧ get_node_by_key merged (str ".::W") = Some x
      ∧ x ≠ root merged
      ∧ parent_of x (hier merged) = Some (root merged)
      ∧ action (store merged x) = DELETE
      ∧ pk (store merged x) = Some (Some 13).
Proof.
  split; [reflexivity|]. split; [reflexivity|].
  eexists. exists 1%nat. split; [reflexivity|].
  split; [reflexivity|]. split; [done|]. split; [reflexivity|].
  split; reflexivity.
Qed.

End DiffFacts.

(** * Further properties *)

(** ** Title normalisation: what the passes remove *)

Module TitleTrim.
Import PyStr TitleString TitleSpec TitleThree.

Lemma index_first (c : ascii) (s : list ascii) : index (c :: s) 0 = Ok c.
Proof. reflexivity. Qed.

Lemma index_end (s : list ascii) :
  s ≠ [] → ∃ l, last s = Some l ∧ index s (len s - 1) = Ok l.
Proof.
  intros Hs. destruct (last s) as [l|] eqn:Hl.
  - exists l. split; [done|]. by apply index_last.
  - apply last_None in Hl. done.
Qed.

Lemma eqb_eq (a b : ascii) : ascii_eqb a b = true → a = b.
Proof. unfold ascii_eqb. by destruct (Ascii.eqb_spec a b). Qed.

Lemma last_snoc_removelast (s : list ascii) (l : ascii) :
  last s = Some l → s = removelast s ++ [l].
Proof.
  intros Hl. assert (s ≠ []) as Hs by (by destruct s).
  rewrite (app_removelast_last l Hs) at 1. f_equal. f_equal.
  rewrite last_lookup in Hl.
  destruct s as [|c s] using rev_ind; [done|].
  rewrite List.last_last. rewrite length_app in Hl. simpl in Hl.
  rewrite Nat.add_1_r in Hl. simpl in Hl.
  rewrite lookup_app_r in Hl by lia. rewrite Nat.sub_diag in Hl.
  by injection Hl.
Qed.

Lemma slice_inner (c : ascii) (s : list ascii) :
  slice (c :: s) 1 (len (c :: s) - 1) = removelast s.
Proof.
  unfold slice.
  assert (clamp (len (c :: s)) 1 = 1) as ->.
  { unfold clamp, len. simpl length. destruct (Z.ltb_spec 1 0); lia. }
  assert (clamp (len (c :: s)) (len (c :: s) - 1) = len (c :: s) - 1) as ->.
  { unfold clamp, len. simpl length.
    destruct (Z.ltb_spec (Z.of_nat (S (length s)) - 1) 0); lia. }
  change (skipn (Z.to_nat 1) (c :: s)) with s.
  rewrite removelast_firstn_len. f_equal. unfold len. simpl length. lia.
Qed.

(** [_handle_variables] returns on every string, and what it returns is
    the string itself or the string without a symbol at its start, at
    its end, or both: it removes nothing else. *)
Lemma handle_variables_trims (string : list ascii) (symbol : ascii)
  (balanced : bool) :
  ∃ a r b, _handle_variables string symbol balanced = Ok r
           ∧ string = a ++ r ++ b
           ∧ (a = [] ∨ a = [symbol]) ∧ (b = [] ∨ b = [symbol]).
Proof.
  destruct string as [|c s].
  { exists [], [], []. split; [reflexivity|]. auto. }
  unfold _handle_variables.
  destruct (_get_var_boundary_positions (c :: s) symbol) as [vs ve].
  destruct ((vs =? find (c :: s) [symbol]) && (ve =? rfind (c :: s) [symbol])).
  { exists [], (c :: s), []. rewrite app_nil_r. split; [reflexivity|]. auto. }
  destruct (index_end (c :: s)) as (l & Hl & Hend); [done|].
  change (0 + 1) with 1.
  assert (∃ a r b : list ascii,
            @Ok (list ascii) (c :: s) = Ok r ∧ c :: s = a ++ r ++ b
            ∧ (a = [] ∨ a = [symbol]) ∧ (b = [] ∨ b = [symbol])) as Hsame.
  { exists [], (c :: s), []. rewrite app_nil_r. auto. }
  assert (ascii_eqb c symbol = true →
          @Ok (list ascii) (slice_from (c :: s) 1) = Ok s
          ∧ c :: s = [symbol] ++ s ++ []
          ∧ ([symbol] = [] ∨ [symbol] = [symbol])
          ∧ (@nil ascii = [] ∨ [] = [symbol])) as Hfront.
  { intros Hc. apply eqb_eq in Hc as <-.
    rewrite slice_from_1, app_nil_r. auto. }
  destruct ((vs =? find (c :: s) [symbol]) && (find (c :: s) [symbol] =? 0));
    repeat (cbn [mbind result_bind]; rewrite ?Hend, ?index_first).
  - destruct (ascii_eqb l symbol) eqn:H1.
    + apply eqb_eq in H1 as <-.
      exists [], (removelast (c :: s)), [l].
      rewrite slice_to_last. split; [done|]. split; [|auto].
      by apply last_snoc_removelast.
    + destruct ((ve =? rfind (c :: s) [symbol])
                && (rfind (c :: s) [symbol] =? len (c :: s) - 1));
        repeat (cbn [mbind result_bind]; rewrite ?Hend, ?index_first).
      * destruct (ascii_eqb c symbol) eqn:H2;
          [exists [symbol], s, []; by apply Hfront|].
        destruct balanced;
          repeat (cbn [mbind result_bind]; rewrite ?Hend, ?index_first);
          rewrite ?andb_false_r; exact Hsame.
      * destruct balanced;
          repeat (cbn [mbind result_bind]; rewrite ?Hend, ?index_first);
          rewrite ?andb_false_r; exact Hsame.
  - destruct ((ve =? rfind (c :: s) [symbol])
              && (rfind (c :: s) [symbol] =? len (c :: s) - 1));
      repeat (cbn [mbind result_bind]; rewrite ?Hend, ?index_first).
    + destruct (ascii_eqb c symbol) eqn:H2;
        [exists [symbol], s, []; by apply Hfront|].
      destruct balanced;
        repeat (cbn [mbind result_bind]; rewrite ?Hend, ?index_first);
        [|exact Hsame].
      destruct (ascii_eqb c l && ascii_eqb l symbol) eqn:H3;
        [|exact Hsame].
      apply andb_true_iff in H3 as [Hcl Hls].
      apply eqb_eq in Hcl as ->. apply eqb_eq in Hls as ->.
      unfold ascii_eqb in H2. by rewrite Ascii.eqb_refl in H2.
    + destruct balanced;
        repeat (cbn [mbind result_bind]; rewrite ?Hend, ?index_first);
        [|exact Hsame].
      destruct (ascii_eqb c l && ascii_eqb l symbol) eqn:H3;
        [|exact Hsame].
      apply andb_true_iff in H3 as [Hcl Hls].
      apply eqb_eq in Hcl as ->. apply eqb_eq in Hls as ->.
      rewrite slice_inner. destruct s as [|c' s'] eqn:Hs.
      * exists [symbol], [], []. auto.
      * exists [symbol], (removelast (c' :: s')), [symbol].
        split; [done|]. split; [|auto]. simpl app. f_equal.
        apply last_snoc_removelast. by rewrite last_cons_cons in Hl.
Qed.


Lemma part_refl (s : list ascii) : ∃ a b, s = a ++ s ++ b.
Proof. exists [], []. by rewrite app_nil_r. Qed.

Lemma part_trans (s t r : list ascii) :
  (∃ a b, s = a ++ t ++ b) → (∃ a b, t = a ++ r ++ b) →
  ∃ a b, s = a ++ r ++ b.
Proof.
  intros (a & b & ->) (a' & b' & ->). exists (a ++ a'), (b' ++ b).
  by rewrite <- !app_assoc.
Qed.

Lemma part_tail (s : list ascii) : ∃ a b, s = a ++ tail s ++ b.
Proof.
  destruct s as [|c s]; [apply part_refl|].
  exists [c], []. by rewrite app_nil_r.
Qed.

Lemma part_removelast (s : list ascii) : ∃ a b, s = a ++ removelast s ++ b.
Proof.
  destruct (last s) as [l|] eqn:Hl.
  - exists [], [l]. by apply last_snoc_removelast.
  - apply last_None in Hl as ->. apply part_refl.
Qed.

Lemma lstrip_suffix (s : list ascii) : ∃ a, s = a ++ lstrip s.
Proof.
  induction s as [|c s [a IH]]; [by exists []|].
  simpl. destruct (ascii_eqb c space).
  - exists (c :: a). simpl. by rewrite <- IH.
  - by exists [].
Qed.

Lemma part_strip (s : list ascii) : ∃ a b, s = a ++ strip s ++ b.
Proof.
  unfold strip. destruct (lstrip_suffix s) as [a Ha].
  destruct (lstrip_suffix (rev (lstrip s))) as [b Hb].
  exists a, (rev b). rewrite Ha at 1. f_equal.
  rewrite <- rev_app_distr. rewrite <- Hb. by rewrite rev_involutive.
Qed.

Lemma count_nonempty (s : list ascii) (c : ascii) :
  0 < count s c → s ≠ [].
Proof. destruct s; [simpl; lia|done]. Qed.

(** One pass of [_strip_title] on a non-empty string never raises, and
    what it returns is a part of the string in one piece: characters go
    only at the two ends.  When neither end holds the symbol the string
    comes back as it is, spaces at its ends included. *)
Theorem strip_title_pass_trims (string : list ascii) (symbol : ascii)
  (Hne : string ≠ []) :
  (∃ a r b, _strip_title string symbol = Ok r ∧ string = a ++ r ++ b)
  ∧ (head string ≠ Some symbol → last string ≠ Some symbol →
     _strip_title string symbol = Ok string).
Proof.
  destruct string as [|c s]; [done|]. clear Hne.
  destruct (index_end (c :: s)) as (l & Hl & Hend); [done|].
  unfold _strip_title. rewrite index_first. cbn [mbind result_bind].
  assert ((if ascii_eqb c symbol then Ok true
           else index (c :: s) (len (c :: s) - 1)
                ≫= λ e : ascii, Ok (ascii_eqb e symbol))
          = Ok (ascii_eqb c symbol || ascii_eqb l symbol)) as ->.
  { rewrite Hend. by destruct (ascii_eqb c symbol). }
  cbn [mbind result_bind].
  destruct (ascii_eqb c symbol || ascii_eqb l symbol) eqn:Hb; cbn [negb].
  2:{ split; [|done]. exists [], (c :: s), []. by rewrite app_nil_r. }
  split.
  2:{ intros Hh Hlast. exfalso. apply orb_true_iff in Hb as [Hb|Hb];
        apply eqb_eq in Hb as <-; [by apply Hh|by apply Hlast]. }
  destruct (handle_variables_trims (c :: s) symbol
              (is_balanced (c :: s) symbol))
    as (a1 & s1 & b1 & -> & Hs1 & _).
  cbn [mbind result_bind]. change (0 + 1) with 1.
  assert (∀ s2, (∃ a b, s1 = a ++ s2 ++ b) →
            ∃ a r b, (@Ok (list ascii) s2 ≫= λ x, Ok (strip x)) = Ok r
                     ∧ c :: s = a ++ r ++ b) as Hfin.
  { intros s2 Hs2. cbn [mbind result_bind].
    destruct (part_trans (c :: s) s1 (strip s2)) as (a & b & Hab).
    - by exists a1, b1.
    - apply (part_trans _ s2); [done|apply part_strip].
    - by exists a, (strip s2), b. }
  destruct (negb (is_balanced s1 symbol) && (count s1 symbol =? 1)) eqn:H1.
  { apply andb_true_iff in H1 as [_ H1]. apply Z.eqb_eq in H1.
    destruct s1 as [|c1 s1']; [simpl in H1; lia|].
    rewrite index_first. cbn [mbind result_bind].
    destruct (ascii_eqb c1 symbol).
    - rewrite slice_from_1. apply Hfin, part_tail.
    - destruct (index_end (c1 :: s1')) as (l1 & _ & ->); [done|].
      cbn [mbind result_bind]. destruct (ascii_eqb l1 symbol).
      + rewrite slice_to_last. apply Hfin, part_removelast.
      + apply Hfin, part_refl. }
  destruct (negb (is_balanced s1 symbol) && (count s1 symbol =? 3)).
  { destruct (_ >? _).
    - rewrite slice_from_1. apply Hfin, part_tail.
    - rewrite slice_to_last. apply Hfin, part_removelast. }
  destruct (negb (is_balanced s1 symbol) && (count s1 symbol >? 3)) eqn:H3;
    [|apply Hfin, part_refl].
  apply andb_true_iff in H3 as [_ H3]. apply Z.gtb_lt in H3.
  destruct s1 as [|c1 s1']; [simpl in H3; lia|].
  destruct (_get_var_boundary_positions (c1 :: s1') symbol) as [vs ve].
  destruct (index_end (c1 :: s1')) as (l1 & _ & Hend1); [done|].
  rewrite Hend1, index_first.
  destruct (negb (vs =? 0) && negb (ve =? len (c1 :: s1') - 1));
    cbn [mbind result_bind]; [|apply Hfin, part_refl].
  destruct (ascii_eqb c1 l1 && ascii_eqb l1 symbol);
    [|apply Hfin, part_refl].
  rewrite slice_inner. apply Hfin.
  apply (part_trans _ s1'); [apply (part_tail (c1 :: s1'))|].
  apply part_removelast.
Qed.

Lemma strip_title_pass_trims_witness :
  (∃ a r b, _strip_title (str "'ab'") "'"%char = Ok r
            ∧ str "'ab'" = a ++ r ++ b)
  ∧ _strip_title (str " ab ") "'"%char = Ok (str " ab ").
Proof.
  split.
  - apply (strip_title_pass_trims (str "'ab'") "'"%char). done.
  - apply (strip_title_pass_trims (str " ab ") "'"%char); done.
Defined.

End TitleTrim.


(** ** Title normalisation: whitespace *)

Module TitleSpaces.
Import PyStr TitleString.

Lemma split_aux_words (s cur : list ascii) :
  Forall (fun c => isspace c = false) cur →
  Forall (fun w => w ≠ [] ∧ Forall (fun c => isspace c = false) w)
         (split_aux s cur).
Proof.
  revert cur. induction s as [|c s IH]; intros cur Hcur; simpl.
  - destruct cur as [|d cur]; [constructor|].
    constructor; [|constructor]. split.
    + intros Hrev. apply (f_equal (@length ascii)) in Hrev.
      rewrite length_rev in Hrev. done.
    + apply Forall_rev in Hcur. exact Hcur.
  - destruct (isspace c) eqn:Hc.
    + destruct cur as [|d cur]; [by apply IH|].
      constructor; [|by apply IH]. split.
      * intros Hrev. apply (f_equal (@length ascii)) in Hrev.
        rewrite length_rev in Hrev. done.
      * apply Forall_rev in Hcur. exact Hcur.
    + apply IH. by constructor.
Qed.

Lemma join_words (ws : list (list ascii)) :
  Forall (fun w => w ≠ [] ∧ Forall (fun c => isspace c = false) w) ws →
  (ws ≠ [] → ∃ d, head (join ws) = Some d ∧ isspace d = false)
  ∧ ∀ (i : nat) (c : ascii),
      join ws !! i = Some c → isspace c = true →
      c = space ∧ (0 < i)%nat
      ∧ ∃ d, join ws !! S i = Some d ∧ isspace d = false.
Proof.
  induction ws as [|w ws IH]; intros Hws.
  { split; [done|]. intros i c Hi. by destruct i. }
  apply Forall_cons in Hws as [[Hw Hwc] Hws].
  destruct (IH Hws) as [IHhead IHall]. clear IH.
  assert (∃ d, head w = Some d ∧ isspace d = false) as (d0 & Hd0 & Hd0s).
  { destruct w as [|d w]; [done|]. exists d. split; [done|].
    by apply Forall_cons in Hwc as [? _]. }
  destruct ws as [|w' ws].
  { simpl. split; [intros _; by exists d0|].
    intros i c Hi Hc. rewrite Forall_forall in Hwc.
    apply list_elem_of_lookup_2 in Hi. apply Hwc in Hi. congruence. }
  change (join (w :: w' :: ws)) with (w ++ space :: join (w' :: ws)).
  split.
  { intros _. exists d0. split; [|done]. by destruct w. }
  intros i c Hi Hc.
  apply lookup_app_Some in Hi as [Hi|[Hle Hi]].
  { rewrite Forall_forall in Hwc.
    apply list_elem_of_lookup_2 in Hi. apply Hwc in Hi. congruence. }
  destruct (i - length w)%nat as [|j] eqn:Hj.
  - injection Hi as <-. split; [done|]. split.
    { destruct w; [done|]. simpl in Hle. lia. }
    destruct IHhead as (d & Hd & Hds); [done|]. exists d. split; [|done].
    rewrite lookup_app_r by lia.
    replace (S i - length w)%nat with 1%nat by lia.
    simpl. by rewrite <- head_lookup.
  - simpl in Hi. destruct (IHall j c Hi Hc) as (-> & _ & d & Hd & Hds).
    split; [done|]. split; [lia|]. exists d. split; [|done].
    rewrite lookup_app_r by lia.
    replace (S i - length w)%nat with (S (S j)) by lia. done.
Qed.

(** What [strip_title] returns has its words separated by single
    spaces: every whitespace character in it is a plain space, is not
    the first character, and is followed by a character that is not
    whitespace. *)
Theorem strip_title_single_spaces (string : list ascii)
  (symbols : list ascii) (r : list ascii)
  (Hrun : strip_title string symbols = Ok r) :
  ∀ (i : nat) (c : ascii),
    r !! i = Some c → isspace c = true →
    c = space ∧ (0 < i)%nat
    ∧ ∃ d, r !! S i = Some d ∧ isspace d = false.
Proof.
  unfold strip_title in Hrun.
  destruct (strip_symbols string symbols) as [s'|e]; [|done].
  injection Hrun as <-.
  apply join_words. apply split_aux_words. constructor.
Qed.

Lemma strip_title_single_spaces_witness :
  strip_title (str "  Card   size:  check ") CaseTree.quote_symbols
  = Ok (str "Card size: check")
  ∧ ∀ (i : nat) (c : ascii),
      str "Card size: check" !! i = Some c → isspace c = true →
      c = space ∧ (0 < i)%nat
      ∧ ∃ d, str "Card size: check" !! S i = Some d ∧ isspace d = false.
Proof.
  split; [reflexivity|].
  apply (strip_title_single_spaces (str "  Card   size:  check ")
           CaseTree.quote_symbols).
  reflexivity.
Defined.

End TitleSpaces.


(** ** Remote nodes and their keys *)

Module RemoteNodeFacts.
Import PyStr CaseTree TreeSpec HierSpec DiffFacts.

Lemma fold_set_snoc (d : list (Z * list ascii)) (l : list (Z * list ascii))
  (j : Z) (v : list ascii) :
  fold_left (fun d iv => dict_set d iv.1 iv.2) (l ++ [(j, v)]) d
  = dict_set (fold_left (fun d iv => dict_set d iv.1 iv.2) l d) j v.
Proof. by rewrite fold_left_app. Qed.

(** The custom-field map of a remote node: for every identifier, the
    value given last for it in the list the service sent, and the
    configured default when the list has none. *)
Theorem remote_custom_field_lookup (cfg : Config) (i : option Z)
  (e : Entity) (a : Action) (nm : list ascii) (par : option Node)
  (cfs : option (list (Z * list ascii))) (id_ : Z) :
  dict_get (custom_field (RemoteCaseNode cfg i e a nm par cfs)) id_
  = match dict_get (rev (default [] cfs)) id_ with
    | Some v => Some v
    | None => dict_get (QASE_CUSTOM_FIELD_DEFAULTS cfg) id_
    end.
Proof.
  cbn [RemoteCaseNode custom_field]. unfold custom_field_of.
  induction (default [] cfs) as [|[j v] l IH] using rev_ind; [done|].
  change (fun d iv => dict_set d (fst iv) (snd iv))
    with (fun (d : list (Z * list ascii)) (iv : Z * list ascii) =>
            dict_set d iv.1 iv.2) in *.
  rewrite fold_set_snoc, rev_app_distr. simpl.
  destruct (decide (j = id_)) as [->|Hne].
  - apply dict_get_set_eq.
  - rewrite dict_get_set_ne by done. apply IH.
Qed.

Lemma new_node_facts (t : Tree) (nd : Node) (parent : option nid) :
  let '(t', x) := new_node t nd parent in
  x = fresh t ∧ store t' x = nd
  ∧ (∀ y, y ≠ x → store t' y = store t y)
  ∧ key_map t' = key_map t ∧ id_map t' = id_map t
  ∧ hier t' = match parent with
              | Some p => attach p (Sh x []) (hier t)
              | None => hier t
              end.
Proof.
  unfold new_node. cbn. split; [done|]. split.
  - unfold upd. by rewrite decide_True.
  - split; [|done]. intros y Hy. unfold upd. by rewrite decide_False.
Qed.

(** A suite whose parent identifier is not in [id_map] (its parent was
    not listed before it) gets the path [.] and so the key [.], the
    root's: it takes the root's place in the key index, is filed under
    its identifier, and is not in the tree. *)
Theorem add_remote_suite_orphan (cfg : Config) (t : Tree)
  (suite_id : option Z) (title : list ascii) (parent_id : option Z)
  (Hnone : get_node_by_suite_id t parent_id = None) :
  let t' := add_remote_suite cfg t suite_id title parent_id in
  let x := fresh t in
  hier t' = hier t ∧ (x ∉ nodes t')
  ∧ filepath (store t' x) = dot ∧ key (store t' x) = dot
  ∧ get_node_by_key t' dot = Some x
  ∧ get_node_by_suite_id t' suite_id = Some x
  ∧ (∀ k, k ≠ dot → get_node_by_key t' k = get_node_by_key t k).
Proof.
  unfold get_node_by_suite_id in Hnone.
  unfold add_remote_suite. rewrite Hnone. cbn.
  unfold get_node_by_key, get_node_by_suite_id, nodes. cbn.
  split; [done|]. split; [apply fresh_not_node|].
  unfold upd. rewrite decide_True by done. cbn.
  split; [done|]. split; [done|].
  split; [apply dict_get_set_eq|]. split; [apply dict_get_set_eq|].
  intros k Hk. by apply dict_get_set_ne.
Qed.

Lemma add_remote_suite_orphan_witness :
  get_node_by_key Scenario.remote_root dot = Some 0%nat
  ∧ get_node_by_key
      (add_remote_suite Scenario.cfg Scenario.remote_root (Some 7)
                        (str "Late") (Some 9)) dot = Some 1%nat.
Proof.
  split; [reflexivity|].
  apply (add_remote_suite_orphan Scenario.cfg Scenario.remote_root
           (Some 7) (str "Late") (Some 9)).
  reflexivity.
Defined.

(** A suite whose parent is in [id_map] and in the tree becomes the
    last child of that parent, with the parent's path extended by its
    title as path and key, and is filed under both. *)
Theorem add_remote_suite_under_parent (cfg : Config) (t : Tree)
  (suite_id : option Z) (title : list ascii) (parent_id : option Z)
  (p : nid)
  (Hparent : get_node_by_suite_id t parent_id = Some p)
  (Hin : p ∈ nodes t) :
  let t' := add_remote_suite cfg t suite_id title parent_id in
  let x := fresh t in
  parent_of x (hier t') = Some p ∧ x ∈ nodes t'
  ∧ key (store t' x) = path_join (filepath (store t p)) title
  ∧ get_node_by_key t' (key (store t' x)) = Some x
  ∧ get_node_by_suite_id t' suite_id = Some x
  ∧ (∀ y, y ∈ nodes t → y ∈ nodes t' ∧ store t' y = store t y).
Proof.
  unfold get_node_by_suite_id in Hparent.
  unfold add_remote_suite. rewrite Hparent. cbn.
  unfold get_node_by_key, get_node_by_suite_id, nodes in *. cbn.
  split; [apply parent_of_attach_new; [apply fresh_not_node|done]|].
  split; [apply (attach_adds p (Sh (fresh t) [])); done|].
  unfold upd. rewrite decide_True by done. cbn.
  split; [done|]. split; [apply dict_get_set_eq|].
  split; [apply dict_get_set_eq|].
  intros y Hy. split; [by apply attach_keeps|].
  rewrite decide_False; [done|]. intros ->. by apply (fresh_not_node t).
Qed.

Lemma add_remote_suite_under_parent_witness :
  let t' := add_remote_suite Scenario.cfg Scenario.remote_root (Some 1)
                             (str "A") (Some 100) in
  parent_of 1%nat (hier t') = Some 0%nat ∧ key (store t' 1%nat) = str "A".
Proof.
  destruct (add_remote_suite_under_parent Scenario.cfg
              Scenario.remote_root (Some 1) (str "A") (Some 100) 0%nat)
    as (H1 & _ & H2 & _); [reflexivity|by left|].
  split; [exact H1|exact H2].
Defined.

(** A case takes the path of its suite and the key [path::title]; it
    becomes the last child of the suite and is filed under its key,
    but never under its identifier: [id_map] holds suites only.  So a
    case directly in the root suite has the path [.] like the root. *)
Theorem add_remote_case_under_suite (cfg : Config) (t : Tree)
  (case_id : option Z) (title : list ascii) (suite_id : option Z)
  (cfs : option (list (Z * list ascii))) (p : nid)
  (Hparent : get_node_by_suite_id t suite_id = Some p)
  (Hin : p ∈ nodes t) :
  let t' := add_remote_case cfg t case_id title suite_id cfs in
  let x := fresh t in
  parent_of x (hier t') = Some p
  ∧ filepath (store t' x) = filepath (store t p)
  ∧ key (store t' x) = filepath (store t p) ++ str "::" ++ title
  ∧ get_node_by_key t' (key (store t' x)) = Some x
  ∧ id_map t' = id_map t.
Proof.
  unfold get_node_by_suite_id in Hparent.
  unfold add_remote_case. rewrite Hparent. cbn.
  unfold get_node_by_key, nodes in *. cbn.
  split; [apply parent_of_attach_new; [apply fresh_not_node|done]|].
  unfold upd. rewrite decide_True by done. cbn.
  split; [done|]. split; [done|]. split; [apply dict_get_set_eq|done].
Qed.

Lemma add_remote_case_under_suite_witness :
  let t' := add_remote_case Scenario.cfg Scenario.remote_root (Some 13)
                            (str "W") (Some 100) None in
  filepath (store t' 1%nat) = dot ∧ key (store t' 1%nat) = str ".::W".
Proof.
  destruct (add_remote_case_under_suite Scenario.cfg Scenario.remote_root
              (Some 13) (str "W") (Some 100) None 0%nat)
    as (_ & H1 & H2 & _); [reflexivity|by left|].
  split; [exact H1|exact H2].
Defined.

End RemoteNodeFacts.


(** ** Keys of local and remote nodes *)

Module KeyFacts.
Import PyStr CaseTree TreeSpec KeySpec.

Lemma is_prefix_feature_no_dot (c : ascii) (s : list ascii) :
  c ≠ dot_char → is_prefix (str ".feature") (c :: s) = false.
Proof.
  intros Hc. unfold dot_char in Hc.
  change (is_prefix (str ".feature") (c :: s))
    with (ascii_eqb "."%char c && is_prefix (str "feature") s).
  unfold ascii_eqb.
  destruct (Ascii.eqb_spec "."%char c) as [<-|]; [done|reflexivity].
Qed.

Lemma remove_all_no_dot (p : list ascii) :
  dot_char ∉ p → remove_all (str ".feature") p 0 = p.
Proof.
  induction p as [|c p IH]; intros Hp; [done|].
  apply not_elem_of_cons in Hp as [Hc Hp].
  cbn [remove_all]. rewrite is_prefix_feature_no_dot by done.
  by rewrite IH.
Qed.

Lemma remove_all_feature_suffix (p : list ascii) :
  dot_char ∉ p → remove_all (str ".feature") (p ++ str ".feature") 0 = p.
Proof.
  induction p as [|c p IH]; intros Hp; [reflexivity|].
  apply not_elem_of_cons in Hp as [Hc Hp].
  cbn [app remove_all]. rewrite is_prefix_feature_no_dot by done.
  by rewrite IH.
Qed.

Lemma no_dot_not_root (p : list ascii) : dot_char ∉ p → is_dot p = false.
Proof.
  intros Hp. unfold is_dot. apply bool_decide_eq_false_2. intros ->.
  apply Hp. left.
Qed.

Lemma feature_not_root (p : list ascii) :
  is_dot (p ++ str ".feature") = false.
Proof.
  unfold is_dot. apply bool_decide_eq_false_2. intros Heq.
  apply (f_equal (@length ascii)) in Heq. rewrite length_app in Heq.
  simpl in Heq. lia.
Qed.

(** Local and remote keys can be compared.  For a path without a dot:
    the local suite of the feature file [path.feature] and the remote
    suite named [nm] under a parent with path [pfp], where
    [path = pfp/nm], have the same key, [path]; and with title
    stripping off, a local case and a remote case of the same name in
    these suites have the same key too, [path::name]. *)
Theorem local_and_remote_keys_agree (cfg : Config) (pfp nm : list ascii)
  (par : Node) (i : option Z) (a a' : Action)
  (dat : list (list ascii * list ascii))
  (cfs : option (list (Z * list ascii)))
  (Hpar : filepath par = pfp)
  (Hdot : dot_char ∉ path_join pfp nm) :
  let fp := path_join pfp nm in
  (∃ nd, LocalCaseNode cfg (fp ++ str ".feature") [] SUITE a dat = Ok nd
         ∧ key nd = fp
         ∧ key (RemoteCaseNode cfg i SUITE a' nm (Some par) cfs) = fp)
  ∧ ∀ (suite : Node) (title : list ascii),
      filepath suite = fp → STRIP_TITLES cfg = false → title ≠ [] →
      ∃ nd, LocalCaseNode cfg (fp ++ str ".feature") title CASE a dat
            = Ok nd
            ∧ key nd = fp ++ str "::" ++ title
            ∧ key (RemoteCaseNode cfg i CASE a' title (Some suite) cfs)
              = fp ++ str "::" ++ title.
Proof.
  intros fp. split.
  - unfold LocalCaseNode. rewrite feature_not_root.
    cbn [mbind result_bind]. eexists. split; [reflexivity|].
    cbn [key local_key]. rewrite remove_all_feature_suffix by done.
    split; [done|]. cbn. by rewrite Hpar.
  - intros suite title Hsuite Hstrip Htitle.
    unfold LocalCaseNode. rewrite feature_not_root, Hstrip.
    destruct title as [|c title]; [done|].
    cbn [mbind result_bind]. eexists. split; [reflexivity|].
    cbn [key local_key]. rewrite remove_all_feature_suffix by done.
    split; [done|]. cbn. by rewrite Hsuite.
Qed.

Lemma local_and_remote_keys_agree_witness :
  key (RemoteCaseNode Scenario.cfg (Some 1) SUITE NONE (str "A")
         (Some (store Scenario.remote_root 0%nat)) None) = str "A"
  ∧ ∃ nd, LocalCaseNode Scenario.cfg (str "A.feature") (str "X") CASE
                        NONE [] = Ok nd
          ∧ key nd = str "A::X".
Proof.
  destruct (local_and_remote_keys_agree Scenario.cfg dot (str "A")
              (store Scenario.remote_root 0%nat) (Some 1) NONE NONE []
              None)
    as [(nd & _ & _ & Hr) Hcase]; [reflexivity| |].
  { apply (bool_decide_unpack _). vm_compute. exact I. }
  split; [exact Hr|].
  destruct (Hcase (store Scenario.remote_tree 1%nat) (str "X"))
    as (nd' & Hl & Hk & _); [reflexivity|reflexivity|done|].
  exists nd'. split; [exact Hl|exact Hk].
Defined.

(** A directory and a feature file of the same base name, as [A] and
    [A.feature], give suite nodes with the same key. *)
Theorem directory_and_file_keys_collide (cfg : Config) (p : list ascii)
  (a : Action) (dat : list (list ascii * list ascii))
  (Hdot : dot_char ∉ p) :
  ∃ nd nf, LocalCaseNode cfg p [] SUITE a dat = Ok nd
           ∧ LocalCaseNode cfg (p ++ str ".feature") [] SUITE a dat = Ok nf
           ∧ key nd = p ∧ key nf = p.
Proof.
  unfold LocalCaseNode. rewrite feature_not_root, no_dot_not_root by done.
  cbn [mbind result_bind]. eexists. eexists.
  split; [reflexivity|]. split; [reflexivity|].
  cbn [key local_key]. rewrite remove_all_feature_suffix by done.
  by rewrite remove_all_no_dot.
Qed.

Lemma directory_and_file_keys_collide_witness :
  ∃ nd nf, LocalCaseNode Scenario.cfg (str "A") [] SUITE NONE [] = Ok nd
           ∧ LocalCaseNode Scenario.cfg (str "A" ++ str ".feature") []
                           SUITE NONE [] = Ok nf
           ∧ key nd = str "A" ∧ key nf = str "A".
Proof.
  apply (directory_and_file_keys_collide Scenario.cfg (str "A")).
  apply (bool_decide_unpack _). vm_compute. exact I.
Defined.

End KeyFacts.


(** ** Removing a node from a tree *)

Module DeleteFacts.
Import PyStr CaseTree TreeSpec HierSpec DiffFacts.

Section DictDel.
Context {K V : Type} `{EqDecision K}.
Implicit Types (d : list (K * V)) (k : K) (v : V).

Lemma dict_get_del_ne d k k' :
  k ≠ k' → dict_get (dict_del d k) k' = dict_get d k'.
Proof.
  intros Hne. induction d as [|[k0 v0] d IH]; simpl; [done|].
  destruct (decide (k0 = k)) as [->|Hk0]; simpl.
  - by rewrite decide_False.
  - destruct (decide (k0 = k')); [done|apply IH].
Qed.

Lemma dict_get_del_eq d k :
  NoDup d.*1 → dict_get (dict_del d k) k = None.
Proof.
  induction d as [|[k0 v0] d IH]; simpl; [done|].
  intros Hnd. change (NoDup (k0 :: d.*1)) in Hnd.
  apply NoDup_cons in Hnd as [Hk0 Hnd].
  destruct (decide (k0 = k)) as [->|Hne]; simpl.
  - by apply dict_get_None_notin.
  - rewrite decide_False by done. by apply IH.
Qed.

Lemma dict_del_snoc d k v :
  dict_get d k = None → dict_del (d ++ [(k, v)]) k = d.
Proof.
  induction d as [|[k0 v0] d IH]; simpl.
  - intros _. by rewrite decide_True.
  - destruct (decide (k0 = k)); [done|]. intros Hd. by rewrite IH.
Qed.

End DictDel.

Lemma detach_root (node : nid) (s : Shape) :
  shape_root (detach node s) = shape_root s.
Proof. by destruct s. Qed.

Lemma detach_eq (node n : nid) (ks : list Shape) :
  detach node (Sh n ks)
  = Sh n (detach node
            <$> List.filter
                  (fun k => negb (bool_decide (shape_root k = node))) ks).
Proof.
  cbn [detach]. f_equal. induction ks as [|k ks IH]; [done|].
  rewrite IH. simpl. by destruct (bool_decide (shape_root k = node)).
Qed.

Lemma detach_sub (node : nid) (s : Shape) (y : nid) :
  y ∈ PreOrderIter (detach node s) → y ∈ PreOrderIter s.
Proof.
  revert y. induction s as [n ks IH] using Shape_ind'. intros y.
  rewrite detach_eq. cbn [PreOrderIter].
  intros Hy. apply elem_of_cons in Hy as [->|Hy]; [left|right].
  apply elem_of_flat_map in Hy as (k' & Hk' & Hy).
  apply list_elem_of_fmap in Hk' as (k & -> & Hk).
  apply list_elem_of_In, filter_In in Hk as [Hk _].
  apply list_elem_of_In in Hk.
  apply elem_of_flat_map. exists k. split; [done|].
  rewrite Forall_forall in IH. by apply IH.
Qed.

Lemma detach_removes (node : nid) (s : Shape) :
  node ≠ shape_root s → node ∉ PreOrderIter (detach node s).
Proof.
  induction s as [n ks IH] using Shape_ind'. simpl shape_root.
  intros Hne. rewrite detach_eq. cbn [PreOrderIter].
  intros Hin. apply elem_of_cons in Hin as [->|Hin]; [done|].
  apply elem_of_flat_map in Hin as (k' & Hk' & Hin).
  apply list_elem_of_fmap in Hk' as (k & -> & Hk).
  apply list_elem_of_In, filter_In in Hk as [Hk Hroot].
  apply list_elem_of_In in Hk. apply negb_true_iff in Hroot.
  apply bool_decide_eq_false in Hroot.
  rewrite Forall_forall in IH. apply (IH k Hk); [by intros ->|done].
Qed.

Lemma detach_absent (node : nid) (s : Shape) :
  node ∉ PreOrderIter s → detach node s = s.
Proof.
  induction s as [n ks IH] using Shape_ind'. cbn [PreOrderIter].
  intros Hn. apply not_elem_of_cons in Hn as [_ Hn].
  cbn [detach]. f_equal.
  induction ks as [|k ks IHks]; [done|].
  apply Forall_cons in IH as [IHk IH].
  simpl in Hn. apply not_elem_of_app in Hn as [Hk Hks].
  rewrite bool_decide_eq_false_2.
  - rewrite IHk by done. f_equal. by apply IHks.
  - intros <-. apply Hk. apply root_in_preorder.
Qed.

(** When the node is in both indices, [delete_node] succeeds: the
    entries under the node's key and identifier are gone, every other
    entry stays (also those of the nodes below it: nothing cascades),
    attributes are untouched, and the node, unless it is the root, is
    no longer in the tree. *)
Theorem delete_node_done (t : Tree) (node : nid) (i : option Z)
  (Hkeys : keys_unique t) (Hids : NoDup (id_map t).*1)
  (Hk : is_Some (get_node_by_key t (key (store t node))))
  (Hpk : pk (store t node) = Some i)
  (Hi : is_Some (get_node_by_suite_id t i)) :
  ∃ t', delete_node t node = (t', Ok ())
    ∧ get_node_by_key t' (key (store t node)) = None
    ∧ get_node_by_suite_id t' i = None
    ∧ (∀ k, k ≠ key (store t node) →
            get_node_by_key t' k = get_node_by_key t k)
    ∧ (∀ j, j ≠ i → get_node_by_suite_id t' j = get_node_by_suite_id t j)
    ∧ store t' = store t ∧ root t' = root t
    ∧ (∀ y, y ∈ nodes t' → y ∈ nodes t)
    ∧ (node ≠ root t → node ∉ nodes t').
Proof.
  destruct Hk as [nk Hk]. destruct Hi as [ni Hi].
  unfold get_node_by_key, get_node_by_suite_id in *.
  unfold delete_node, dict_pop, get_pk. rewrite Hk, Hpk. cbn [id_map].
  rewrite Hi. eexists. split; [reflexivity|].
  cbn [key_map id_map store hier]. unfold root, nodes. cbn [hier].
  split; [by apply dict_get_del_eq|]. split; [by apply dict_get_del_eq|].
  split; [intros k Hne; by apply dict_get_del_ne|].
  split; [intros j Hne; by apply dict_get_del_ne|].
  split; [done|]. split; [apply detach_root|].
  split; [intros y; apply detach_sub|apply detach_removes].
Qed.

Lemma delete_node_done_witness :
  ∃ t', delete_node Scenario.remote_tree 3%nat = (t', Ok ())
        ∧ get_node_by_key t' (str "C") = None
        ∧ get_node_by_key t' (str "C::Z") = Some 4%nat
        ∧ 3%nat ∉ nodes t'.
Proof.
  destruct (delete_node_done Scenario.remote_tree 3%nat (Some 2))
    as (t' & Hrun & Hk & _ & Hother & _ & _ & _ & _ & Hgone).
  1,2: apply (bool_decide_unpack _); vm_compute; exact I.
  1,3: by eexists.
  { reflexivity. }
  exists t'. split; [exact Hrun|]. split; [exact Hk|].
  split; [rewrite Hother; [reflexivity|done]|].
  by apply Hgone.
Defined.

(** [delete_node] can stop half-way.  With the key missing it raises
    [KeyError] and nothing has changed.  With the key there but no [pk]
    attribute on the node, or a [pk] that is not in [id_map] (as for
    every node added by [add_remote_case]), it raises after the entry
    of the key index is gone, with the node still in the tree. *)
Theorem delete_node_failures (t : Tree) (node : nid) :
  let k := key (store t node) in
  let cut := mkTree (hier t) (store t) (id_map t)
                    (dict_del (key_map t) k) in
  (get_node_by_key t k = None →
   delete_node t node = (t, Raise KeyError))
  ∧ (is_Some (get_node_by_key t k) → pk (store t node) = None →
     delete_node t node = (cut, Raise AttributeError))
  ∧ (∀ i, is_Some (get_node_by_key t k) → pk (store t node) = Some i →
          get_node_by_suite_id t i = None →
          delete_node t node = (cut, Raise KeyError)).
Proof.
  intros k cut. unfold get_node_by_key, get_node_by_suite_id, delete_node,
    dict_pop, get_pk. fold k.
  split; [by intros ->|]. split.
  - intros [n ->] ->. done.
  - intros i [n ->] -> Hi. cbn [id_map]. by rewrite Hi.
Qed.

(** Taking out a node that was just added gives the tree back: for a
    node that is not in the tree, has a true identifier, and whose key
    and identifier are new to the indices, [delete_node] after
    [add_node] succeeds and returns the tree as it was. *)
Theorem add_node_then_delete_node (t : Tree) (node : nid)
  (Hout : node ∉ nodes t)
  (Hpk : truthy (getattr_pk (store t node)) = true)
  (Hk : get_node_by_key t (key (store t node)) = None)
  (Hi : get_node_by_suite_id t (getattr_pk (store t node)) = None) :
  delete_node (add_node t node) node = (t, Ok ()).
Proof.
  unfold get_node_by_key, get_node_by_suite_id in *.
  unfold add_node. rewrite Hpk.
  unfold delete_node, dict_pop, get_pk. cbn [key_map id_map store hier].
  rewrite dict_get_set_eq.
  destruct (pk (store t node)) as [i|] eqn:Hattr.
  2:{ unfold getattr_pk in Hpk. by rewrite Hattr in Hpk. }
  unfold getattr_pk in *. rewrite Hattr in *.
  rewrite dict_get_set_eq.
  rewrite !dict_set_fresh by done. rewrite !dict_del_snoc by done.
  rewrite detach_absent by done. by destruct t.
Qed.

Lemma add_node_then_delete_node_witness :
  let t := upd_node Scenario.remote_root 5%nat
             (fun _ => RemoteCaseNode Scenario.cfg (Some 8) SUITE NONE
                         (str "S") (Some (store Scenario.remote_root 0%nat))
                         None) in
  delete_node (add_node t 5%nat) 5%nat = (t, Ok ()).
Proof.
  apply add_node_then_delete_node.
  - apply (bool_decide_unpack _). vm_compute. exact I.
  - reflexivity.
  - reflexivity.
  - reflexivity.
Defined.

End DeleteFacts.


(** ** The levels of a tree *)

Module LevelFacts.
Import PyStr CaseTree TreeSpec HierSpec ApplySpec PlanSpec DiffFacts.

Lemma shape_size_pos (s : Shape) : (1 ≤ shape_size s)%nat.
Proof. destruct s. simpl. lia. Qed.

Lemma size_cons_pos (s : Shape) (l : list Shape) :
  (1 ≤ list_sum (map shape_size (s :: l)))%nat.
Proof.
  pose proof (shape_size_pos s). cbn [map]. unfold list_sum.
  cbn [fold_right]. lia.
Qed.

Lemma size_kids (l : list Shape) :
  (list_sum (map shape_size (flat_map shape_kids l)) + length l
   = list_sum (map shape_size l))%nat.
Proof.
  induction l as [|[n ks] l IH]; [done|].
  cbn [flat_map shape_kids]. rewrite map_app, list_sum_app.
  cbn [map shape_size length].
  unfold list_sum in *. cbn [fold_right]. lia.
Qed.

Lemma roots_and_below (l : list Shape) :
  map shape_root l ++ flat_map PreOrderIter (flat_map shape_kids l)
  ≡ₚ flat_map PreOrderIter l.
Proof.
  induction l as [|[n ks] l IH]; [done|].
  cbn [map flat_map shape_root shape_kids PreOrderIter].
  rewrite flat_map_app. rewrite <- IH.
  rewrite <- !app_comm_cons. constructor.
  rewrite !app_assoc. f_equiv. apply Permutation_app_comm.
Qed.

Lemma level_groups_perm (fuel : nat) (l : list Shape) :
  (list_sum (map shape_size l) ≤ fuel)%nat →
  concat (level_groups fuel l) ≡ₚ flat_map PreOrderIter l.
Proof.
  revert l. induction fuel as [|fuel IH]; intros l Hsize.
  - destruct l as [|s l]; [done|].
    pose proof (size_cons_pos s l). lia.
  - destruct l as [|s l]; [done|].
    change (level_groups (S fuel) (s :: l))
      with (map shape_root (s :: l)
              :: level_groups fuel (flat_map shape_kids (s :: l))).
    cbn [concat]. rewrite IH.
    + apply roots_and_below.
    + pose proof (size_kids (s :: l)) as Hk. cbn [length] in Hk. lia.
Qed.

Lemma concat_rev_perm {A : Type} (ls : list (list A)) :
  concat (rev ls) ≡ₚ concat ls.
Proof.
  induction ls as [|l ls IH]; [done|].
  cbn [rev concat]. rewrite concat_app. cbn [concat].
  rewrite app_nil_r, IH. apply Permutation_app_comm.
Qed.

(** The level grouping loses no node and repeats none: the levels, put
    end to end, are the nodes of the pre-order in another order, and so
    is their bottom-up sequence. *)
Theorem levels_cover (s : Shape) :
  concat (group_nodes_by_level s) ≡ₚ PreOrderIter s
  ∧ concat (rev (group_nodes_by_level s)) ≡ₚ PreOrderIter s.
Proof.
  assert (concat (group_nodes_by_level s) ≡ₚ PreOrderIter s) as H.
  { unfold group_nodes_by_level, LevelOrderGroupIter.
    rewrite level_groups_perm by (simpl; lia).
    simpl. by rewrite app_nil_r. }
  split; [done|]. by rewrite concat_rev_perm.
Qed.

Lemma level_kid (fuel : nat) (l : list Shape) (sub k : Shape) :
  (list_sum (map shape_size l) ≤ fuel)%nat →
  sub ∈ flat_map subshapes l → k ∈ shape_kids sub →
  ∃ L1 a b L2, level_groups fuel l = L1 ++ a :: b :: L2
               ∧ shape_root sub ∈ a ∧ shape_root k ∈ b.
Proof.
  revert l sub k. induction fuel as [|fuel IH]; intros l sub k Hsize Hsub Hk.
  { destruct l as [|s l]; [by apply elem_of_nil in Hsub|].
    pose proof (size_cons_pos s l). lia. }
  destruct l as [|s l]; [by apply elem_of_nil in Hsub|].
  change (level_groups (S fuel) (s :: l))
    with (map shape_root (s :: l)
            :: level_groups fuel (flat_map shape_kids (s :: l))).
  pose proof (size_kids (s :: l)) as Hkids. cbn [length] in Hkids.
  set (l0 := s :: l) in *. set (l' := flat_map shape_kids l0) in *.
  apply elem_of_flat_map in Hsub as (s0 & Hs0 & Hsub).
  destruct s0 as [n0 ks0]. cbn [subshapes] in Hsub.
  apply elem_of_cons in Hsub as [->|Hsub].
  - cbn [shape_kids shape_root] in *.
    assert (k ∈ l') as Hk'.
    { apply elem_of_flat_map. by exists (Sh n0 ks0). }
    destruct l' as [|s1 l1] eqn:El'; [by apply elem_of_nil in Hk'|].
    destruct fuel as [|fuel].
    { pose proof (size_cons_pos s1 l1). lia. }
    change (level_groups (S fuel) (s1 :: l1))
      with (map shape_root (s1 :: l1)
              :: level_groups fuel (flat_map shape_kids (s1 :: l1))).
    exists [], (map shape_root l0), (map shape_root (s1 :: l1)).
    eexists. split; [reflexivity|]. split.
    + apply (list_elem_of_fmap_2 shape_root) in Hs0. exact Hs0.
    + apply (list_elem_of_fmap_2 shape_root) in Hk'. exact Hk'.
  - assert (sub ∈ flat_map subshapes l') as Hsub'.
    { apply elem_of_flat_map in Hsub as (k0 & Hk0 & Hsub).
      apply elem_of_flat_map. exists k0. split; [|done].
      apply elem_of_flat_map. by exists (Sh n0 ks0). }
    destruct (IH l' sub k) as (L1 & a & b & L2 & HL & Ha & Hb);
      [lia|done|done|].
    exists (map shape_root l0 :: L1), a, b, L2. by rewrite HL.
Qed.

Lemma parent_of_subshape (s : Shape) (c p : nid) :
  parent_of c s = Some p →
  ∃ sub k, sub ∈ subshapes s ∧ shape_root sub = p
           ∧ k ∈ shape_kids sub ∧ shape_root k = c.
Proof.
  revert c p. induction s as [n ks IH] using Shape_ind'. intros c p.
  rewrite parent_of_eq. destruct (is_kid c ks) eqn:Hkid.
  - intros [= <-]. apply is_kid_true in Hkid.
    apply list_elem_of_fmap in Hkid as (k & -> & Hk).
    exists (Sh n ks), k. cbn [subshapes]. split; [left|done].
  - intros Hp. apply first_parent_Some in Hp as (k0 & Hk0 & Hp).
    rewrite Forall_forall in IH.
    destruct (IH k0 Hk0 _ _ Hp) as (sub & k & Hsub & Hr & Hk & Hc).
    exists sub, k. split; [|done]. cbn [subshapes]. right.
    apply elem_of_flat_map. by exists k0.
Qed.

Lemma before_concat_rev {A : Type} (L1 L2 : list (list A))
  (a b : list A) (x y : A) :
  x ∈ b → y ∈ a → before (concat (rev (L1 ++ a :: b :: L2))) x y.
Proof.
  intros Hx Hy.
  apply list_elem_of_split in Hx as (b1 & b2 & ->).
  apply list_elem_of_split in Hy as (a1 & a2 & ->).
  exists (concat (rev L2) ++ b1), (b2 ++ a1), (a2 ++ concat (rev L1)).
  rewrite rev_app_distr. cbn [rev]. rewrite !concat_app. cbn [concat].
  rewrite !app_nil_r. rewrite <- !app_assoc. cbn [app]. reflexivity.
Qed.

Lemma bottom_up_order (t : Tree) (c p : nid) :
  parent_of c (hier t) = Some p → before (bottom_up t) c p.
Proof.
  intros Hp. apply parent_of_subshape in Hp as (sub & k & Hsub & <- & Hk & <-).
  unfold bottom_up, group_nodes_by_level, LevelOrderGroupIter.
  destruct (level_kid (shape_size (hier t)) [hier t] sub k)
    as (L1 & a & b & L2 & -> & Ha & Hb).
  - simpl. lia.
  - simpl. by rewrite app_nil_r.
  - done.
  - by apply before_concat_rev.
Qed.

(** From the deepest level up, every node comes before its parent. *)
Theorem children_first (t : Tree) (c p : nid)
  (Hp : parent_of c (hier t) = Some p) :
  before (bottom_up t) c p.
Proof. by apply bottom_up_order. Qed.

Lemma children_first_witness :
  before (bottom_up Scenario.remote_tree) 4%nat 3%nat.
Proof. apply children_first. reflexivity. Defined.

End LevelFacts.

(** ** Applying a merged tree *)

Module ApplyFacts.
Import PyStr CaseTree TreeSpec HierSpec ApplySpec PlanSpec DiffFacts.

Lemma bind_get {B : Type} (k : Tree → M B) (w : World) :
  bindM get_tree k w = k (w_tree w) w.
Proof. reflexivity. Qed.

Lemma bind_lift {A B : Type} (r : result A) (k : A → M B) (w : World) :
  bindM (liftM r) k w
  = match r with Ok a => k a w | Raise e => (w, Raise e) end.
Proof. unfold bindM, liftM. by destruct r. Qed.

Lemma bind_call {B : Type} (svc : Service) (node : nid) (c : Call)
  (k : Z → M B) (w : World) :
  bindM (call svc node c) k w
  = match svc (calls_of (w_log w)) c with
    | Ok i =>
        k i (mkWorld (w_tree w) (w_log w ++ [Called node c (Ok i)]))
    | Raise e =>
        (mkWorld (w_tree w) (w_log w ++ [Called node c (Raise e)]), Raise e)
    end.
Proof. unfold bindM, call. by destruct (svc _ c). Qed.

Lemma get_pk_raises (nd : Node) (e : exn) :
  get_pk nd = Raise e → e = AttributeError.
Proof. unfold get_pk. destruct (pk nd); congruence. Qed.

Lemma parent_pk_raises (t : Tree) (node : nid) (e : exn) :
  parent_pk t node = Raise e → e = AttributeError.
Proof.
  unfold parent_pk. destruct (parent_of node (hier t)); [|congruence].
  apply get_pk_raises.
Qed.

Lemma delete_node_facts (t t' : Tree) (node : nid) (r : result unit) :
  delete_node t node = (t', r) →
  store t' = store t
  ∧ (r = Ok () ∨ r = Raise KeyError ∨ r = Raise AttributeError).
Proof.
  unfold delete_node, dict_pop, get_pk.
  destruct (dict_get (key_map t) (key (store t node)));
    [|intros [= <- <-]; auto].
  destruct (pk (store t node)); [|intros [= <- <-]; auto].
  cbn [id_map]. destruct (dict_get (id_map t) o);
    intros [= <- <-]; auto.
Qed.

Lemma assign_pk_run (node : nid) (i : option Z) (w : World) :
  assign_pk node i w
  = (mkWorld (upd_node (w_tree w) node (set_pk i)) (w_log w), Ok ()).
Proof. reflexivity. Qed.

Lemma store_set_pk_action (t : Tree) (node : nid) (i : option Z) (y : nid) :
  action (store (upd_node t node (set_pk i)) y) = action (store t y).
Proof.
  unfold upd_node, upd. simpl. by destruct (decide (y = node)) as [->|].
Qed.

Lemma store_set_pk_other (t : Tree) (node : nid) (i : option Z) (y : nid) :
  y ≠ node → store (upd_node t node (set_pk i)) y = store t y.
Proof. intros Hy. unfold upd_node, upd. simpl. by rewrite decide_False. Qed.

Lemma store_set_pk_self (t : Tree) (node : nid) (i : option Z) :
  pk (store (upd_node t node (set_pk i)) node) = Some i.
Proof. unfold upd_node, upd. simpl. by rewrite decide_True. Qed.

(** A create or update: the parent identifier is read, the call made,
    and the identifier it returns stored. *)
Lemma write_acted (svc : Service) (node : nid) (w w1 : World)
  (r : result unit) (mk : option Z → Call) :
  action (store (w_tree w) node) ≠ DELETE →
  (∀ pp, call_parent (mk pp) = Some pp) →
  bindM (liftM (parent_pk (w_tree w) node))
        (fun pp => bindM (call svc node (mk pp))
                         (fun i => assign_pk node (Some i))) w = (w1, r) →
  acted svc Raise node w w1 r.
Proof.
  intros Hact Hmk. rewrite bind_lift.
  destruct (parent_pk (w_tree w) node) as [pp|e] eqn:Hpp.
  - rewrite bind_call.
    destruct (svc (calls_of (w_log w)) (mk pp)) as [i|e] eqn:Hans.
    + rewrite assign_pk_run. cbn [w_tree w_log]. intros [= <- <-].
      split; [intros y; apply store_set_pk_action|].
      split; [intros y; apply store_set_pk_other|].
      split; [done|]. right. right. exists (mk pp). cbn zeta.
      rewrite Hans. cbn [w_tree w_log].
      split; [done|]. split; [done|]. split; [auto|]. intros _.
      split; [by exists pp|]. intros i' [= <-].
      split; [apply store_set_pk_self|done].
    + intros [= <- <-]. split; [done|]. split; [done|]. split; [done|].
      right. right. exists (mk pp). cbn zeta. rewrite Hans.
      cbn [w_tree w_log]. split; [done|].
      split; [by intros e' [= <-]|]. split; [done|]. intros _.
      split; [by exists pp|]. done.
  - intros [= <- <-]. apply parent_pk_raises in Hpp as ->.
    split; [done|]. split; [done|]. split; [done|]. left. auto.
Qed.

(** A delete: the call is made, then the node leaves the tree and its
    indices. *)
Lemma delete_acted (svc : Service) (node : nid) (w w1 : World)
  (r : result unit) (c : Call) :
  action (store (w_tree w) node) = DELETE →
  bindM (call svc node c) (fun _ => do_delete_node node) w = (w1, r) →
  acted svc Raise node w w1 r.
Proof.
  intros Hact. rewrite bind_call.
  destruct (svc (calls_of (w_log w)) c) as [i|e] eqn:Hans.
  - unfold do_delete_node. cbn [w_tree w_log].
    destruct (delete_node (w_tree w) node) as [t' r'] eqn:Hdel.
    intros [= <- <-]. apply delete_node_facts in Hdel as [Hst Hr].
    unfold acted. cbn [w_tree w_log]. rewrite Hst.
    split; [done|]. split; [done|]. split; [done|].
    right. right. exists c. cbn zeta. rewrite Hans.
    split; [done|]. split; [done|]. split; [by intros _ _|]. done.
  - intros [= <- <-]. split; [done|]. split; [done|]. split; [done|].
    right. right. exists c. cbn zeta. rewrite Hans. cbn [w_tree w_log].
    split; [done|]. split; [by intros e' [= <-]|]. split; [done|]. done.
Qed.

Lemma nothing_acted (svc : Service) (out : exn → result unit)
  (node : nid) (w : World) (r : result unit) :
  r = Ok () ∨ r = Raise AttributeError → acted svc out node w w r.
Proof.
  intros Hr. split; [done|]. split; [done|]. split; [done|]. by left.
Qed.


Ltac no_pk_acted H Hpk :=
  injection H as <- <-; apply get_pk_raises in Hpk as ->;
  apply nothing_acted; by right.

Ltac write_case H Hact :=
  eapply write_acted; cycle 2;
  [ exact H | rewrite Hact; discriminate | intros; reflexivity ].

Ltac with_pk H tac :=
  let Hpk := fresh "Hpk" in
  rewrite bind_lift in H;
  match type of H with
  | context [get_pk ?nd] => destruct (get_pk nd) eqn:Hpk
  end;
  [ tac | no_pk_acted H Hpk ].

Ltac entity_acted :=
  let H := fresh "H" in
  let Hact := fresh "Hact" in
  intros H; rewrite bind_get in H;
  match type of H with
  | context [action ?nd] => destruct (action nd) eqn:Hact
  end;
  [ injection H as <- <-; apply nothing_acted; by left
  | write_case H Hact
  | with_pk H ltac:(write_case H Hact)
  | with_pk H ltac:(apply (delete_acted _ _ _ _ _ _ Hact H)) ].

Lemma on_suite_acted (svc : Service) (node : nid) (w w1 : World)
  (r : result unit) :
  perform_action_on_suite svc node w = (w1, r) →
  acted svc Raise node w w1 r.
Proof. unfold perform_action_on_suite. entity_acted. Qed.

Lemma on_case_acted (svc : Service) (node : nid) (w w1 : World)
  (r : result unit) :
  perform_action_on_case svc node w = (w1, r) →
  acted svc Raise node w w1 r.
Proof. unfold perform_action_on_case. entity_acted. Qed.

Lemma surfaced_internal (r : result unit) :
  r = Ok () ∨ r = Raise KeyError ∨ r = Raise AttributeError →
  match r with Ok a => Ok a | Raise e => surfaced e end = r.
Proof. intros [->|[->| ->]]; reflexivity. Qed.

Lemma catch_run (m : M unit) (w : World) :
  catchM m
    (fun err =>
       match err with
       | BadRequestException msg =>
           if no_changes msg then retM () else raiseM err
       | _ => raiseM err
       end) w
  = (fst (m w),
     match snd (m w) with Ok a => Ok a | Raise e => surfaced e end).
Proof.
  unfold catchM, surfaced, fatal, retM, raiseM.
  destruct (m w) as [w1 [a|e]]; [done|]. simpl.
  destruct e; try done. by destruct (no_changes msg).
Qed.

Lemma acted_caught (svc : Service) (node : nid) (w w1 : World)
  (r : result unit) :
  acted svc Raise node w w1 r →
  acted svc surfaced node w w1
        (match r with Ok a => Ok a | Raise e => surfaced e end).
Proof.
  intros (A1 & A2 & A3 & A4). split; [done|]. split; [done|].
  split; [done|].
  destruct A4 as [[Hl Hr]|[(Hl & -> & Ht)|(c & Hl & He & Hi & Hw)]].
  - left. split; [done|]. destruct Hr as [->| ->]; auto.
  - right. left. done.
  - right. right. exists c. cbn zeta in *. split; [done|]. split.
    + intros e Hans. destruct (He e Hans) as [Ht ->]. done.
    + split.
      * intros i Hans. rewrite surfaced_internal; by apply (Hi i).
      * intros Hact. destruct (Hw Hact) as [Hpp Hok]. split; [done|].
        intros i Hans. destruct (Hok i Hans) as [Hpk ->]. done.
Qed.

(** [perform_action] for one node. *)
Lemma perform_action_acted (svc : Service) (rsid : option Z) (dry : bool)
  (node : nid) (w w1 : World) (r : result unit) :
  perform_action svc rsid dry node w = (w1, r) →
  acted svc surfaced node w w1 r.
Proof.
  unfold perform_action. rewrite catch_run.
  destruct dry.
  { intros [= <- <-]. cbn. split; [done|]. split; [done|]. split; [done|].
    right. left. done. }
  rewrite bind_get.
  destruct ((bool_decide (entity (store (w_tree w) node) = REPOSITORY)
             || bool_decide (entity (store (w_tree w) node) = SUITE))
            && is_dot (filepath (store (w_tree w) node))).
  { rewrite assign_pk_run. cbn [fst snd]. intros [= <- <-].
    split; [intros y; apply store_set_pk_action|].
    split; [intros y; apply store_set_pk_other|].
    split; [done|]. left. auto. }
  destruct (entity (store (w_tree w) node)).
  - intros [= <- <-]. cbn. apply nothing_acted. by left.
  - destruct (perform_action_on_suite svc node w) as [w2 r2] eqn:Hs.
    cbn [fst snd]. intros [= <- <-].
    apply acted_caught. by apply on_suite_acted.
  - destruct (perform_action_on_case svc node w) as [w2 r2] eqn:Hs.
    cbn [fst snd]. intros [= <- <-].
    apply acted_caught. by apply on_case_acted.
Qed.


(** *** Loops *)

Lemma for_each_cons {A : Type} (a : A) (l : list A) (body : A → M unit)
  (w : World) :
  for_each (a :: l) body w
  = match body a w with
    | (w1, Ok _) => for_each l body w1
    | (w1, Raise e) => (w1, Raise e)
    end.
Proof. reflexivity. Qed.

Lemma for_each_concat {A : Type} (ls : list (list A)) (body : A → M unit)
  (w : World) :
  for_each ls (fun l => for_each l body) w = for_each (concat ls) body w.
Proof.
  revert w. induction ls as [|l ls IH]; intros w; [done|].
  rewrite for_each_cons. cbn [concat].
  revert w. induction l as [|a l IHl]; intros w.
  - cbn. apply IH.
  - cbn [app]. rewrite !for_each_cons.
    destruct (body a w) as [w1 [[]|e]]; [apply IHl|done].
Qed.

(** *** Failures *)

Lemma halts_refl (w : World) : halts_at_failure w w (Ok ()).
Proof.
  exists []. rewrite app_nil_r. split; [done|]. split; [|done].
  intros i n c e Hi. by destruct i.
Qed.

Lemma halts_trans (w w1 w2 : World) (r : result unit) :
  halts_at_failure w w1 (Ok ()) → halts_at_failure w1 w2 r →
  halts_at_failure w w2 r.
Proof.
  intros (ev1 & Hl1 & Ha1 & _) (ev2 & Hl2 & Ha2 & Hb2).
  exists (ev1 ++ ev2). split; [by rewrite Hl2, Hl1, app_assoc|]. split.
  - intros i n c e Hi Hf. apply lookup_app_Some in Hi as [Hi|[Hle Hi]].
    + by destruct (Ha1 _ _ _ _ Hi Hf).
    + destruct (Ha2 _ _ _ _ Hi Hf) as [-> Hlen]. split; [done|].
      rewrite length_app. lia.
  - intros e He. destruct (Hb2 e He) as [?|[?|(Hf & n & c & Hlast)]]; auto.
    right. right. split; [done|]. exists n, c.
    destruct ev2 as [|e2 ev2]; [done|].
    by rewrite last_app_cons.
Qed.

Lemma acted_halts (svc : Service) (node : nid) (w w1 : World)
  (r : result unit) :
  acted svc surfaced node w w1 r → halts_at_failure w w1 r.
Proof.
  intros (_ & _ & _ & [[Hl Hr]|[(Hl & -> & _)|(c & Hl & He & Hok & _)]]).
  - exists []. rewrite app_nil_r. split; [done|]. split.
    + intros i n c e Hi. by destruct i.
    + intros e ->. destruct Hr as [?|[= <-]]; [done|by left].
  - exists [Printed node]. split; [done|]. split; [|done].
    intros [|i] n c e Hi; [done|by destruct i].
  - cbn zeta in *. eexists. split; [exact Hl|]. split.
    + intros [|i] n c' e Hi Hf; [|by destruct i].
      injection Hi as <- <- Hans. destruct (He e Hans) as [_ ->].
      unfold surfaced. by rewrite Hf.
    + intros e ->.
      destruct (svc (calls_of (w_log w)) c) as [i|e'] eqn:Hans.
      * destruct (Hok i eq_refl) as [?|[[= <-]|[= <-]]]; [done|auto..].
      * destruct (He e' eq_refl) as [_ Hr]. unfold surfaced in Hr.
        destruct (fatal e') eqn:Hf; [|done]. injection Hr as ->.
        right. right. split; [done|]. by exists node, c.
Qed.

Lemma for_each_halts {A : Type} (l : list A) (body : A → M unit) :
  (∀ a w w1 r, body a w = (w1, r) → halts_at_failure w w1 r) →
  ∀ w w' r, for_each l body w = (w', r) → halts_at_failure w w' r.
Proof.
  intros Hbody. induction l as [|a l IH]; intros w w' r.
  - intros [= <- <-]. apply halts_refl.
  - rewrite for_each_cons. destruct (body a w) as [w1 [[]|e]] eqn:Hstep.
    + intros Hrest. apply (halts_trans _ w1); [by apply Hbody in Hstep|].
      by apply IH.
    + intros [= <- <-]. by apply Hbody in Hstep.
Qed.

Lemma top_down_step (svc : Service) (rsid : option Z) (dry : bool)
  (node : nid) (w w1 : World) (r : result unit) :
  push_top_down svc rsid dry node w = (w1, r) →
  (w1 = w ∧ r = Ok ())
  ∨ ((action (store (w_tree w) node) = CREATE
      ∨ action (store (w_tree w) node) = UPDATE)
     ∧ acted svc surfaced node w w1 r).
Proof.
  unfold push_top_down. rewrite bind_get.
  destruct (action (store (w_tree w) node)) eqn:Hact.
  - intros [= <- <-]. by left.
  - intros H. right. split; [by left|]. by apply perform_action_acted in H.
  - intros H. right. split; [by right|]. by apply perform_action_acted in H.
  - intros [= <- <-]. by left.
Qed.

Lemma bottom_up_step (svc : Service) (rsid : option Z) (dry : bool)
  (node : nid) (w w1 : World) (r : result unit) :
  push_bottom_up svc rsid dry node w = (w1, r) →
  (w1 = w ∧ r = Ok ())
  ∨ (action (store (w_tree w) node) = DELETE
     ∧ acted svc surfaced node w w1 r).
Proof.
  unfold push_bottom_up. rewrite bind_get.
  destruct (action (store (w_tree w) node)) eqn:Hact.
  1-3: intros [= <- <-]; by left.
  intros H. right. split; [done|]. by apply perform_action_acted in H.
Qed.

(** [push] is its two loops, one after the other. *)
Lemma push_run (svc : Service) (rsid : option Z) (dry : bool) (w : World) :
  push svc rsid dry w
  = match for_each (PreOrderIter (hier (w_tree w)))
                   (push_top_down svc rsid dry) w with
    | (w1, Ok _) =>
        for_each (concat (rev (group_nodes_by_level (hier (w_tree w1)))))
                 (push_bottom_up svc rsid dry) w1
    | (w1, Raise e) => (w1, Raise e)
    end.
Proof.
  unfold push. rewrite bind_get. unfold bindM at 1.
  change (for_each (PreOrderIter (hier (w_tree w))) _ w)
    with (for_each (PreOrderIter (hier (w_tree w)))
                   (push_top_down svc rsid dry) w).
  destruct (for_each _ (push_top_down svc rsid dry) w) as [w1 [[]|e]];
    [|done].
  rewrite bind_get. apply for_each_concat.
Qed.

Lemma push_halts (svc : Service) (rsid : option Z) (dry : bool)
  (w w' : World) (r : result unit) :
  push svc rsid dry w = (w', r) → halts_at_failure w w' r.
Proof.
  rewrite push_run.
  destruct (for_each _ (push_top_down svc rsid dry) w) as [w1 r1] eqn:H1.
  apply for_each_halts in H1.
  2:{ intros a w0 w2 r2 Hs. apply top_down_step in Hs as [[-> ->]|[_ Hs]];
        [apply halts_refl|by apply acted_halts in Hs]. }
  destruct r1 as [[]|e]; [|by intros [= <- <-]].
  intros H2. apply for_each_halts in H2.
  2:{ intros a w0 w2 r2 Hs. apply bottom_up_step in Hs as [[-> ->]|[_ Hs]];
        [apply halts_refl|by apply acted_halts in Hs]. }
  by apply (halts_trans _ w1).
Qed.

(** *** Dry runs *)

Lemma world_eta (w : World) : mkWorld (w_tree w) (w_log w) = w.
Proof. by destruct w. Qed.

Lemma for_each_prints (f : Tree → nid → bool) (body : nid → M unit) :
  (∀ n w, body n w
          = if f (w_tree w) n
            then (mkWorld (w_tree w) (w_log w ++ [Printed n]), Ok ())
            else (w, Ok ())) →
  ∀ l w, for_each l body w
         = (mkWorld (w_tree w)
                    (w_log w ++ (Printed <$> List.filter (f (w_tree w)) l)),
            Ok ()).
Proof.
  intros Hbody. induction l as [|n l IH]; intros w.
  - cbn. by rewrite app_nil_r, world_eta.
  - rewrite for_each_cons, Hbody. cbn [List.filter].
    destruct (f (w_tree w) n).
    + rewrite IH. cbn [w_tree w_log]. by rewrite <- app_assoc.
    + apply IH.
Qed.

Lemma top_down_dry (svc : Service) (rsid : option Z) (n : nid) (w : World) :
  push_top_down svc rsid true n w
  = if writes (w_tree w) n
    then (mkWorld (w_tree w) (w_log w ++ [Printed n]), Ok ())
    else (w, Ok ()).
Proof.
  unfold push_top_down, writes. rewrite bind_get.
  by destruct (action (store (w_tree w) n)).
Qed.

Lemma bottom_up_dry (svc : Service) (rsid : option Z) (n : nid)
  (w : World) :
  push_bottom_up svc rsid true n w
  = if deletes (w_tree w) n
    then (mkWorld (w_tree w) (w_log w ++ [Printed n]), Ok ())
    else (w, Ok ()).
Proof.
  unfold push_bottom_up, deletes. rewrite bind_get.
  by destruct (action (store (w_tree w) n)).
Qed.

(** A dry run of [push] never fails, calls nothing and leaves the tree
    as it is.  It prints one line for each node to create or update, in
    pre-order, and then one line for each node to delete, from the
    deepest level up. *)
Theorem push_dry_run (svc : Service) (rsid : option Z) (w : World) :
  push svc rsid true w
  = (mkWorld (w_tree w) (w_log w ++ (Printed <$> push_plan (w_tree w))),
     Ok ()).
Proof.
  rewrite push_run.
  rewrite (for_each_prints writes) by apply top_down_dry.
  rewrite (for_each_prints deletes) by apply bottom_up_dry.
  cbn [w_tree w_log]. unfold push_plan, bottom_up.
  by rewrite fmap_app, app_assoc.
Qed.

(** *** Runs that stop at a failure *)

(** In a run of [push] that is not a dry run, nothing done is taken
    back: the log only grows.  A call that fails with anything but a
    [BadRequestException] that says there are no changes is the last
    event of the run, and its exception is the result of [push]; a call
    that fails with that no-change exception does not make [push] fail
    with it.  The only other exceptions that come out are
    [AttributeError] and [KeyError] of the tool itself.  And for each
    node, when the call that [perform_action] makes fails, the tree is
    as before and the result is the exception, or success when it is
    the no-change exception. *)
Theorem push_write_failures (svc : Service) (rsid : option Z) (w : World) :
  let w' := (push svc rsid false w).1 in
  let r := (push svc rsid false w).2 in
  ∃ evs, w_log w' = w_log w ++ evs
    ∧ (∀ i n c e, evs !! i = Some (Called n c (Raise e)) →
         if fatal e then r = Raise e ∧ length evs = S i
         else r ≠ Raise e)
    ∧ (∀ e, r = Raise e →
            e = AttributeError ∨ e = KeyError
            ∨ (fatal e = true
               ∧ ∃ n c, last evs = Some (Called n c (Raise e))))
    ∧ (∀ node w0 w1 r1 c e,
         perform_action svc rsid false node w0 = (w1, r1) →
         w_log w1 = w_log w0 ++ [Called node c (Raise e)] →
         w_tree w1 = w_tree w0
         ∧ r1 = (if fatal e then Raise e else Ok ())).
Proof.
  intros w' r.
  destruct (push_halts svc rsid false w w' r (surjective_pairing _))
    as (evs & Hl & Ha & Hb).
  exists evs. split; [done|]. split; [|split; [done|]].
  - intros i n c e Hi. destruct (fatal e) eqn:Hf; [by apply (Ha i n c)|].
    intros Hr. destruct (Hb e Hr) as [->|[->|[Hf' _]]]; simpl in *;
      congruence.
  - intros node w0 w1 r1 c e Hp Hlog.
    apply perform_action_acted in Hp
      as (_ & _ & _ & [[Hl' _]|[(Hl' & _)|(c' & Hl' & He & _)]]).
    + rewrite Hl' in Hlog. symmetry in Hlog.
      rewrite <- (app_nil_r (w_log w0)) in Hlog at 2.
      by apply app_inv_head in Hlog.
    + rewrite Hl' in Hlog. by apply app_inv_head in Hlog.
    + cbn zeta in *. rewrite Hl' in Hlog. apply app_inv_head in Hlog.
      injection Hlog as -> Hans. apply (He e Hans).
Qed.

End ApplyFacts.


(** ** Deleting a whole tree remotely *)

Module RemoteDeleteFacts.
Import PyStr CaseTree TreeSpec HierSpec ApplySpec PlanSpec DiffFacts.
Import LevelFacts ApplyFacts.

Lemma delete_tree_run (svc : Service) (w : World) :
  delete_tree_remotely svc w
  = for_each (bottom_up (w_tree w)) (delete_step svc) w.
Proof.
  unfold delete_tree_remotely. rewrite bind_get.
  change (for_each (rev (group_nodes_by_level (hier (w_tree w)))) _ w)
    with (for_each (rev (group_nodes_by_level (hier (w_tree w))))
                   (fun level => for_each level (delete_step svc)) w).
  apply for_each_concat.
Qed.

Lemma spared_same_pk (t : Tree) (node : nid) (i j : option Z) :
  pk (store t node) = Some i → pk (store t (root t)) = Some j →
  spared t node
  = bool_decide (i = j) || bool_decide (entity (store t node) = REPOSITORY).
Proof.
  intros Hi Hj. unfold spared. rewrite Hi, Hj. f_equal.
  destruct (decide (i = j)) as [->|Hne].
  - by rewrite !bool_decide_eq_true_2.
  - rewrite !bool_decide_eq_false_2; [done|done|congruence].
Qed.

Lemma deletes_nothing (l : list nid) (w : World) (r : result unit) :
  (r = Ok () → List.filter (fun n => negb (spared (w_tree w) n)) l = []) →
  (∀ e, r = Raise e → e = AttributeError) →
  deletes_in_order l w w r.
Proof.
  intros Hok Hraise. split; [done|]. exists [].
  rewrite app_nil_r. split; [done|]. split.
  { intros ev Hev. by apply elem_of_nil in Hev. }
  split; [intros Hr; by rewrite Hok|]. split.
  - intros j n c e Hj. by destruct j.
  - intros e He. left. by apply Hraise.
Qed.

Lemma deletes_one (svc : Service) (node : nid) (w : World) (i : option Z)
  (c : Call) :
  pk (store (w_tree w) node) = Some i →
  spared (w_tree w) node = false →
  c = delete_of (entity (store (w_tree w) node)) i →
  deletes_in_order [node] w
    (bindM (call svc node c) (fun _ => retM ()) w).1
    (bindM (call svc node c) (fun _ => retM ()) w).2.
Proof.
  intros Hi Hsp ->. rewrite bind_call.
  set (c := delete_of _ i).
  destruct (svc (calls_of (w_log w)) c) as [j|e] eqn:Hans;
    cbn [retM fst snd].
  - split; [done|]. eexists. split; [reflexivity|]. split.
    { intros ev Hev. apply list_elem_of_singleton in Hev as ->.
      by exists node, i, (Ok j). }
    split.
    { intros _. cbn [List.filter]. by rewrite Hsp. }
    split.
    + intros [|k] n c' e Hk; [done|by destruct k].
    + done.
  - split; [done|]. eexists. split; [reflexivity|]. split.
    { intros ev Hev. apply list_elem_of_singleton in Hev as ->.
      by exists node, i, (Raise e). }
    split; [done|]. split.
    + intros [|k] n c' e' Hk; [|by destruct k].
      by injection Hk as <- <- <-.
    + intros e' [= <-]. right. by exists node, c.
Qed.

Lemma delete_step_run (svc : Service) (node : nid) (w : World) :
  deletes_in_order [node] w (delete_step svc node w).1
                   (delete_step svc node w).2.
Proof.
  unfold delete_step. rewrite bind_get, bind_lift. unfold get_pk.
  destruct (pk (store (w_tree w) node)) as [i|] eqn:Hi.
  2:{ cbn [fst snd]. apply deletes_nothing; [done|]. by intros e [= <-]. }
  rewrite bind_lift.
  destruct (pk (store (w_tree w) (root (w_tree w)))) as [j|] eqn:Hj.
  2:{ cbn [fst snd]. apply deletes_nothing; [done|]. by intros e [= <-]. }
  pose proof (spared_same_pk _ _ _ _ Hi Hj) as Hsp.
  destruct (bool_decide (i = j)) eqn:Hij; cbn [retM fst snd].
  { apply deletes_nothing; [|done]. intros _. cbn [List.filter].
    by rewrite Hsp. }
  destruct (entity (store (w_tree w) node)) eqn:He; cbn [retM fst snd].
  - apply deletes_nothing; [|done]. intros _. cbn [List.filter].
    by rewrite Hsp.
  - apply deletes_one with (i := i); [done|by rewrite Hsp|by rewrite He].
  - apply deletes_one with (i := i); [done|by rewrite Hsp|by rewrite He].
Qed.

Lemma deletes_cons (node : nid) (l : list nid) (w w1 w2 : World)
  (r : result unit) :
  deletes_in_order [node] w w1 (Ok ()) → deletes_in_order l w1 w2 r →
  deletes_in_order (node :: l) w w2 r.
Proof.
  intros (Ht1 & ev1 & Hl1 & He1 & Hok1 & Hf1 & _)
         (Ht2 & ev2 & Hl2 & He2 & Hok2 & Hf2 & Hr2).
  cbn zeta in *. rewrite Ht1 in *.
  split; [done|]. exists (ev1 ++ ev2).
  split; [by rewrite Hl2, Hl1, app_assoc|]. split.
  { intros ev Hev. apply elem_of_app in Hev as [Hev|Hev]; auto. }
  split.
  { intros Hr. rewrite fmap_app, Hok1, Hok2 by done.
    change (node :: l) with ([node] ++ l). by rewrite List.filter_app. }
  split.
  - intros j n c e Hj. apply lookup_app_Some in Hj as [Hj|[Hle Hj]].
    + by destruct (Hf1 _ _ _ _ Hj).
    + destruct (Hf2 _ _ _ _ Hj) as [-> Hlen]. split; [done|].
      rewrite length_app. lia.
  - intros e He. destruct (Hr2 e He) as [->|(n & c & Hlast)]; [by left|].
    right. exists n, c. destruct ev2 as [|e2 ev2]; [done|].
    by rewrite last_app_cons.
Qed.

Lemma deletes_stop (node : nid) (l : list nid) (w w1 : World) (e : exn) :
  deletes_in_order [node] w w1 (Raise e) →
  deletes_in_order (node :: l) w w1 (Raise e).
Proof.
  intros (Ht1 & ev1 & Hl1 & He1 & _ & Hf1 & Hr1).
  split; [done|]. exists ev1. done.
Qed.

Lemma for_each_deletes (svc : Service) (l : list nid) (w : World) :
  deletes_in_order l w (for_each l (delete_step svc) w).1
                   (for_each l (delete_step svc) w).2.
Proof.
  revert w. induction l as [|node l IH]; intros w.
  - cbn. by apply deletes_nothing.
  - rewrite for_each_cons.
    pose proof (delete_step_run svc node w) as Hstep.
    destruct (delete_step svc node w) as [w1 [[]|e]]; cbn [fst snd] in *.
    + by apply (deletes_cons _ _ _ w1).
    + by apply deletes_stop.
Qed.

(** [delete_tree_remotely] changes nothing in the tree.  All it calls
    is the delete of nodes whose identifier is not that of the root
    (so never the root), with the node's own identifier, suites through
    the suite service and cases through the case service.  When it ends
    well it has made one such call for each of these nodes, from the
    deepest level up; the first call that fails ends the run with its
    exception, with the deletions made so far done. *)
Theorem delete_tree_remotely_deletes (svc : Service) (w : World) :
  deletes_in_order (bottom_up (w_tree w)) w
                   (delete_tree_remotely svc w).1
                   (delete_tree_remotely svc w).2.
Proof. rewrite delete_tree_run. apply for_each_deletes. Qed.

Lemma before_filter {A : Type} (f : A → bool) (l : list A) (a b : A) :
  before l a b → f a = true → f b = true → before (List.filter f l) a b.
Proof.
  intros (l1 & l2 & l3 & ->) Ha Hb.
  exists (List.filter f l1), (List.filter f l2), (List.filter f l3).
  rewrite List.filter_app. cbn [List.filter]. rewrite Ha.
  rewrite List.filter_app. cbn [List.filter]. by rewrite Hb.
Qed.

(** When [delete_tree_remotely] ends well, a node that it deletes is
    deleted before its parent (if the parent is deleted at all): the
    service never gets the delete of a suite that still has the
    entities this run deletes in it. *)
Theorem delete_tree_children_first (svc : Service) (w : World) (c p : nid)
  (Hok : (delete_tree_remotely svc w).2 = Ok ())
  (Hp : parent_of c (hier (w_tree w)) = Some p)
  (Hc : spared (w_tree w) c = false)
  (Hpp : spared (w_tree w) p = false) :
  ∃ evs, w_log (delete_tree_remotely svc w).1 = w_log w ++ evs
         ∧ before (event_node <$> evs) c p.
Proof.
  rewrite delete_tree_run in *.
  destruct (for_each_deletes svc (bottom_up (w_tree w)) w)
    as (_ & evs & Hl & _ & Hnodes & _).
  exists evs. split; [done|]. rewrite (Hnodes Hok).
  apply before_filter; cbv beta;
    [by apply bottom_up_order|by rewrite Hc|by rewrite Hpp].
Qed.

Lemma delete_tree_children_first_witness :
  ∃ evs, w_log (delete_tree_remotely Scenario.accept_all
                  (mkWorld Scenario.remote_tree [])).1 = [] ++ evs
         ∧ before (event_node <$> evs) 4%nat 3%nat.
Proof.
  apply (delete_tree_children_first Scenario.accept_all
           (mkWorld Scenario.remote_tree []) 4%nat 3%nat).
  - vm_compute. reflexivity.
  - reflexivity.
  - vm_compute. reflexivity.
  - vm_compute. reflexivity.
Defined.

End RemoteDeleteFacts.


(** ** Reading all pages *)

Module ApiFacts.
Import PyStr CaseTree Api.

Section Pages.
Context {F A : Type}.
Implicit Types (get_all : Reader F A) (pages : list (Response A)).

Lemma loop_pages get_all (limit : Z) (filters : option F) pages :
  ∀ (m : nat) (acc : list A) (fuel : nat) (final : Response A),
    (∀ j page, pages !! j = Some page →
       get_all (m + j)%nat (Z.of_nat (m + j) * limit) limit filters
       = Ok page ∧ count page ≠ 0) →
    get_all (m + length pages)%nat
            (Z.of_nat (m + length pages) * limit) limit filters
    = Ok final →
    count final = 0 →
    (length pages < fuel)%nat →
    get_all_loop fuel get_all limit filters m (Z.of_nat m * limit) acc
    = Some (Ok (acc ++ concat (entities <$> pages))).
Proof.
  induction pages as [|page pages IH]; intros m acc fuel final Hp Hf Hc Hfuel.
  - destruct fuel as [|fuel]; [simpl in Hfuel; lia|].
    cbn [length] in Hf. rewrite Nat.add_0_r in Hf.
    cbn [get_all_loop]. rewrite Hf, Hc. cbn. by rewrite app_nil_r.
  - destruct fuel as [|fuel]; [simpl in Hfuel; lia|].
    destruct (Hp 0%nat page eq_refl) as [H0 Hc0].
    rewrite Nat.add_0_r in H0. cbn [get_all_loop]. rewrite H0.
    apply Z.eqb_neq in Hc0. rewrite Hc0.
    replace (Z.of_nat m * limit + limit) with (Z.of_nat (S m) * limit)
      by lia.
    rewrite (IH (S m) _ fuel final).
    + cbn [fmap list_fmap concat]. by rewrite <- app_assoc.
    + intros j pg Hj. replace (S m + j)%nat with (m + S j)%nat by lia.
      by apply Hp.
    + cbn [length] in Hf.
      replace (S m + length pages)%nat with (m + S (length pages))%nat
        by lia. exact Hf.
    + done.
    + cbn [length] in Hfuel. lia.
Qed.

Lemma loop_fails get_all (limit : Z) (filters : option F) pages :
  ∀ (m : nat) (acc : list A) (fuel : nat) (e : exn),
    (∀ j page, pages !! j = Some page →
       get_all (m + j)%nat (Z.of_nat (m + j) * limit) limit filters
       = Ok page ∧ count page ≠ 0) →
    get_all (m + length pages)%nat
            (Z.of_nat (m + length pages) * limit) limit filters
    = Raise e →
    (length pages < fuel)%nat →
    get_all_loop fuel get_all limit filters m (Z.of_nat m * limit) acc
    = Some (Raise e).
Proof.
  induction pages as [|page pages IH]; intros m acc fuel e Hp Hf Hfuel.
  - destruct fuel as [|fuel]; [simpl in Hfuel; lia|].
    cbn [length] in Hf. rewrite Nat.add_0_r in Hf.
    cbn [get_all_loop]. by rewrite Hf.
  - destruct fuel as [|fuel]; [simpl in Hfuel; lia|].
    destruct (Hp 0%nat page eq_refl) as [H0 Hc0].
    rewrite Nat.add_0_r in H0. cbn [get_all_loop]. rewrite H0.
    apply Z.eqb_neq in Hc0. rewrite Hc0.
    replace (Z.of_nat m * limit + limit) with (Z.of_nat (S m) * limit)
      by lia.
    apply IH.
    + intros j pg Hj. replace (S m + j)%nat with (m + S j)%nat by lia.
      by apply Hp.
    + cbn [length] in Hf.
      replace (S m + length pages)%nat with (m + S (length pages))%nat
        by lia. exact Hf.
    + cbn [length] in Hfuel. lia.
Qed.

Lemma loop_goes_on get_all (limit : Z) (filters : option F) :
  (∀ j, ∃ page, get_all j (Z.of_nat j * limit) limit filters = Ok page
                ∧ count page ≠ 0) →
  ∀ (fuel m : nat) (acc : list A),
    get_all_loop fuel get_all limit filters m (Z.of_nat m * limit) acc
    = None.
Proof.
  intros Hall. induction fuel as [|fuel IH]; intros m acc; [done|].
  destruct (Hall m) as (page & Hm & Hc). cbn [get_all_loop].
  rewrite Hm. apply Z.eqb_neq in Hc. rewrite Hc.
  replace (Z.of_nat m * limit + limit) with (Z.of_nat (S m) * limit)
    by lia.
  apply IH.
Qed.

(** [get_all_suites] and [get_all_cases] ask for the pages at offsets
    [0], [limit], [2 * limit], ... and stop at the first page whose
    [count] is 0.  When the pages before it were read well and had
    another count, they return the entities of those pages, in order;
    the entities of the page that ends the loop are not looked at. *)
Theorem get_all_returns_pages (suites_get_all cases_get_all : Reader F A)
  (limit : Z) (filters : option F) (fuel : nat)
  (pages : list (Response A)) (final : Response A)
  (Hfuel : (length pages < fuel)%nat) (Hfinal : count final = 0) :
  ((∀ j page, pages !! j = Some page →
      suites_get_all j (Z.of_nat j * limit) limit filters = Ok page
      ∧ count page ≠ 0) →
   suites_get_all (length pages) (Z.of_nat (length pages) * limit)
                  limit filters = Ok final →
   get_all_suites fuel suites_get_all limit filters
   = Some (Ok (concat (entities <$> pages))))
  ∧ ((∀ j page, pages !! j = Some page →
        cases_get_all j (Z.of_nat j * limit) limit filters = Ok page
        ∧ count page ≠ 0) →
     cases_get_all (length pages) (Z.of_nat (length pages) * limit)
                   limit filters = Ok final →
     get_all_cases fuel cases_get_all limit filters
     = Some (Ok (concat (entities <$> pages)))).
Proof.
  split; intros Hp Hf.
  - apply (loop_pages suites_get_all limit filters pages 0 [] fuel final);
      done.
  - apply (loop_pages cases_get_all limit filters pages 0 [] fuel final);
      done.
Qed.

(** When a request fails, the exception comes out of [get_all_suites]
    and [get_all_cases], and what the pages before it held is lost. *)
Theorem get_all_fails_with_page (suites_get_all cases_get_all : Reader F A)
  (limit : Z) (filters : option F) (fuel : nat)
  (pages : list (Response A)) (e : exn)
  (Hfuel : (length pages < fuel)%nat) :
  ((∀ j page, pages !! j = Some page →
      suites_get_all j (Z.of_nat j * limit) limit filters = Ok page
      ∧ count page ≠ 0) →
   suites_get_all (length pages) (Z.of_nat (length pages) * limit)
                  limit filters = Raise e →
   get_all_suites fuel suites_get_all limit filters = Some (Raise e))
  ∧ ((∀ j page, pages !! j = Some page →
        cases_get_all j (Z.of_nat j * limit) limit filters = Ok page
        ∧ count page ≠ 0) →
     cases_get_all (length pages) (Z.of_nat (length pages) * limit)
                   limit filters = Raise e →
     get_all_cases fuel cases_get_all limit filters = Some (Raise e)).
Proof.
  split; intros Hp Hf.
  - apply (loop_fails suites_get_all limit filters pages 0 [] fuel e); done.
  - apply (loop_fails cases_get_all limit filters pages 0 [] fuel e); done.
Qed.

(** The loop ends only at a page with [count] 0 or at a failure: against
    a service that answers every request with another count, it is
    still running after any number of requests.  With [limit = 0] every
    request is for offset 0, so a service that always answers the same
    loops for ever unless the project is empty. *)
Theorem get_all_needs_empty_page (get_all : Reader F A) (limit : Z)
  (filters : option F)
  (Hall : ∀ j, ∃ page,
      get_all j (Z.of_nat j * limit) limit filters = Ok page
      ∧ count page ≠ 0) :
  ∀ fuel, get_all_suites fuel get_all limit filters = None
          ∧ get_all_cases fuel get_all limit filters = None.
Proof.
  intros fuel.
  split; apply (loop_goes_on get_all limit filters Hall fuel 0 []).
Qed.

End Pages.

(** A project with three suites, read two at a time. *)
Lemma get_all_returns_pages_witness :
  let svc : Reader unit Z := fun _ offset limit _ =>
    Ok (if offset =? 0 then mkResponse 2 [1; 2]
        else if offset =? 2 then mkResponse 1 [3]
        else mkResponse 0 []) in
  get_all_suites 3 svc 2 None = Some (Ok [1; 2; 3])
  ∧ get_all_cases 3 svc 2 None = Some (Ok [1; 2; 3]).
Proof.
  intros svc.
  destruct (get_all_returns_pages svc svc 2 None 3
              [mkResponse 2 [1; 2]; mkResponse 1 [3]] (mkResponse 0 []))
    as [Hs Hc]; [simpl; lia|reflexivity|].
  split; [apply Hs|apply Hc].
  1,3: intros [|[|j]] page Hj; try done; injection Hj as <-; done.
  all: reflexivity.
Defined.

(** The service is down at the second request. *)
Lemma get_all_fails_with_page_witness :
  let svc : Reader unit Z := fun made _ _ _ =>
    match made with
    | O => Ok (mkResponse 2 [1; 2])
    | _ => Raise (ServiceError "503")
    end in
  get_all_suites 2 svc 2 None = Some (Raise (ServiceError "503"))
  ∧ get_all_cases 2 svc 2 None = Some (Raise (ServiceError "503")).
Proof.
  intros svc.
  destruct (get_all_fails_with_page svc svc 2 None 2
              [mkResponse 2 [1; 2]] (ServiceError "503"))
    as [Hs Hc]; [simpl; lia|].
  split; [apply Hs|apply Hc].
  1,3: intros [|j] page Hj; try done; injection Hj as <-; done.
  all: reflexivity.
Defined.

(** A project with one suite, read with [limit = 0]: still running
    after a thousand requests. *)
Lemma get_all_needs_empty_page_witness :
  let svc : Reader unit Z := fun _ offset _ _ =>
    Ok (if offset =? 0 then mkResponse 1 [7] else mkResponse 0 []) in
  get_all_suites 1000 svc 0 None = None
  ∧ get_all_cases 1000 svc 0 None = None.
Proof.
  intros svc. apply (get_all_needs_empty_page svc 0 None).
  intros j. exists (mkResponse 1 [7]).
  replace (Z.of_nat j * 0) with 0 by lia. done.
Defined.

End ApiFacts.


(** ** Building the remote tree *)

Module BuildFacts.
Import PyStr CaseTree TreeSpec HierSpec DiffFacts Build.

Lemma root_not_fresh (t : Tree) : root t ≠ fresh t.
Proof.
  intros Heq. apply (fresh_not_node t). rewrite <- Heq.
  apply root_in_preorder.
Qed.

Lemma add_remote_suite_keeps (cfg : Config) (t : Tree) (i : option Z)
  (title : list ascii) (p : option Z) :
  let t' := add_remote_suite cfg t i title p in
  root t' = root t ∧ store t' (root t) = store t (root t)
  ∧ id_map t' = dict_set (id_map t) i (fresh t).
Proof.
  pose proof (root_not_fresh t) as Hne.
  unfold add_remote_suite, new_node.
  destruct (dict_get (id_map t) p) as [q|]; cbn.
  - split; [apply attach_root|]. split; [|done].
    unfold upd. by rewrite decide_False.
  - split; [done|]. split; [|done].
    unfold upd. by rewrite decide_False.
Qed.

Lemma add_remote_case_keeps (cfg : Config) (t : Tree) (i : option Z)
  (title : list ascii) (p : option Z)
  (cfs : option (list (Z * list ascii))) :
  let t' := add_remote_case cfg t i title p cfs in
  root t' = root t ∧ store t' (root t) = store t (root t)
  ∧ id_map t' = id_map t.
Proof.
  pose proof (root_not_fresh t) as Hne.
  unfold add_remote_case, new_node.
  destruct (dict_get (id_map t) p) as [q|]; cbn.
  - split; [apply attach_root|]. split; [|done].
    unfold upd. by rewrite decide_False.
  - split; [done|]. split; [|done].
    unfold upd. by rewrite decide_False.
Qed.

Lemma add_cases_keeps (cfg : Config) (cases : list Case) (t : Tree) :
  let t' := fold_left
              (fun t case =>
                 add_remote_case cfg t (c_id case) (c_title case)
                                 (c_suite_id case) (c_custom_fields case))
              cases t in
  root t' = root t ∧ store t' (root t) = store t (root t)
  ∧ id_map t' = id_map t.
Proof.
  revert t. induction cases as [|c cases IH]; intros t; [done|].
  cbn [fold_left].
  destruct (add_remote_case_keeps cfg t (c_id c) (c_title c) (c_suite_id c)
              (c_custom_fields c)) as (Hr & Hs & Hi).
  destruct (IH (add_remote_case cfg t (c_id c) (c_title c) (c_suite_id c)
                  (c_custom_fields c))) as (Hr' & Hs' & Hi').
  cbn zeta in *. rewrite Hr',  Hi'. rewrite Hr in Hs'. rewrite Hs'.
  done.
Qed.

(** One suite, once there is a tree: the step does not fail when the
    cases can be read, keeps the root and what is filed by identifier,
    and files the suite unless it skips it. *)
Lemma build_step_some (cfg : Config) (rid : option Z)
  (all_cases : nat → result (list Case)) (t : Tree) (j : nat) (s : Suite) :
  (∀ j, is_ok (all_cases j) = true) →
  ∃ t', build_step cfg rid all_cases (Some t) (j, s) = Ok (Some t')
        ∧ root t' = root t ∧ store t' (root t) = store t (root t)
        ∧ (∀ i, is_Some (get_node_by_suite_id t i) →
                is_Some (get_node_by_suite_id t' i))
        ∧ (truthy rid = false → is_Some (get_node_by_suite_id t' (s_id s))).
Proof.
  intros Hcases. unfold build_step.
  destruct (truthy rid && _) eqn:Hskip.
  { exists t. split; [done|]. split; [done|]. split; [done|].
    split; [done|]. intros Hrid. by rewrite Hrid in Hskip. }
  cbn [mbind result_bind].
  specialize (Hcases j). destruct (all_cases j) as [cs|e]; [|done].
  cbn [mbind result_bind]. eexists. split; [reflexivity|].
  set (t1 := add_remote_suite cfg t (s_id s) (s_title s) (s_parent_id s)).
  destruct (add_remote_suite_keeps cfg t (s_id s) (s_title s)
              (s_parent_id s)) as (Hr1 & Hs1 & Hi1). fold t1 in Hr1, Hs1, Hi1.
  destruct (add_cases_keeps cfg cs t1) as (Hr2 & Hs2 & Hi2).
  cbn zeta in Hr2, Hs2, Hi2. unfold get_node_by_suite_id.
  rewrite Hr2, Hi2, Hi1. rewrite Hr1 in Hs2. rewrite Hs2.
  split; [done|]. split; [done|]. split.
  - intros i Hi. destruct (decide (s_id s = i)) as [<-|Hne].
    + rewrite dict_get_set_eq. by eexists.
    + by rewrite dict_get_set_ne.
  - intros _. rewrite dict_get_set_eq. by eexists.
Qed.

Lemma build_loop_some (cfg : Config) (rid : option Z)
  (all_cases : nat → result (list Case)) (l : list (nat * Suite)) :
  (∀ j, is_ok (all_cases j) = true) →
  ∀ t, ∃ t',
    for_result l (build_step cfg rid all_cases) (Some t) = Ok (Some t')
    ∧ root t' = root t ∧ store t' (root t) = store t (root t)
    ∧ (∀ i, is_Some (get_node_by_suite_id t i) →
            is_Some (get_node_by_suite_id t' i))
    ∧ (truthy rid = false →
       ∀ item, item ∈ l → is_Some (get_node_by_suite_id t' (s_id item.2))).
Proof.
  intros Hcases. induction l as [|[j s] l IH]; intros t.
  { exists t. split; [done|]. split; [done|]. split; [done|].
    split; [done|]. intros _ item Hin. by apply elem_of_nil in Hin. }
  destruct (build_step_some cfg rid all_cases t j s Hcases)
    as (t1 & Hstep & Hr1 & Hs1 & Hi1 & Hnew).
  destruct (IH t1) as (t2 & Hloop & Hr2 & Hs2 & Hi2 & Hall).
  exists t2. cbn [for_result]. rewrite Hstep. cbn [mbind result_bind].
  split; [done|]. split; [congruence|].
  split; [rewrite <- Hr1, Hs2; by rewrite Hr1|].
  split; [auto|]. intros Hrid item Hin.
  apply elem_of_cons in Hin as [->|Hin]; [|by apply Hall].
  apply Hi2. by apply Hnew.
Qed.

Lemma build_step_none (cfg : Config) (rid : option Z)
  (all_cases : nat → result (list Case)) (j : nat) (s : Suite) :
  truthy rid = true →
  (s_parent_id s = None → s_id s ≠ rid) →
  build_step cfg rid all_cases None (j, s) = Ok None.
Proof.
  intros Hrid Hs. unfold build_step. rewrite Hrid.
  destruct (s_parent_id s) as [p|]; [done|].
  by rewrite bool_decide_eq_false_2 by auto.
Qed.

Lemma build_loop_none (cfg : Config) (rid : option Z)
  (all_cases : nat → result (list Case)) (l : list (nat * Suite)) :
  truthy rid = true →
  (∀ item, item ∈ l → s_parent_id item.2 = None → s_id item.2 ≠ rid) →
  for_result l (build_step cfg rid all_cases) None = Ok None.
Proof.
  intros Hrid. induction l as [|[j s] l IH]; intros Hl; [done|].
  cbn [for_result]. rewrite build_step_none; [|done|].
  - cbn [mbind result_bind]. apply IH. intros item Hin.
    apply Hl. by right.
  - apply (Hl (j, s)). left.
Qed.

Lemma build_step_first (cfg : Config) (rid : option Z)
  (all_cases : nat → result (list Case)) (j : nat) (s : Suite)
  (cs : list Case) :
  truthy rid = true → s_parent_id s = None → s_id s = rid →
  all_cases j = Ok cs →
  build_step cfg rid all_cases None (j, s)
  = Ok (Some (fold_left
                (fun t case =>
                   add_remote_case cfg t (c_id case) (c_title case)
                                   (c_suite_id case) (c_custom_fields case))
                cs (Tree_of (RemoteCaseNode cfg rid SUITE NONE (s_title s)
                                            None None)))).
Proof.
  intros Hrid Hp Hid Hc. unfold build_step. rewrite Hrid, Hp, Hid, Hc.
  by rewrite bool_decide_eq_true_2 by done.
Qed.

Lemma elem_of_imap_pair (suites : list Suite) (item : nat * Suite) :
  item ∈ imap pair suites → item.2 ∈ suites.
Proof.
  intros Hin. apply elem_of_lookup_imap in Hin as (i & s & -> & Hs).
  by apply list_elem_of_lookup_2 in Hs.
Qed.

(** With a root suite identifier that no top-level suite has, as the
    identifier of a nested suite, [build_remote_case_tree] skips every
    suite and returns [None] instead of a tree; it does not fail, and
    what the cases are makes no difference. *)
Theorem build_unknown_root_gives_none (cfg : Config) (suites : list Suite)
  (all_cases : nat → result (list Case)) (root_suite_id : option Z)
  (Hroot : truthy root_suite_id = true)
  (Htop : ∀ s, s ∈ suites → s_parent_id s = None →
               s_id s ≠ root_suite_id) :
  build_remote_case_tree cfg (Ok suites) all_cases root_suite_id = Ok None.
Proof.
  unfold build_remote_case_tree. rewrite Hroot. cbn [mbind result_bind].
  apply build_loop_none; [done|]. intros item Hin.
  apply Htop. by apply elem_of_imap_pair.
Qed.

Lemma build_unknown_root_gives_none_witness :
  build_remote_case_tree Scenario.cfg
    (Ok [mkSuite (Some 1) (str "A") None;
         mkSuite (Some 2) (str "B") (Some 1)])
    (fun _ => Ok []) (Some 2)
  = Ok None.
Proof.
  apply build_unknown_root_gives_none; [reflexivity|].
  intros s Hs Hp.
  apply elem_of_cons in Hs as [->|Hs]; [done|].
  apply list_elem_of_singleton in Hs as ->. done.
Defined.

(** With a root suite identifier, the first top-level suite that has
    it becomes the root of the tree, with the path [.]: when the suites
    and the cases can be read, a tree comes back, and its root is that
    suite, whatever is listed after it. *)
Theorem build_root_is_first_match (cfg : Config)
  (before after : list Suite) (s : Suite)
  (all_cases : nat → result (list Case)) (root_suite_id : option Z)
  (Hroot : truthy root_suite_id = true)
  (Hbefore : ∀ s', s' ∈ before → s_parent_id s' = None →
                   s_id s' ≠ root_suite_id)
  (Htop : s_parent_id s = None) (Hid : s_id s = root_suite_id)
  (Hcases : ∀ j, is_ok (all_cases j) = true) :
  ∃ t, build_remote_case_tree cfg (Ok (before ++ s :: after)) all_cases
                              root_suite_id = Ok (Some t)
       ∧ store t (root t)
         = RemoteCaseNode cfg root_suite_id SUITE NONE (s_title s) None None
       ∧ filepath (store t (root t)) = dot
       ∧ key (store t (root t)) = dot.
Proof.
  unfold build_remote_case_tree. rewrite Hroot. cbn [mbind result_bind].
  rewrite imap_app, for_result_app.
  rewrite build_loop_none; [|done|].
  2:{ intros item Hin. apply Hbefore. by apply elem_of_imap_pair. }
  cbn [mbind result_bind imap for_result].
  pose proof (Hcases (length before + 0)%nat) as Hc.
  destruct (all_cases (length before + 0)%nat) as [cs|e] eqn:Hcs; [|done].
  rewrite (build_step_first _ _ _ _ _ cs) by done.
  cbn [mbind result_bind].
  set (nd := RemoteCaseNode cfg root_suite_id SUITE NONE (s_title s)
                            None None).
  destruct (add_cases_keeps cfg cs (Tree_of nd)) as (Hr1 & Hs1 & _).
  cbn zeta in Hr1, Hs1.
  match goal with
  | |- context [for_result ?l _ (Some ?t1)] =>
      destruct (build_loop_some cfg root_suite_id all_cases l Hcases t1)
        as (t2 & Hloop & Hr2 & Hs2 & _)
  end.
  exists t2. split; [exact Hloop|].
  assert (store t2 (root t2) = nd) as Hnd.
  { rewrite Hr2, Hs2, Hr1, Hs1. reflexivity. }
  rewrite Hnd. done.
Qed.

Lemma build_root_is_first_match_witness :
  ∃ t, build_remote_case_tree Scenario.cfg
         (Ok ([mkSuite (Some 5) (str "Other") None]
              ++ mkSuite (Some 1) (str "A") None
              :: [mkSuite (Some 2) (str "B") (Some 1)]))
         (fun _ => Ok []) (Some 1)
       = Ok (Some t)
       ∧ name (store t (root t)) = str "A".
Proof.
  destruct (build_root_is_first_match Scenario.cfg
              [mkSuite (Some 5) (str "Other") None]
              [mkSuite (Some 2) (str "B") (Some 1)]
              (mkSuite (Some 1) (str "A") None)
              (fun _ => Ok []) (Some 1))
    as (t & Hrun & Hnd & _); try reflexivity.
  - intros s' Hs' _. apply list_elem_of_singleton in Hs' as ->. done.
  - exists t. split; [exact Hrun|]. by rewrite Hnd.
Defined.

(** Without a root suite identifier ([None] or 0), the root is a
    repository node with identifier [None], no suite is skipped, and
    every suite that is listed is filed under its identifier,
    whatever the order of the list. *)
Theorem build_without_root_files_all (cfg : Config) (suites : list Suite)
  (all_cases : nat → result (list Case)) (root_suite_id : option Z)
  (Hroot : truthy root_suite_id = false)
  (Hcases : ∀ j, is_ok (all_cases j) = true) :
  ∃ t, build_remote_case_tree cfg (Ok suites) all_cases root_suite_id
       = Ok (Some t)
       ∧ store t (root t)
         = RemoteCaseNode cfg None REPOSITORY NONE (str "Repository")
                          None None
       ∧ ∀ s, s ∈ suites → is_Some (get_node_by_suite_id t (s_id s)).
Proof.
  unfold build_remote_case_tree. rewrite Hroot. cbn [mbind result_bind].
  match goal with
  | |- context [for_result ?l _ (Some ?t1)] =>
      destruct (build_loop_some cfg root_suite_id all_cases l Hcases t1)
        as (t2 & Hloop & Hr2 & Hs2 & _ & Hall)
  end.
  exists t2. split; [exact Hloop|]. split.
  - rewrite Hr2, Hs2. reflexivity.
  - intros s Hs. apply list_elem_of_lookup_1 in Hs as [i Hi].
    apply (Hall Hroot (i, s)).
    apply elem_of_lookup_imap. by exists i, s.
Qed.

Lemma build_without_root_files_all_witness :
  ∃ t, build_remote_case_tree Scenario.cfg
         (Ok [mkSuite (Some 2) (str "B") (Some 1);
              mkSuite (Some 1) (str "A") None])
         (fun _ => Ok []) None
       = Ok (Some t)
       ∧ is_Some (get_node_by_suite_id t (Some 2)).
Proof.
  destruct (build_without_root_files_all Scenario.cfg
              [mkSuite (Some 2) (str "B") (Some 1);
               mkSuite (Some 1) (str "A") None]
              (fun _ => Ok []) None)
    as (t & Hrun & _ & Hall); try reflexivity.
  exists t. split; [exact Hrun|].
  apply (Hall (mkSuite (Some 2) (str "B") (Some 1))). left.
Defined.

End BuildFacts.


(** ** Building the local tree *)

Module BuildLocalFacts.
Import PyStr CaseTree TreeSpec HierSpec DiffFacts Build.

Lemma add_node_hier (t : Tree) (node : nid) :
  hier (add_node t node) = hier t.
Proof. unfold add_node. by destruct (truthy _). Qed.

Lemma cases_loop_keeps (cfg : Config) (node : nid)
  (found : list (result (list ascii * list (list ascii * list ascii)))) :
  ∀ t t',
    for_result found
      (fun tree scenario =>
         '(nm, dat) ← scenario;
         case ← LocalCaseNode cfg (filepath (store tree node)) nm
                              CASE NONE dat;
         let '(tree, case) := new_node tree case (Some node) in
         Ok (add_node tree case)) t = Ok t' →
    (∀ y q, y ∈ nodes t → parent_of y (hier t) = Some q →
            parent_of y (hier t') = Some q)
    ∧ (∀ y, y ∈ nodes t → y ∈ nodes t').
Proof.
  induction found as [|sc found IH]; intros t t'.
  { intros [= <-]. done. }
  cbn [for_result]. destruct sc as [[nm dat]|e]; [|done].
  cbn [mbind result_bind].
  destruct (LocalCaseNode cfg (filepath (store t node)) nm CASE NONE dat)
    as [nd|e]; [|done].
  cbn [mbind result_bind]. unfold new_node.
  set (t1 := add_node _ _). intros Hrest.
  destruct (IH t1 t' Hrest) as [Hpar Hin].
  assert (hier t1 = attach node (Sh (fresh t) []) (hier t)) as Hh.
  { unfold t1. by rewrite add_node_hier. }
  assert (∀ y, y ∈ nodes t → y ∈ nodes t1) as Hkeep.
  { intros y Hy. unfold nodes. rewrite Hh. by apply attach_keeps. }
  split.
  - intros y q Hy Hq. apply Hpar; [by apply Hkeep|].
    rewrite Hh. rewrite parent_of_attach_old; [done|].
    intros ->. by apply (fresh_not_node t).
  - intros y Hy. by apply Hin, Hkeep.
Qed.

(** A new suite at the top level goes under the node that is filed
    under the key [None], if there is one, and not under the root: the
    loop looks for the parent under [str(prev)], and [prev] is [None]
    at the top level.  So a directory [None] or a file [None.feature]
    takes in the top-level entries that are read after it. *)
Theorem top_level_suite_goes_under_None (cfg : Config) (t t' : Tree)
  (f : list ascii)
  (scenarios : result (list (result (list ascii
                                     * list (list ascii * list ascii)))))
  (x : nid)
  (Hnone : get_node_by_key t (str "None") = Some x)
  (Hx : x ∈ nodes t)
  (Hnew : get_node_by_key t (path_str [f]) = None)
  (Hrun : build_local_case_tree_branch cfg t [f] scenarios = Ok t') :
  parent_of (fresh t) (hier t') = Some x ∧ fresh t ∈ nodes t'.
Proof.
  unfold build_local_case_tree_branch, parent_dirs in Hrun.
  cbn [length Nat.sub seq fmap list_fmap app zip zip_with for_result]
    in Hrun.
  unfold branch_step in Hrun. rewrite Hnew, Hnone in Hrun.
  cbn [default] in Hrun. unfold add_local_suite in Hrun.
  destruct (LocalCaseNode cfg (path_str [f]) [] SUITE NONE []) as [nd|e];
    [|done].
  cbn [mbind result_bind] in Hrun. unfold new_node in Hrun.
  rewrite bool_decide_eq_true_2 in Hrun by done.
  set (t1 := set_key_map _ _) in Hrun.
  assert (hier t1 = attach x (Sh (fresh t) []) (hier t)) as Hh by done.
  assert (parent_of (fresh t) (hier t1) = Some x) as Hp.
  { rewrite Hh. apply parent_of_attach_new; [apply fresh_not_node|done]. }
  assert (fresh t ∈ nodes t1) as Hin.
  { unfold nodes. rewrite Hh. by apply (attach_adds x (Sh (fresh t) [])). }
  destruct scenarios as [found|e]; [|done].
  cbn [mbind result_bind] in Hrun.
  destruct (for_result found _ t1) as [t2|e] eqn:Hloop; [|done].
  cbn [mbind result_bind] in Hrun. injection Hrun as <-.
  apply cases_loop_keeps in Hloop as [Hpar Hkeep].
  split; [by apply Hpar|by apply Hkeep].
Qed.

(** The files [None.feature] and [B.feature], read in this order: the
    suite of [B] is put under the suite of [None]. *)
Lemma top_level_suite_goes_under_None_witness :
  let t1 :=
    Scenario.from_ok
      (build_local_case_tree Scenario.cfg [([str "None.feature"], Ok [])])
      Scenario.remote_root in
  key (store t1 1%nat) = str "None"
  ∧ parent_of 1%nat (hier t1) = Some (root t1)
  ∧ ∃ t2, build_local_case_tree_branch Scenario.cfg t1 [str "B.feature"]
            (Ok [Ok (str "Y", [])]) = Ok t2
          ∧ parent_of (fresh t1) (hier t2) = Some 1%nat.
Proof.
  intros t1. split; [vm_compute; reflexivity|].
  split; [vm_compute; reflexivity|].
  assert (is_ok (build_local_case_tree_branch Scenario.cfg t1
                   [str "B.feature"] (Ok [Ok (str "Y", [])])) = true)
    as Hok by (vm_compute; reflexivity).
  destruct (build_local_case_tree_branch Scenario.cfg t1
              [str "B.feature"] (Ok [Ok (str "Y", [])]))
    as [t2|e] eqn:Hrun; [|done].
  exists t2. split; [done|].
  apply (top_level_suite_goes_under_None Scenario.cfg t1 t2
           (str "B.feature") (Ok [Ok (str "Y", [])]) 1%nat).
  - vm_compute. reflexivity.
  - apply (bool_decide_unpack _). vm_compute. exact I.
  - vm_compute. reflexivity.
  - exact Hrun.
Defined.

End BuildLocalFacts.


(** ** The flat diff *)

Module FlatDiffFacts.
Import PyStr CaseTree TreeSpec DiffFacts.

Lemma for_result_inv {A St : Type} (P : St → Prop) (l : list A)
  (body : St → A → result St) :
  (∀ s a s', P s → a ∈ l → body s a = Ok s' → P s') →
  ∀ s s', P s → for_result l body s = Ok s' → P s'.
Proof.
  induction l as [|a l IH]; intros Hbody s s' Hs.
  { by intros [= <-]. }
  cbn [for_result]. destruct (body s a) as [s1|e] eqn:Hstep; [|done].
  cbn [mbind result_bind]. apply IH.
  - intros s0 a0 s0' Hs0 Ha0. apply Hbody; [done|by right].
  - apply (Hbody s a); [done|left|done].
Qed.

(** [flat_diff_trees] lists no node whose path is [.]: not the root,
    and no other node with that path either, such as a remote case
    that lies directly in the root suite.  Its update and create
    entries are nodes of the local key index, the first with a key the
    remote index has and the second with a key it lacks; its delete
    entries are nodes of the remote key index with a key the local
    index lacks, and carry the identifier of the remote node. *)
Theorem flat_diff_entries (local remote : Tree) (ops : list Operation)
  (Hrun : flat_diff_trees local remote = Ok ops) :
  ∀ a n i, (a, n, i) ∈ ops →
    match a with
    | UPDATE =>
        is_dot (filepath (store local n)) = false
        ∧ ∃ k m, (k, n) ∈ key_map local
                 ∧ get_node_by_key remote k = Some m
                 ∧ pk (store remote m) = Some i
    | CREATE =>
        is_dot (filepath (store local n)) = false ∧ i = None
        ∧ ∃ k, (k, n) ∈ key_map local ∧ get_node_by_key remote k = None
    | DELETE =>
        is_dot (filepath (store remote n)) = false
        ∧ pk (store remote n) = Some i
        ∧ ∃ k, (k, n) ∈ key_map remote ∧ get_node_by_key local k = None
    | NONE => False
    end.
Proof.
  unfold flat_diff_trees in Hrun.
  destruct (for_result (key_map local) (flat_local local remote) ([], []))
    as [[to_update to_create]|e] eqn:H1; [|done].
  cbn [mbind result_bind] in Hrun.
  destruct (for_result (key_map remote) (flat_remote local remote) [])
    as [to_delete|e] eqn:H2; [|done].
  cbn [mbind result_bind] in Hrun. injection Hrun as <-.
  apply (for_result_inv
           (fun acc =>
              (∀ op, op ∈ acc.1 →
                 ∃ n i, op = (UPDATE, n, i)
                   ∧ is_dot (filepath (store local n)) = false
                   ∧ ∃ k m, (k, n) ∈ key_map local
                            ∧ get_node_by_key remote k = Some m
                            ∧ pk (store remote m) = Some i)
              ∧ (∀ op, op ∈ acc.2 →
                   ∃ n, op = (CREATE, n, None)
                     ∧ is_dot (filepath (store local n)) = false
                     ∧ ∃ k, (k, n) ∈ key_map local
                            ∧ get_node_by_key remote k = None))) in H1.
  2:{ intros [up cr] [k n] acc' [Hup Hcr] Hin. unfold flat_local.
      destruct (is_dot (filepath (store local n))) eqn:Hdot.
      { intros [= <-]. done. }
      destruct (dict_get (key_map remote) k) as [m|] eqn:Hk.
      - unfold get_pk. destruct (pk (store remote m)) as [i|] eqn:Hpk;
          [|done].
        cbn [mbind result_bind fst snd]. intros [= <-]. cbn [fst snd].
        split; [|done]. intros op Hop.
        apply elem_of_app in Hop as [Hop|Hop]; [by apply Hup|].
        apply list_elem_of_singleton in Hop as ->.
        exists n, i. split; [done|]. split; [done|]. by exists k, m.
      - cbn [fst snd]. intros [= <-]. cbn [fst snd].
        split; [done|]. intros op Hop.
        apply elem_of_app in Hop as [Hop|Hop]; [by apply Hcr|].
        apply list_elem_of_singleton in Hop as ->.
        exists n. split; [done|]. split; [done|]. by exists k. }
  2:{ split; intros op Hop; by apply elem_of_nil in Hop. }
  assert (∀ op, op ∈ to_delete →
            ∃ n i, op = (DELETE, n, i)
              ∧ is_dot (filepath (store remote n)) = false
              ∧ pk (store remote n) = Some i
              ∧ ∃ k, (k, n) ∈ key_map remote
                     ∧ get_node_by_key local k = None) as Hdel.
  { refine (for_result_inv
              (fun acc =>
                 ∀ op, op ∈ acc →
                   ∃ n i, op = (DELETE, n, i)
                     ∧ is_dot (filepath (store remote n)) = false
                     ∧ pk (store remote n) = Some i
                     ∧ ∃ k, (k, n) ∈ key_map remote
                            ∧ get_node_by_key local k = None)
              (key_map remote) (flat_remote local remote) _
              [] to_delete _ H2).
    - intros acc [k n] acc' Hacc Hin. unfold flat_remote.
      destruct (is_dot (filepath (store remote n))) eqn:Hdot.
      { intros [= <-]. done. }
      destruct (dict_get (key_map local) k) as [m|] eqn:Hk.
      { intros [= <-]. done. }
      unfold get_pk. destruct (pk (store remote n)) as [i|] eqn:Hpk;
        [|done].
      cbn [mbind result_bind]. intros [= <-]. intros op Hop.
      apply elem_of_app in Hop as [Hop|Hop]; [by apply Hacc|].
      apply list_elem_of_singleton in Hop as ->.
      exists n, i. split; [done|]. split; [done|]. split; [done|].
      by exists k.
    - intros op Hop. by apply elem_of_nil in Hop. }
  destruct H1 as [Hup Hcr]. cbn [fst snd] in *.
  intros a n i Hin.
  apply elem_of_app in Hin as [Hin|Hin].
  { destruct (Hup _ Hin) as (n' & i' & [= -> -> ->] & Hrest). done. }
  apply elem_of_app in Hin as [Hin|Hin].
  - destruct (Hcr _ Hin) as (n' & [= -> -> ->] & Hd & Hrest). done.
  - destruct (Hdel _ Hin) as (n' & i' & [= -> -> ->] & Hrest). done.
Qed.

(** In the scenario the remote case W lies directly in the root suite
    and is in no entry; the remote suite C is deleted. *)
Lemma flat_diff_entries_witness :
  flat_diff_trees Scenario.local_tree Scenario.remote_tree
  = Ok [(UPDATE, 1%nat, Some 1); (UPDATE, 2%nat, Some 11);
        (CREATE, 3%nat, None); (CREATE, 4%nat, None);
        (DELETE, 3%nat, Some 2); (DELETE, 4%nat, Some 12)]
  ∧ is_dot (filepath (store Scenario.remote_tree 3%nat)) = false
  ∧ pk (store Scenario.remote_tree 3%nat) = Some (Some 2).
Proof.
  assert (flat_diff_trees Scenario.local_tree Scenario.remote_tree
          = Ok [(UPDATE, 1%nat, Some 1); (UPDATE, 2%nat, Some 11);
                (CREATE, 3%nat, None); (CREATE, 4%nat, None);
                (DELETE, 3%nat, Some 2); (DELETE, 4%nat, Some 12)])
    as Hrun by (vm_compute; reflexivity).
  split; [exact Hrun|].
  destruct (flat_diff_entries _ _ _ Hrun DELETE 3%nat (Some 2))
    as (Hdot & Hpk & _).
  { do 4 apply list_elem_of_further. apply list_elem_of_here. }
  split; [exact Hdot|exact Hpk].
Defined.

End FlatDiffFacts.
